(** * Cinema-microservice: seat ledger, wire protocol, booking service,
      message router and connection hub.

    A shallow embedding of [server/lib/cinema.cpp],
    [server/lib/websocket_server.cpp], [client/lib/cinema_Client.cpp],
    [client/lib/websocket_client.cpp] and [client/lib/CinemaUI.cpp],
    followed by the properties of the specification, each proved
    against it, or refuted and amended, or shown to fail on the code,
    and by further properties of the code. *)

From Stdlib Require Import ZArith Ascii String DecimalString Lia.
From stdpp Require Import base list strings sorting gmap.

Local Open Scope Z_scope.

(** ** std::string *)

(** A [std::string] is a sequence of bytes. *)
Definition cstring : Type := list ascii.

(** String literals of the source, as byte sequences. *)
Definition lit (s : string) : cstring := list_ascii_of_string s.
Arguments lit : simpl never.

Definition newline : ascii := "010"%char.
Definition comma : ascii := ","%char.

(** ** Shows (server/lib/cinema.hpp) *)

(** The [seatsMutex] member carries no data; locking is modelled separately
    in the section on concurrent reservations. *)
Record Shows : Type := mkShows {
  movie : cstring;
  dateTime : cstring;
  theater : cstring;
  seats : list bool   (* false = available, true = booked *)
}.

#[global] Instance Shows_eq_dec : EqDecision Shows.
Proof. solve_decision. Defined.

(** [Shows::Shows]: [seats.resize(20, false)]. *)
Definition newShows (m dt t : cstring) : Shows :=
  mkShows m dt t (replicate 20 false).

Definition set_seats (sh : Shows) (s : list bool) : Shows :=
  mkShows (movie sh) (dateTime sh) (theater sh) s.

(** [static_cast<uint8_t>]. *)
Definition to_uint8 (z : Z) : Z := z mod 256.

(** [Shows::getAvailableSeats]: the loop over [i = 0 .. seats.size()-1]
    pushing [static_cast<uint8_t>(i + 1)] for every [!seats[i]]. *)
Fixpoint availableFrom (i : nat) (s : list bool) : list Z :=
  match s with
  | [] => []
  | b :: s' =>
      if b then availableFrom (S i) s'
      else to_uint8 (Z.of_nat i + 1) :: availableFrom (S i) s'
  end.

Definition getAvailableSeats (sh : Shows) : list Z :=
  availableFrom 0 (seats sh).

(** The guard of the first loop of [Shows::bookSeats]:
    [seat < 1 || seat > seats.size() || seats[seat - 1]].  The read of
    [seats[seat - 1]] is only reached for an index in range. *)
Definition seatRejected (s : list bool) (seat : Z) : bool :=
  (seat <? 1) || (seat >? Z.of_nat (length s)) ||
  match s !! Z.to_nat (seat - 1) with
  | Some b => b
  | None => true
  end.

(** The second loop of [Shows::bookSeats]: [seats[seat - 1] = true]. *)
Definition markBooked (s : list bool) (seat : Z) : list bool :=
  <[Z.to_nat (seat - 1) := true]> s.

(** [Shows::bookSeats] on the [seats] member: the check loop returns at
    the first rejected seat, before any write; the write loop runs only
    after every seat has passed. *)
Definition bookSeatsOn (seatNumbers : list Z) (s : list bool)
  : bool * list bool :=
  if existsb (seatRejected s) seatNumbers
  then (false, s)
  else (true, foldl markBooked s seatNumbers).

(** [Shows::bookSeats]: the result and the show after the call. *)
Definition bookSeats (seatNumbers : list Z) (sh : Shows) : bool * Shows :=
  let '(ok, s') := bookSeatsOn seatNumbers (seats sh) in
  (ok, set_seats sh s').

(** ** std::string operations used by the protocol code *)

(** [s.find(needle) == 0]. *)
Fixpoint starts_with (needle s : cstring) : bool :=
  match needle, s with
  | [], _ => true
  | _ :: _, [] => false
  | a :: needle', b :: s' => Ascii.eqb a b && starts_with needle' s'
  end.

(** [s.find(needle)]: position of the first occurrence; [None] is
    [std::string::npos]. *)
Fixpoint find (needle s : cstring) : option nat :=
  if starts_with needle s then Some 0%nat
  else match s with
       | [] => None
       | _ :: s' => S <$> find needle s'
       end.

(** [s.substr(pos)] and [s.substr(pos, n)] for [pos <= s.size()]. *)
Definition substr_from (pos : nat) (s : cstring) : cstring := drop pos s.
Definition substr (pos n : nat) (s : cstring) : cstring := take n (drop pos s).

(** [std::to_string(int)], and [operator<<] on an [int] or a [size_t]:
    decimal digits, with a leading minus sign for a negative value. *)
Definition to_string (z : Z) : cstring :=
  lit (NilZero.string_of_int (Z.to_int z)).

(** [isspace] in the "C" locale. *)
Definition isspace (c : ascii) : bool :=
  match c with
  | " "%char | "009"%char | "010"%char | "011"%char | "012"%char
  | "013"%char => true
  | _ => false
  end.

(** The value of a decimal digit, [c - '0']. *)
Definition digit_of (c : ascii) : option Z :=
  let code := Z.of_N (N_of_ascii c) in
  if (48 <=? code) && (code <=? 57) then Some (code - 48) else None.

Fixpoint skip_space (s : cstring) : cstring :=
  match s with
  | c :: s' => if isspace c then skip_space s' else s
  | [] => []
  end.

(** Value of the longest prefix of decimal digits. *)
Fixpoint digits_value (acc : Z) (s : cstring) : Z :=
  match s with
  | c :: s' =>
      match digit_of c with
      | Some d => digits_value (10 * acc + d) s'
      | None => acc
      end
  | [] => acc
  end.

Definition INT_MIN : Z := - 2 ^ 31.
Definition INT_MAX : Z := 2 ^ 31 - 1.

(** [std::stoi(s)]: leading white space is skipped, then an optional sign
    and at least one decimal digit are read; whatever follows the digits is
    ignored.  [None] stands for the exception thrown when there is no
    digit ([std::invalid_argument]) or when the value does not fit an [int]
    ([std::out_of_range]). *)
Definition stoi (s : cstring) : option Z :=
  let s1 := skip_space s in
  let '(neg, s2) :=
    match s1 with
    | "-"%char :: r => (true, r)
    | "+"%char :: r => (false, r)
    | _ => (false, s1)
    end in
  match s2 with
  | c :: _ =>
      match digit_of c with
      | Some _ =>
          let v := if neg then - digits_value 0 s2 else digits_value 0 s2 in
          if (INT_MIN <=? v) && (v <=? INT_MAX) then Some v else None
      | None => None
      end
  | [] => None
  end.

(** [while (std::getline(ss, item, delim)) parts.push_back(item);]:
    every item ends at a delimiter or at the end of the input; the read
    that finds the input exhausted fails and ends the loop, so a trailing
    delimiter does not produce a last empty item. *)
Fixpoint getlines (delim : ascii) (s : cstring) : list cstring :=
  match s with
  | [] => []
  | c :: s' =>
      if Ascii.eqb c delim then [] :: getlines delim s'
      else match getlines delim s' with
           | [] => [[c]]
           | item :: items => (c :: item) :: items
           end
  end.

(** [while (stream >> token)]: the maximal runs of non-space bytes. *)
Fixpoint tokens (s : cstring) : list cstring :=
  match s with
  | [] => []
  | c :: s' =>
      if isspace c then tokens s'
      else match s' with
           | [] => [[c]]
           | d :: _ =>
               if isspace d then [c] :: tokens s'
               else match tokens s' with
                    | [] => [[c]]
                    | t :: ts => (c :: t) :: ts
                    end
           end
  end.

(** ** CinemaService (server/lib/cinema.cpp) *)

(** The first loop of [formatCinemaData]: theater names in first-seen
    order, a name being pushed when [std::find] does not find it. *)
Definition theatersInOrder (shows : list Shows) : list cstring :=
  foldl (fun theaters show =>
           if bool_decide (theater show ∈ theaters) then theaters
           else theaters ++ [theater show])
        [] shows.

(** The loop printing seat numbers separated by [", "]. *)
Fixpoint seatList (l : list Z) : cstring :=
  match l with
  | [] => []
  | [x] => to_string x
  | x :: rest => to_string x ++ lit ", " ++ seatList rest
  end.

(** The two lines written for one show. *)
Definition formatShow (show : Shows) : cstring :=
  let availableSeats := getAvailableSeats show in
  lit "  Movie: " ++ movie show ++ lit " (" ++ dateTime show ++ lit ")"
    ++ [newline]
    ++ lit "    Available seats: "
    ++ (match availableSeats with
        | [] => lit "SOLD OUT"
        | _ => seatList availableSeats
        end)
    ++ lit " (Total: " ++ to_string (Z.of_nat (length availableSeats))
    ++ lit "/20)" ++ [newline].

(** The block written for one theater: its heading, the shows of the
    catalog playing there in catalog order, and an empty line. *)
Definition formatTheater (shows : list Shows) (theaterName : cstring)
  : cstring :=
  lit "Theater: " ++ theaterName ++ [newline]
    ++ flat_map (fun show =>
                   if bool_decide (theater show = theaterName)
                   then formatShow show else [])
                shows
    ++ [newline].

Definition formatBody (shows : list Shows) : cstring :=
  flat_map (formatTheater shows) (theatersInOrder shows).

Definition CINEMA_DATA_HEADER : cstring := lit "=== CINEMA DATA STREAM ===".
Definition CINEMA_DATA_FOOTER : cstring := lit "=== END CINEMA DATA ===".
Definition UPDATE_DATA_HEADER : cstring := lit "=== UPDATED CINEMA DATA ===".
Definition UPDATE_DATA_FOOTER : cstring := lit "=== END UPDATED DATA ===".
Definition BOOKING_UPDATE_PREFIX : cstring := lit "BOOKING_UPDATE:" ++ [newline].

(** [CinemaService::formatCinemaData]. *)
Definition formatCinemaData (shows : list Shows) : cstring :=
  CINEMA_DATA_HEADER ++ [newline]
    ++ formatBody shows
    ++ CINEMA_DATA_FOOTER ++ [newline].

Arguments formatCinemaData : simpl never.

(** [CinemaService::formatUpdateData]. *)
Definition formatUpdateData (shows : list Shows) : cstring :=
  BOOKING_UPDATE_PREFIX ++ UPDATE_DATA_HEADER ++ [newline]
    ++ formatBody shows
    ++ UPDATE_DATA_FOOTER ++ [newline].

(** ** BookingService (server/lib/cinema.cpp) *)

Record BookingResult : Type := mkBookingResult {
  success : bool;
  message : cstring;
  shouldBroadcast : bool
}.

(** Outcome of the loop over [parts[2..]]: all seat numbers, or the first
    field that made the loop return, with the branch that returned. *)
Inductive SeatFields : Type :=
| SeatsParsed (seatNumbers : list Z)
| SeatOutOfRange (field : cstring)
| SeatBadFormat (field : cstring).

Fixpoint parseSeatFields (seatNumbers : list Z) (fields : list cstring)
  : SeatFields :=
  match fields with
  | [] => SeatsParsed seatNumbers
  | field :: rest =>
      match stoi field with
      | Some seatNum =>
          if (0 <? seatNum) && (seatNum <=? 20)
          then parseSeatFields (seatNumbers ++ [to_uint8 seatNum]) rest
          else SeatOutOfRange field
      | None => SeatBadFormat field
      end
  end.

(** The loop over [shows]: the first show matching both names is booked in
    place and ends the loop; [None] when no show matches. *)
Fixpoint bookFirstMatch (theaterName movieName : cstring)
    (seatNumbers : list Z) (shows : list Shows)
  : option (bool * list Shows) :=
  match shows with
  | [] => None
  | show :: rest =>
      if bool_decide (theater show = theaterName)
         && bool_decide (movie show = movieName)
      then let '(ok, show') := bookSeats seatNumbers show in
           Some (ok, show' :: rest)
      else match bookFirstMatch theaterName movieName seatNumbers rest with
           | Some (ok, rest') => Some (ok, show :: rest')
           | None => None
           end
  end.

Definition blank_line : cstring := [newline; newline].

(** [BookingService::processBooking]: the result and the catalog after the
    call ([shows] is passed by reference). *)
Definition processBooking (msg : cstring) (shows : list Shows)
  : BookingResult * list Shows :=
  match getlines comma msg with
  | theaterName :: movieName :: ((_ :: _) as fields) =>
      match parseSeatFields [] fields with
      | SeatOutOfRange field =>
          (mkBookingResult false
             (lit "ERROR: Invalid seat number " ++ field
                ++ lit ". Must be 1-20." ++ blank_line
                ++ formatCinemaData shows)
             false, shows)
      | SeatBadFormat field =>
          (mkBookingResult false
             (lit "ERROR: Invalid seat number format: " ++ field
                ++ blank_line ++ formatCinemaData shows)
             false, shows)
      | SeatsParsed seatNumbers =>
          match bookFirstMatch theaterName movieName seatNumbers shows with
          | Some (true, shows') =>
              (mkBookingResult true
                 (lit "SUCCESS: Booked seats " ++ seatList seatNumbers
                    ++ lit " for " ++ movieName ++ lit " at " ++ theaterName
                    ++ blank_line ++ formatCinemaData shows')
                 true, shows')
          | Some (false, shows') =>
              (mkBookingResult false
                 (lit "ERROR: One or more seats are already booked or invalid"
                    ++ blank_line ++ formatCinemaData shows')
                 false, shows')
          | None =>
              (mkBookingResult false
                 (lit "ERROR: Show not found - " ++ movieName ++ lit " at "
                    ++ theaterName ++ blank_line ++ formatCinemaData shows)
                 false, shows)
          end
      end
  | _ =>
      (mkBookingResult false
         (lit "ERROR: Invalid booking format. Use: theater,movie,seat1,seat2,..."
            ++ blank_line ++ formatCinemaData shows)
         false, shows)
  end.

(** ** MessageHandler (server/lib/cinema.cpp) *)

(** [MessageHandler::handleMessage]: the response, the value left in the
    [shouldBroadcast] out-parameter, and the catalog after the call. *)
Definition handleMessage (received : cstring) (shows : list Shows)
  : cstring * bool * list Shows :=
  if bool_decide (received = lit "get_data")
     || bool_decide (received = lit "refresh")
  then (formatCinemaData shows, false, shows)
  else if bool_decide (find [comma] received ≠ None)
  then let '(result, shows') := processBooking received shows in
       (message result, shouldBroadcast result, shows')
  else (lit "Echo: " ++ received ++ blank_line ++ formatCinemaData shows,
        false, shows).

(** ** Client side (client/lib/cinema_Client.cpp, websocket_client.cpp) *)

Module Client.

(** The client's [Shows] class has the members of the server's; the two
    share the record. *)

(** [Shows::updateSeatAvailability]. *)
Definition updateSeatAvailability (seatStatus : list bool) (sh : Shows)
  : Shows :=
  if bool_decide (length seatStatus = length (seats sh))
  then set_seats sh seatStatus
  else sh.

Definition THEATER_PREFIX : cstring := lit "Theater: ".
Definition MOVIE_PREFIX : cstring := lit "  Movie: ".
Definition CINEMA_DATA_STREAM : cstring := lit "=== CINEMA DATA STREAM ===".
Definition UPDATED_CINEMA_DATA : cstring := lit "=== UPDATED CINEMA DATA ===".
Definition THEATER_PREFIX_LEN : nat := 9.
Definition MOVIE_PREFIX_LEN : nat := 9.

(** [CinemaClient::isCinemaDataStream]. *)
Definition isCinemaDataStream (response : cstring) : bool :=
  bool_decide (find CINEMA_DATA_STREAM response ≠ None)
  || bool_decide (find UPDATED_CINEMA_DATA response ≠ None).

(** [if (!token.empty() && token.back() == ',') token.pop_back();] *)
Definition stripComma (token : cstring) : cstring :=
  match last token with
  | Some c => if Ascii.eqb c comma then removelast token else token
  | None => token
  end.

(** One iteration of the token loop: a token that [std::stoi] rejects is
    skipped (the exception is caught), and so is a value outside 1..20. *)
Definition markAvailable (seatStatus : list bool) (token : cstring)
  : list bool :=
  match stoi (stripComma token) with
  | Some seatNum =>
      if (1 <=? seatNum) && (seatNum <=? 20)
      then <[Z.to_nat (seatNum - 1) := false]> seatStatus
      else seatStatus
  | None => seatStatus
  end.

(** The bitmap built from an available-seats line: 20 booked seats, then
    every seat named by a token made available. *)
Definition seatStatusOf (seatsLine : cstring) : list bool :=
  foldl markAvailable (replicate 20 true) (tokens seatsLine).

(** The locals of [parseAndUpdateShows] that live across lines.
    [currentShow] points into [shows_]; it is kept as an index. *)
Record Parser : Type := mkParser {
  shows_ : list Shows;
  currentTheater : cstring;
  currentShow : option nat
}.

(** [find(..) + 1] on a [size_t]: [npos + 1] wraps to 0. *)
Definition succ_pos (p : option nat) : nat :=
  match p with
  | Some n => S n
  | None => 0%nat
  end.

(** The body of the [while (std::getline(ss, line))] loop. *)
Definition parseLine (st : Parser) (line : cstring) : Parser :=
  if bool_decide (find THEATER_PREFIX line = Some 0%nat) then
    mkParser (shows_ st) (substr_from THEATER_PREFIX_LEN line) None
  else if bool_decide (find MOVIE_PREFIX line = Some 0%nat)
          && negb (bool_decide (currentTheater st = [])) then
    let movieLine := substr_from MOVIE_PREFIX_LEN line in
    match find (lit " (") movieLine with
    | Some datePos =>
        let movieName := substr 0 datePos movieLine in
        let startDate := succ_pos (find (lit "(") movieLine) in
        match find (lit ")") movieLine with
        | Some endDate =>
            if bool_decide (startDate < endDate)%nat then
              let dateTime :=
                substr startDate (endDate - startDate) movieLine in
              mkParser
                (shows_ st ++ [newShows movieName dateTime (currentTheater st)])
                (currentTheater st)
                (Some (length (shows_ st)))
            else st
        | None =>
            (* [endDate] is [npos]: greater than any position, and the
               substring runs to the end of the line *)
            let dateTime := substr_from startDate movieLine in
            mkParser
              (shows_ st ++ [newShows movieName dateTime (currentTheater st)])
              (currentTheater st)
              (Some (length (shows_ st)))
        end
    | None => st
    end
  else if bool_decide (find (lit "    Available seats:") line ≠ None) then
    match currentShow st with
    | Some i =>
        let seatsLine := substr_from (succ_pos (find (lit ":") line)) line in
        let seatsLine :=
          match find (lit "(Total:") seatsLine with
          | Some totalPos => substr 0 totalPos seatsLine
          | None => seatsLine
          end in
        mkParser
          (alter (updateSeatAvailability (seatStatusOf seatsLine)) i
                 (shows_ st))
          (currentTheater st)
          (currentShow st)
    | None => st
    end
  else st.

(** [CinemaClient::parseAndUpdateShows]: [shows_] is cleared first, so
    the result does not depend on the previous list. *)
Definition parseAndUpdateShows (response : cstring) : list Shows :=
  shows_ (foldl parseLine (mkParser [] [] None) (getlines newline response)).

End Client.

(** ** The catalog of server/main.cpp *)

Module Main.

Definition pattern1 : list bool :=
  [true; true; false; false; true;
   false; false; false; false; true;
   true; false; false; true; true;
   false; false; false; true; false].

Definition pattern2 : list bool :=
  [false; true; false; true; false;
   true; false; true; true; false;
   false; true; true; false; false;
   true; true; false; false; true].

Definition pattern3 : list bool :=
  [true; false; true; true; true;
   false; true; true; false; true;
   true; false; true; true; true;
   false; false; true; true; true].

Definition movieNames : list cstring :=
  [lit "Inception"; lit "Interstellar"; lit "Tenet"].
Definition theaterNames : list cstring :=
  [lit "PVR"; lit "IMAX"; lit "Cinepolis"].

(** The nested loop: [patternIndex] counts the shows made so far. *)
Definition shows : list Shows :=
  imap (fun patternIndex '(tName, mName) =>
          set_seats (newShows mName (lit "2025-09-11 19:30") tName)
                    (default [] ([pattern1; pattern2; pattern3]
                                   !! (patternIndex mod 3)%nat)))
       (tName ← theaterNames; mName ← movieNames; [(tName, mName)]).

End Main.

(** ** WebSocketSession and WebSocketServer (server/lib/websocket_server.cpp) *)

Module Hub.

(** A session object.  Besides the two data members that the write path
    uses, the record keeps what the asynchronous stream [ws_] has been
    asked to do and has done, and the history of [send_message] calls, so
    that ordering properties can be stated.

    [do_write] copies the front of the queue into its local [message]
    and gives [async_write] the buffer [net::buffer(message)], which
    does not own the bytes; the local is destroyed when [do_write]
    returns, while the write is outstanding.  So the record keeps apart
    the message for which a write was started and the bytes that the
    stream took from the buffer: the first is known when the write
    starts, the second comes with the completion of the write. *)
Record Session : Type := mkSession {
  message_queue_ : list cstring;
  writing_ : bool;
  accept_pending : bool;          (* [async_accept] started, not completed *)
  read_pending : bool;            (* [async_read] started, not completed *)
  write_pending : list cstring;   (* [async_write]s started, not completed:
                                     the message each was started for *)
  completed : list (cstring * cstring);
                                  (* writes completed without error: the
                                     message, and the bytes written *)
  lost : list cstring;            (* messages whose write completed with
                                     an error *)
  enqueued : list cstring         (* every message given to [send_message] *)
}.

(** The messages whose write has completed without error, and what
    those writes have put on the wire. *)
Definition written (s : Session) : list cstring := (completed s).*1.
Definition delivered (s : Session) : list cstring := (completed s).*2.

(** [WebSocketSession::WebSocketSession]. *)
Definition newSession : Session :=
  mkSession [] false false false [] [] [] [].

(** [WebSocketSession::do_write]: the write is started for the message
    at the front of the queue. *)
Definition do_write (s : Session) : Session :=
  match message_queue_ s with
  | [] =>
      mkSession [] false (accept_pending s) (read_pending s)
                (write_pending s) (completed s) (lost s) (enqueued s)
  | msg :: queue =>
      mkSession queue true (accept_pending s) (read_pending s)
                (write_pending s ++ [msg]) (completed s) (lost s)
                (enqueued s)
  end.

(** [WebSocketSession::send_message]. *)
Definition send_message (msg : cstring) (s : Session) : Session :=
  let s' :=
    mkSession (message_queue_ s ++ [msg]) (writing_ s) (accept_pending s)
              (read_pending s) (write_pending s) (completed s) (lost s)
              (enqueued s ++ [msg]) in
  if writing_ s' then s' else do_write s'.

(** [WebSocketSession::do_read]. *)
Definition do_read (s : Session) : Session :=
  mkSession (message_queue_ s) (writing_ s) (accept_pending s) true
            (write_pending s) (completed s) (lost s) (enqueued s).

Definition async_accept (s : Session) : Session :=
  mkSession (message_queue_ s) (writing_ s) true (read_pending s)
            (write_pending s) (completed s) (lost s) (enqueued s).

Definition accept_completed (s : Session) : Session :=
  mkSession (message_queue_ s) (writing_ s) false (read_pending s)
            (write_pending s) (completed s) (lost s) (enqueued s).

Definition read_completed (s : Session) : Session :=
  mkSession (message_queue_ s) (writing_ s) (accept_pending s) false
            (write_pending s) (completed s) (lost s) (enqueued s).

(** Completion of the oldest outstanding write, with or without error;
    [wire] is what the stream took from the buffer it was given. *)
Definition write_completed (ec : bool) (wire : cstring) (s : Session)
  : Session :=
  match write_pending s with
  | [] => s
  | msg :: rest =>
      mkSession (message_queue_ s) (writing_ s) (accept_pending s)
                (read_pending s) rest
                (if ec then completed s else completed s ++ [(msg, wire)])
                (if ec then lost s ++ [msg] else lost s)
                (enqueued s)
  end.

(** What holds of every session object at every moment: at most one
    write is outstanding; the messages written, lost to a write error,
    being written and queued are, in this order, the messages enqueued;
    a session that is not writing has nothing queued or outstanding; and
    after a write error nothing more is written. *)
Definition session_ok (s : Session) : Prop :=
  (length (write_pending s) <= 1)%nat
  /\ written s ++ lost s ++ write_pending s ++ message_queue_ s
     = enqueued s
  /\ (writing_ s = false -> write_pending s = [] /\ message_queue_ s = [])
  /\ (lost s <> [] -> write_pending s = [] /\ writing_ s = true).

Section Server.

(** The state captured by the three callbacks given to the server, and
    the callbacks themselves. *)
Context {App : Type}.
Variable messageCallback : cstring -> App -> cstring * bool * App.
Variable initialDataCallback : App -> cstring.
Variable broadcastDataCallback : App -> cstring.

(** [sessions_] holds shared pointers; a pointer is represented by the
    address of the session object, and [heap] maps the addresses of the
    live objects to their contents. *)
Record Server : Type := mkServer {
  sessions_ : gset nat;
  heap : gmap nat Session;
  app : App
}.

Definition initialServer (a : App) : Server := mkServer ∅ ∅ a.

(** [WebSocketServer::addSession], [removeSession]. *)
Definition addSession (id : nat) (srv : Server) : Server :=
  mkServer ({[id]} ∪ sessions_ srv) (heap srv) (app srv).

Definition removeSession (id : nat) (srv : Server) : Server :=
  mkServer (sessions_ srv ∖ {[id]}) (heap srv) (app srv).

(** A member function run on the session at address [id]. *)
Definition onSession (id : nat) (f : Session -> Session) (srv : Server)
  : Server :=
  mkServer (sessions_ srv) (alter f id (heap srv)) (app srv).

(** [WebSocketServer::broadcastUpdate]: [sendBroadcastMessage] on
    every member of [sessions_]; a call touches only its own session. *)
Definition broadcastUpdate (srv : Server) : Server :=
  let updateMessage := broadcastDataCallback (app srv) in
  mkServer (sessions_ srv)
           (map_imap (fun id s =>
                        Some (if bool_decide (id ∈ sessions_ srv)
                              then send_message updateMessage s
                              else s))
                     (heap srv))
           (app srv).

(** [WebSocketSession::run]: registration, then the handshake starts. *)
Definition run (id : nat) (srv : Server) : Server :=
  onSession id async_accept (addSession id srv).

(** [WebSocketSession::on_accept]. *)
Definition on_accept (id : nat) (ec : bool) (srv : Server) : Server :=
  if ec then removeSession id srv
  else onSession id do_read
         (onSession id (send_message (initialDataCallback (app srv))) srv).

(** [WebSocketSession::on_write]. *)
Definition on_write (id : nat) (ec : bool) (srv : Server) : Server :=
  if ec then removeSession id srv
  else onSession id do_write srv.

(** [WebSocketSession::on_read]; both error branches do the same. *)
Definition on_read (id : nat) (ec : bool) (received : cstring)
    (srv : Server) : Server :=
  if ec then removeSession id srv
  else
    let '(response, shouldBroadcast, app') :=
      messageCallback received (app srv) in
    let srv1 := mkServer (sessions_ srv) (heap srv) app' in
    let srv2 := onSession id (send_message response) srv1 in
    let srv3 := if shouldBroadcast then broadcastUpdate srv2 else srv2 in
    onSession id do_read srv3.

(** What the reactor can run next: the completion handler of an
    operation that is outstanding.  A read completes with the message
    received, a write with the bytes that the stream took from its
    buffer. *)
Inductive Event : Type :=
| Accepted (id : nat)
| HandshakeDone (id : nat) (ec : bool)
| ReadDone (id : nat) (ec : bool) (received : cstring)
| WriteDone (id : nat) (ec : bool) (wire : cstring).

(** One handler run to completion; [None] when the event cannot occur
    in this state. *)
Definition step (srv : Server) (e : Event) : option Server :=
  match e with
  | Accepted id =>
      (* [WebSocketServer::on_accept]: a new session object, then [run] *)
      match heap srv !! id with
      | None =>
          Some (run id (mkServer (sessions_ srv)
                                 (<[id := newSession]> (heap srv))
                                 (app srv)))
      | Some _ => None
      end
  | HandshakeDone id ec =>
      match heap srv !! id with
      | Some s =>
          if accept_pending s
          then Some (on_accept id ec (onSession id accept_completed srv))
          else None
      | None => None
      end
  | ReadDone id ec received =>
      match heap srv !! id with
      | Some s =>
          if read_pending s
          then Some (on_read id ec received
                       (onSession id read_completed srv))
          else None
      | None => None
      end
  | WriteDone id ec wire =>
      match heap srv !! id with
      | Some s =>
          match write_pending s with
          | _ :: _ =>
              Some (on_write id ec
                      (onSession id (write_completed ec wire) srv))
          | [] => None
          end
      | None => None
      end
  end.

(** The states the server goes through from start-up. *)
Inductive Reachable (a : App) : Server -> Prop :=
| reach_init : Reachable a (initialServer a)
| reach_step srv e srv' :
    Reachable a srv -> step srv e = Some srv' -> Reachable a srv'.

(** Running a list of events from a state. *)
Fixpoint steps (srv : Server) (es : list Event) : option Server :=
  match es with
  | [] => Some srv
  | e :: es' =>
      match step srv e with
      | Some srv' => steps srv' es'
      | None => None
      end
  end.

(** Every session object satisfies [session_ok]. *)
Definition heap_ok (srv : Server) : Prop :=
  forall id s, heap srv !! id = Some s -> session_ok s.

(** C8 as the specification words it: a registered session has
    completed its handshake. *)
Definition registeredAfterHandshake (a : App) : Prop :=
  forall (srv : Server) id s,
    Reachable a srv -> heap srv !! id = Some s ->
    id ∈ sessions_ srv -> accept_pending s = false.


End Server.

(** The server of [server/main.cpp]: the callbacks capture the catalog. *)
Definition cinemaStep :=
  step (App := list Shows) handleMessage formatCinemaData formatUpdateData.
Definition cinemaSteps :=
  steps (App := list Shows) handleMessage formatCinemaData formatUpdateData.
Definition cinemaReachable :=
  Reachable (App := list Shows) handleMessage formatCinemaData
            formatUpdateData.

(** A run of the cinema server: a client connects and completes the
    handshake, a second client connects, and the first books two seats
    while the second is still in its handshake. *)
Definition demoEvents : list (Event) :=
  [Accepted 0; HandshakeDone 0 false; Accepted 1;
   ReadDone 0 false (lit "PVR,Inception,3,4")].

(** The state that run leaves, and a session of it. *)
Definition demoServer : Server (App := list Shows) :=
  default (initialServer Main.shows)
          (cinemaSteps (initialServer Main.shows) demoEvents).

Definition demoSession (id : nat) : Session :=
  default newSession (heap demoServer !! id).

(** The cinema server after its first connection, before the handshake
    of that connection has completed. *)
Definition afterConnect : Server (App := list Shows) :=
  default (initialServer Main.shows)
          (cinemaStep (initialServer Main.shows) (Accepted 0)).

(** What the storage of a message can hold once the local of [do_write]
    has been destroyed: here the message with its first sixteen bytes
    overwritten. *)
Definition staleBytes (msg : cstring) : cstring :=
  replicate 16 "000"%char ++ drop 16 msg.



End Hub.

(** ** Two concurrent calls of [Shows::bookSeats] on one show *)

Module Concurrent.

(** Where a call is in the body of [bookSeats]. *)
Inductive Pc : Type :=
| NotStarted                      (* before the [unique_lock] is taken *)
| Checking (todo : list Z)        (* in the first loop, lock held *)
| Writing (todo : list Z)         (* in the second loop, lock held *)
| Returned (result : bool).       (* after [return]; the lock is released *)

(** The two callers. *)
Inductive Tid : Type := T1 | T2.

#[global] Instance Tid_eq_dec : EqDecision Tid.
Proof. solve_decision. Defined.

Definition other (t : Tid) : Tid :=
  match t with T1 => T2 | T2 => T1 end.

(** The shared show and the two calls.  [acquired] records the order
    in which the callers took the mutex. *)
Record Conf : Type := mkConf {
  ledger : list bool;
  holder : option Tid;
  pc1 : Pc;
  pc2 : Pc;
  acquired : list Tid
}.

Definition pc_of (t : Tid) (c : Conf) : Pc :=
  match t with T1 => pc1 c | T2 => pc2 c end.

Definition set_pc (t : Tid) (p : Pc) (c : Conf) : Conf :=
  match t with
  | T1 => mkConf (ledger c) (holder c) p (pc2 c) (acquired c)
  | T2 => mkConf (ledger c) (holder c) (pc1 c) p (acquired c)
  end.

Definition initial (seats0 : list bool) : Conf :=
  mkConf seats0 None NotStarted NotStarted [].

(** The two requests name a common seat. *)
Definition overlapping (a b : list Z) : Prop :=
  exists seat, seat ∈ a /\ seat ∈ b.

(** The two calls run one after the other, in the given order: the
    results of [T1] and [T2] and the final bitmap. *)
Definition serial (seatNumbers : Tid -> list Z) (first : Tid)
    (seats0 : list bool) : bool * bool * list bool :=
  let '(r, s) := bookSeatsOn (seatNumbers first) seats0 in
  let '(r', s') := bookSeatsOn (seatNumbers (other first)) s in
  match first with
  | T1 => (r, r', s')
  | T2 => (r', r, s')
  end.

(** The caller is inside the locked region. *)
Definition holds (p : Pc) : bool :=
  match p with
  | Checking _ | Writing _ => true
  | NotStarted | Returned _ => false
  end.

(** The caller has taken the mutex, now or before. *)
Definition started (p : Pc) : bool :=
  match p with
  | NotStarted => false
  | _ => true
  end.

(** A call with argument [req] that took the mutex when the bitmap was
    [s0] is at [p] with the bitmap now [s]. *)
Definition stage (req : list Z) (s0 : list bool) (p : Pc) (s : list bool)
  : Prop :=
  match p with
  | NotStarted => s = s0
  | Checking todo =>
      s = s0
      /\ exists checked, req = checked ++ todo
           /\ existsb (seatRejected s0) checked = false
  | Writing todo =>
      existsb (seatRejected s0) req = false
      /\ exists written, req = written ++ todo
           /\ s = foldl markBooked s0 written
  | Returned r => bookSeatsOn req s0 = (r, s)
  end.

(** Statements left to run, at most. *)
Definition remaining (req : list Z) (p : Pc) : nat :=
  match p with
  | NotStarted => 2 * length req + 3
  | Checking todo => length todo + length req + 2
  | Writing todo => length todo + 1
  | Returned _ => 0
  end.

Section Calls.

(** The argument of each call. *)
Variable seatNumbers : Tid -> list Z.

(** The bitmap of the show before the two calls. *)
Variable seats0 : list bool.

(** One statement of caller [t]; [None] when [t] cannot move (it waits
    for the mutex, or it has returned). *)
Definition thread_step (t : Tid) (c : Conf) : option Conf :=
  match pc_of t c with
  | NotStarted =>
      match holder c with
      | None =>
          Some (set_pc t (Checking (seatNumbers t))
                  (mkConf (ledger c) (Some t) (pc1 c) (pc2 c)
                          (acquired c ++ [t])))
      | Some _ => None
      end
  | Checking [] =>
      Some (set_pc t (Writing (seatNumbers t)) c)
  | Checking (seat :: todo) =>
      if seatRejected (ledger c) seat
      then Some (set_pc t (Returned false)
                   (mkConf (ledger c) None (pc1 c) (pc2 c) (acquired c)))
      else Some (set_pc t (Checking todo) c)
  | Writing [] =>
      Some (set_pc t (Returned true)
              (mkConf (ledger c) None (pc1 c) (pc2 c) (acquired c)))
  | Writing (seat :: todo) =>
      Some (set_pc t (Writing todo)
              (mkConf (markBooked (ledger c) seat) (holder c) (pc1 c)
                      (pc2 c) (acquired c)))
  | Returned _ => None
  end.

(** Any interleaving of the two callers' statements. *)
Inductive Run : Conf -> Conf -> Prop :=
| run_refl c : Run c c
| run_step c t c' c'' :
    Run c c' -> thread_step t c' = Some c'' -> Run c c''.

(** A schedule names the caller that moves at each step. *)
Fixpoint exec (schedule : list Tid) (c : Conf) : option Conf :=
  match schedule with
  | [] => Some c
  | t :: rest =>
      match thread_step t c with
      | Some c' => exec rest c'
      | None => None
      end
  end.

(** One caller, [first], runs from the initial bitmap; the other runs
    from the bitmap that [first] leaves, and has not started unless
    [first] has returned. *)
Definition serialized (c : Conf) : Prop :=
  exists first s1,
    stage (seatNumbers first) seats0 (pc_of first c) s1
    /\ stage (seatNumbers (other first)) s1 (pc_of (other first) c)
             (ledger c)
    /\ (started (pc_of (other first) c) = true ->
        exists r, pc_of first c = Returned r)
    /\ holder c =
       (if holds (pc_of first c) then Some first
        else if holds (pc_of (other first) c) then Some (other first)
             else None)
    /\ acquired c =
       (if started (pc_of first c) then [first] else [])
         ++ (if started (pc_of (other first) c) then [other first]
             else []).

(** Statements left to the two calls together, at most. *)
Definition total_remaining (c : Conf) : nat :=
  remaining (seatNumbers T1) (pc1 c) + remaining (seatNumbers T2) (pc2 c).

(** C9 as the specification words it: of two calls with a common seat
    exactly one succeeds. *)
Definition exactlyOneSucceeds : Prop :=
  overlapping (seatNumbers T1) (seatNumbers T2) ->
  forall c r1 r2,
    Run (initial seats0) c ->
    pc1 c = Returned r1 -> pc2 c = Returned r2 ->
    (r1 = true /\ r2 = false) \/ (r1 = false /\ r2 = true).

End Calls.

(** Two callers ask for seat 1 of a show on which seat 1 is already
    booked. *)
Definition bothAskSeat1 (t : Tid) : list Z := [1].

(** Two callers ask for seats 1, 2, 3 and for seats 3, 4, 5 of an empty
    show. *)
Definition askAdjacent (t : Tid) : list Z :=
  match t with
  | T1 => [1; 2; 3]
  | T2 => [3; 4; 5]
  end.

(** The second caller takes the mutex first and runs to its return; the
    first caller, which cannot move in between, runs after it. *)
Definition secondWins : list Tid :=
  [T2; T2; T2; T2; T2; T2; T2; T2; T2; T1; T1; T1; T1].

(** The state that schedule leaves. *)
Definition afterSecondWins : Conf :=
  default (initial (replicate 20 false))
          (exec askAdjacent secondWins (initial (replicate 20 false))).

End Concurrent.

(** ** Operations on a client-side [Shows] value *)

Inductive ShowsOp : Type :=
| OpGetAvailableSeats
| OpBookSeats (seatNumbers : list Z)
| OpUpdateSeatAvailability (seatStatus : list bool).

(** The client header declares [bookSeats] with the contract of the
    server's member function, whose definition is used for it. *)
Definition applyOp (sh : Shows) (op : ShowsOp) : Shows :=
  match op with
  | OpGetAvailableSeats => sh
  | OpBookSeats seatNumbers => snd (bookSeats seatNumbers sh)
  | OpUpdateSeatAvailability seatStatus =>
      Client.updateSeatAvailability seatStatus sh
  end.

(** ** CinemaClient (client/lib/websocket_client.cpp) *)

Module CinemaClient.

Definition BOOKING_UPDATE : cstring := lit "BOOKING_UPDATE:".

(** [response.find(needle) != std::string::npos]. *)
Definition contains (needle response : cstring) : bool :=
  bool_decide (find needle response ≠ None).

(** The data members that the listener thread writes, and what it has
    written to [std::cout]. *)
Record State : Type := mkState {
  lastResponse_ : cstring;
  lastBookingResponse_ : cstring;
  shows_ : list Shows;
  console : cstring
}.

(** [CinemaClient::parseAndUpdateShows] as a member function: [shows_]
    is replaced by the parsed list. *)
Definition parseAndUpdateShows (response : cstring) (st : State) : State :=
  mkState (lastResponse_ st) (lastBookingResponse_ st)
          (Client.parseAndUpdateShows response) (console st).

(** [CinemaClient::handleBookingUpdate]. *)
Definition handleBookingUpdate (response : cstring) (st : State) : State :=
  mkState response (lastBookingResponse_ st) (shows_ st) (console st).

(** [CinemaClient::handleServerMessage]. *)
Definition handleServerMessage (response : cstring) (st : State) : State :=
  mkState (lastResponse_ st) (lastBookingResponse_ st) (shows_ st)
          (console st ++ newline :: lit "Server Update:" ++ newline :: response
             ++ [newline]).

(** [CinemaClient::processMessage]. *)
Definition processMessage (response : cstring) (st : State) : State :=
  if contains (lit "SUCCESS:") response || contains (lit "ERROR:") response
  then
    let st1 :=
      mkState (lastResponse_ st) response (shows_ st) (console st) in
    if Client.isCinemaDataStream response
    then parseAndUpdateShows response st1
    else st1
  else if Client.isCinemaDataStream response
  then
    let st1 := parseAndUpdateShows response st in
    if contains BOOKING_UPDATE response
    then handleBookingUpdate response st1
    else st1
  else handleServerMessage response st.

(** One turn of the loop of [startMessageListener] in which [ws_.read]
    returns a message: [lastResponse_] is set, then the message is
    processed. *)
Definition received (response : cstring) (st : State) : State :=
  processMessage response
    (mkState response (lastBookingResponse_ st) (shows_ st) (console st)).

(** [CinemaClient::getShows]. *)
Definition getShows (st : State) : list Shows := shows_ st.

End CinemaClient.

(** ** The client's main loop (client/main.cpp) *)

Module ClientMain.

(** The value that [main] gives to [success] from the response to a
    booking, and passes to [showBookingResult]. *)
Definition success (serverResponse : cstring) : bool :=
  if CinemaClient.contains (lit "SUCCESS:") serverResponse then true
  else if CinemaClient.contains (lit "ERROR:") serverResponse then false
  else false.

End ClientMain.

(** ** CinemaUI (client/lib/CinemaUI.cpp) *)

(** What a function reads from [std::cin] is an argument of its model:
    the number that [getIntInput] returns, the line that [std::getline]
    reads, the character that [std::cin >> confirm] reads.  What is
    written to [std::cout] is left out. *)

Module CinemaUI.

Definition MAX_SEAT_NUMBER : Z := 20.
Definition MIN_SEAT_NUMBER : Z := 1.

(** [CinemaUI::selectTheater]; [choice] is the number entered.  The
    theaters are collected by the loop that [formatCinemaData] uses. *)
Definition selectTheater (choice : Z) (shows : list Shows) : cstring :=
  let theaters := theatersInOrder shows in
  if choice =? 0 then []
  else if (1 <=? choice) && (choice <=? Z.of_nat (length theaters))
  then default [] (theaters !! Z.to_nat (choice - 1))
  else [].

(** [CinemaUI::selectShow]; a cancelled selection is [Shows("", "", "")]. *)
Definition selectShow (choice : Z) (theaterName : cstring)
    (shows : list Shows) : Shows :=
  let theaterShows := filter (fun show => theater show = theaterName) shows in
  if choice =? 0 then newShows [] [] []
  else if (1 <=? choice) && (choice <=? Z.of_nat (length theaterShows))
  then default (newShows [] [] []) (theaterShows !! Z.to_nat (choice - 1))
  else newShows [] [] [].

(** The token loop of [selectSeats]: [None] when the loop returns the
    empty selection, on a token that [std::stoi] rejects or on a number
    outside 1..20. *)
Fixpoint parseSeatTokens (seats : list Z) (toks : list cstring)
  : option (list Z) :=
  match toks with
  | [] => Some seats
  | seatStr :: rest =>
      match stoi seatStr with
      | Some seat =>
          if (MIN_SEAT_NUMBER <=? seat) && (seat <=? MAX_SEAT_NUMBER)
          then parseSeatTokens (seats ++ [to_uint8 seat]) rest
          else None
      | None => None
      end
  end.

(** [CinemaUI::selectSeats]; [input] is the line entered. *)
Definition selectSeats (input : cstring) (selectedShow : Shows) : list Z :=
  if bool_decide (input = []) || bool_decide (input = lit "0") then []
  else
    let normalizedInput :=
      map (fun c => if Ascii.eqb c comma then " "%char else c) input in
    match parseSeatTokens [] (tokens normalizedInput) with
    | None => []
    | Some seats =>
        if bool_decide (seats = []) then []
        else
          let availableSeats := getAvailableSeats selectedShow in
          if forallb (fun seat => bool_decide (seat ∈ availableSeats)) seats
          then seats
          else []
    end.

(** [CinemaUI::confirmBooking]; [confirm] is the character entered. *)
Definition confirmBooking (confirm : ascii) : bool :=
  Ascii.eqb confirm "y" || Ascii.eqb confirm "Y".

(** What the user enters during [performBooking]. *)
Record Answers : Type := mkAnswers {
  theaterChoice : Z;
  showChoice : Z;
  seatInput : cstring;
  confirm : ascii
}.

(** The request built at the end of [performBooking]. *)
Definition booking (selectedShow : Shows) (selectedSeats : list Z)
  : cstring :=
  theater selectedShow ++ lit "," ++ movie selectedShow
    ++ flat_map (fun seat => lit "," ++ to_string seat) selectedSeats.

(** [CinemaUI::performBooking]: the request to send, or the empty
    string when the booking is cancelled. *)
Definition performBooking (answers : Answers) (shows : list Shows)
  : cstring :=
  if bool_decide (shows = []) then []
  else
    let selectedTheater := selectTheater (theaterChoice answers) shows in
    if bool_decide (selectedTheater = []) then []
    else
      let selectedShow :=
        selectShow (showChoice answers) selectedTheater shows in
      if bool_decide (theater selectedShow = []) then []
      else
        let selectedSeats := selectSeats (seatInput answers) selectedShow in
        if bool_decide (selectedSeats = []) then []
        else if negb (confirmBooking (confirm answers)) then []
        else booking selectedShow selectedSeats.

End CinemaUI.

(** * The vocabulary of the specification *)

(** ** Booking requests *)

(** A field that the seat loop accepts: [std::stoi] returns a value in
    1..20. *)
Definition seatField (field : cstring) (seatNum : Z) : Prop :=
  stoi field = Some seatNum /\ 1 <= seatNum <= 20.

(** A field on which the seat loop returns an error. *)
Definition badSeatField (field : cstring) : Prop :=
  match stoi field with
  | Some seatNum => ~ (1 <= seatNum <= 20)
  | None => True
  end.

(** The responses of [processBooking] on its error paths. *)
Definition formatError (shows : list Shows) : BookingResult :=
  mkBookingResult false
    (lit "ERROR: Invalid booking format. Use: theater,movie,seat1,seat2,..."
       ++ blank_line ++ formatCinemaData shows)
    false.

Definition rangeError (field : cstring) (shows : list Shows)
  : BookingResult :=
  mkBookingResult false
    (lit "ERROR: Invalid seat number " ++ field ++ lit ". Must be 1-20."
       ++ blank_line ++ formatCinemaData shows)
    false.

Definition seatFormatError (field : cstring) (shows : list Shows)
  : BookingResult :=
  mkBookingResult false
    (lit "ERROR: Invalid seat number format: " ++ field ++ blank_line
       ++ formatCinemaData shows)
    false.

Definition notFoundError (theaterName movieName : cstring)
    (shows : list Shows) : BookingResult :=
  mkBookingResult false
    (lit "ERROR: Show not found - " ++ movieName ++ lit " at " ++ theaterName
       ++ blank_line ++ formatCinemaData shows)
    false.

Definition reservationError (shows : list Shows) : BookingResult :=
  mkBookingResult false
    (lit "ERROR: One or more seats are already booked or invalid"
       ++ blank_line ++ formatCinemaData shows)
    false.

(** The response to a successful booking, listing [listed]. *)
Definition successResponse (listed : list Z) (movieName theaterName : cstring)
    (shows' : list Shows) : BookingResult :=
  mkBookingResult true
    (lit "SUCCESS: Booked seats " ++ seatList listed ++ lit " for "
       ++ movieName ++ lit " at " ++ theaterName ++ blank_line
       ++ formatCinemaData shows')
    true.

(** The paths through [processBooking]. *)
Inductive BookingPath (msg : cstring) (shows : list Shows)
  : BookingResult -> list Shows -> Prop :=
| path_too_few :
    (length (getlines comma msg) < 3)%nat ->
    BookingPath msg shows (formatError shows) shows
| path_bad_seat t m good seatNums field rest :
    getlines comma msg = t :: m :: good ++ field :: rest ->
    Forall2 seatField good seatNums -> badSeatField field ->
    BookingPath msg shows
      (match stoi field with
       | Some _ => rangeError field shows
       | None => seatFormatError field shows
       end) shows
| path_not_found t m fields seatNums :
    getlines comma msg = t :: m :: fields -> fields <> [] ->
    Forall2 seatField fields seatNums ->
    Forall (fun s => ~ (theater s = t /\ movie s = m)) shows ->
    BookingPath msg shows (notFoundError t m shows) shows
| path_reserved t m fields seatNums before sh after :
    getlines comma msg = t :: m :: fields -> fields <> [] ->
    Forall2 seatField fields seatNums ->
    shows = before ++ sh :: after ->
    Forall (fun s => ~ (theater s = t /\ movie s = m)) before ->
    theater sh = t -> movie sh = m ->
    BookingPath msg shows
      (if (bookSeats seatNums sh).1
       then successResponse seatNums m t
              (before ++ (bookSeats seatNums sh).2 :: after)
       else reservationError shows)
      (before ++ (bookSeats seatNums sh).2 :: after).

(** The seat numbers of a request in ascending order. *)
Definition ascending (l : list Z) : list Z := merge_sort Z.le l.

(** A request that parses, matches a show and is accepted by
    [bookSeats]: the fields, their seat numbers, and the show booked. *)
Definition acceptedRequest (msg : cstring) (shows : list Shows)
    (t m : cstring) (seatNums : list Z) (before : list Shows) (sh : Shows)
    (after : list Shows) : Prop :=
  exists fields,
    getlines comma msg = t :: m :: fields /\ fields <> []
    /\ Forall2 seatField fields seatNums
    /\ shows = before ++ sh :: after
    /\ Forall (fun s => ~ (theater s = t /\ movie s = m)) before
    /\ theater sh = t /\ movie sh = m
    /\ (bookSeats seatNums sh).1 = true.

(** C4 as the specification words it: the booked seats are listed in
    ascending order. *)
Definition successListsAscending (msg : cstring) (shows : list Shows)
  : Prop :=
  forall t m seatNums before sh after,
    acceptedRequest msg shows t m seatNums before sh after ->
    (processBooking msg shows).1 =
    successResponse (ascending seatNums) m t (processBooking msg shows).2.

(** ** Snapshots *)

(** The lines of a snapshot. *)
Definition movieLine (show : Shows) : cstring :=
  lit "  Movie: " ++ movie show ++ lit " (" ++ dateTime show ++ lit ")".

(** The seat list of an available-seats line. *)
Definition seatsText (availableSeats : list Z) : cstring :=
  match availableSeats with
  | [] => lit "SOLD OUT"
  | _ => seatList availableSeats
  end.

Definition seatsLine (show : Shows) : cstring :=
  lit "    Available seats: " ++ seatsText (getAvailableSeats show)
    ++ lit " (Total: "
    ++ to_string (Z.of_nat (length (getAvailableSeats show)))
    ++ lit "/20)".

Definition showLines (theaterName : cstring) (show : Shows) : list cstring :=
  if bool_decide (theater show = theaterName)
  then [movieLine show; seatsLine show]
  else [].

Definition theaterLines (shows : list Shows) (theaterName : cstring)
  : list cstring :=
  (lit "Theater: " ++ theaterName)
    :: flat_map (showLines theaterName) shows ++ [[]].

Definition snapshotLines (shows : list Shows) : list cstring :=
  CINEMA_DATA_HEADER
    :: flat_map (theaterLines shows) (theatersInOrder shows)
    ++ [CINEMA_DATA_FOOTER].

(** Every line followed by a line break. *)
Definition unlines (lines : list cstring) : cstring :=
  flat_map (fun line => line ++ [newline]) lines.

(** [c] is a decimal digit. *)
Definition isdigit (c : ascii) : bool :=
  match digit_of c with
  | Some _ => true
  | None => false
  end.

(** The bytes of the seat list: digits, commas and spaces. *)
Definition seatByte (c : ascii) : bool :=
  isdigit c || Ascii.eqb c comma || Ascii.eqb c " ".

(** The properties of the decimal form of a seat number that the parser
    relies on, checked on each of 0..20. *)
Definition decimal_ok (x : Z) : bool :=
  bool_decide (stoi (to_string x) = Some x)
  && forallb isdigit (to_string x)
  && negb (bool_decide (to_string x = []))
  && bool_decide (Client.stripComma (to_string x) = to_string x)
  && bool_decide (Client.stripComma (to_string x ++ [comma]) = to_string x).

(** What the parser's token loop does for one seat number. *)
Definition makeAvailable (seatStatus : list bool) (seatNum : Z) : list bool :=
  <[Z.to_nat (seatNum - 1) := false]> seatStatus.

(** A show that the text format can carry: the names hold no line break,
    the theater name and the date are not empty, the title holds no
    parenthesis, the date holds no closing parenthesis, and there are 20
    seats. *)
Definition wellFormed (sh : Shows) : Prop :=
  theater sh <> [] /\ (newline ∉ theater sh)
  /\ (newline ∉ movie sh) /\ ("("%char ∉ movie sh)
  /\ (")"%char ∉ movie sh)
  /\ dateTime sh <> [] /\ (newline ∉ dateTime sh)
  /\ (")"%char ∉ dateTime sh)
  /\ length (seats sh) = 20%nat.

#[global] Instance wellFormed_dec (sh : Shows) : Decision (wellFormed sh).
Proof. unfold wellFormed. apply _. Defined.

(** The catalog regrouped as the snapshot lists it: theaters in
    first-seen order, the shows of a theater in catalog order. *)
Definition groupedByTheater (shows : list Shows) : list Shows :=
  flat_map (fun theaterName =>
              filter (fun show => theater show = theaterName) shows)
           (theatersInOrder shows).

(** Two shows have the same set of available seat numbers. *)
Definition sameAvailability (a b : Shows) : Prop :=
  forall seat, seat ∈ getAvailableSeats a <-> seat ∈ getAvailableSeats b.

(** C3 as the specification words it: the parsed list has one entry for
    each input show, in the order of the input, with the same available
    seats. *)
Definition roundTripInOrder (shows : list Shows) : Prop :=
  Forall2 sameAvailability shows
          (Client.parseAndUpdateShows (formatCinemaData shows)).

(** A catalog in which the shows of one theater are not adjacent. *)
Definition interleavedShows : list Shows :=
  [set_seats (newShows (lit "Inception") (lit "2025-09-11 19:30") (lit "PVR"))
             Main.pattern1;
   set_seats (newShows (lit "Inception") (lit "2025-09-11 19:30") (lit "IMAX"))
             Main.pattern2;
   set_seats (newShows (lit "Tenet") (lit "2025-09-11 19:30") (lit "PVR"))
             Main.pattern3].

(** A catalog whose only show has an empty date string. *)
Definition undatedShows : list Shows :=
  [set_seats (newShows (lit "Inception") [] (lit "PVR")) Main.pattern1].

(** A catalog whose only show plays in a theater without a name. *)
Definition unnamedTheaterShows : list Shows :=
  [set_seats (newShows (lit "Inception") (lit "2025-09-11 19:30") [])
             Main.pattern1].

(** A catalog whose only show has a closing parenthesis in its title. *)
Definition smileyShows : list Shows :=
  [set_seats (newShows (lit "Smile :)") (lit "2025-09-11 19:30") (lit "PVR"))
             Main.pattern1].

(** C2 as the specification words it: the parser reads the catalog, as
    the call leaves it, off the response of [processBooking]: one entry
    for each show, in the order of the snapshot, with the same available
    seats. *)
Definition responseParses (msg : cstring) (shows : list Shows) : Prop :=
  Forall2 sameAvailability
          (groupedByTheater (processBooking msg shows).2)
          (Client.parseAndUpdateShows
             (message (processBooking msg shows).1)).

(** A request whose theater field runs over three lines, the last two
    being a theater heading and a movie line. *)
Definition threeLineRequest : cstring :=
  lit "PVR" ++ [newline] ++ lit "Theater: Nowhere" ++ [newline]
    ++ lit "  Movie: Ghost (never)" ++ lit ",Inception,3".

(** ** Catalogs over time *)

(** [b] is [a] after some seats have been sold: the same title, date
    and theater, as many seats, and every seat booked in [a] booked in
    [b]. *)
Definition soldFrom (a b : Shows) : Prop :=
  movie b = movie a /\ dateTime b = dateTime a /\ theater b = theater a
  /\ Forall2 (fun was now => was = true -> now = true) (seats a) (seats b).

#[global] Instance soldFrom_dec (a b : Shows) : Decision (soldFrom a b).
Proof. unfold soldFrom. apply _. Defined.

(** The catalog never comes back to a theater that it has left: a show
    plays in a theater that no earlier show plays in, or in the theater
    collected last. *)
Fixpoint blocksFrom (theaters : list cstring) (shows : list Shows) : bool :=
  match shows with
  | [] => true
  | show :: rest =>
      if bool_decide (theater show ∈ theaters)
      then bool_decide (last theaters = Some (theater show))
           && blocksFrom theaters rest
      else blocksFrom (theaters ++ [theater show]) rest
  end.

Definition listedByTheater (shows : list Shows) : Prop :=
  blocksFrom [] shows = true.

(** ** Properties kept by every session *)

(** [I] holds of a new session and is kept by every member function
    that the handlers run on a session, when the messages sent satisfy
    [Q]. *)
Record SessionInvariant (I : Hub.Session -> Prop) (Q : cstring -> Prop)
  : Prop := mkSessionInvariant {
  inv_new : I Hub.newSession;
  inv_async_accept s : I s -> I (Hub.async_accept s);
  inv_accept_completed s : I s -> I (Hub.accept_completed s);
  inv_do_read s : I s -> I (Hub.do_read s);
  inv_read_completed s : I s -> I (Hub.read_completed s);
  inv_send_message msg s : Q msg -> I s -> I (Hub.send_message msg s);
  inv_write_failed wire s : I s -> I (Hub.write_completed true wire s);
  inv_write_done wire s :
    I s -> Hub.write_pending s <> [] ->
    I (Hub.do_write (Hub.write_completed false wire s))
}.

(** A session that is writing, and has lost no message, has a write
    outstanding. *)
Definition session_live (s : Hub.Session) : Prop :=
  Hub.writing_ s = true -> Hub.lost s = [] -> Hub.write_pending s <> [].

(** Every message given to [send_message] on the session satisfies [Q]. *)
Definition sent_all (Q : cstring -> Prop) (s : Hub.Session) : Prop :=
  Forall Q (Hub.enqueued s).

(** The cinema server of [Hub.demoEvents] before its last event: two
    clients are connected, the second still in its handshake. *)
Definition beforeBooking : Hub.Server (App := list Shows) :=
  default (Hub.initialServer Main.shows)
          (Hub.cinemaSteps (Hub.initialServer Main.shows)
                           (take 3 Hub.demoEvents)).

(** A catalog with one title shown twice in one theater, and the cinema
    server on it after a client has connected and booked two seats. *)
Definition twoDates : list Shows :=
  [newShows (lit "Inception") (lit "2025-09-11 19:30") (lit "PVR");
   newShows (lit "Inception") (lit "2025-09-11 22:00") (lit "PVR")].

Definition afterTwoDates : Hub.Server (App := list Shows) :=
  default (Hub.initialServer twoDates)
          (Hub.cinemaSteps (Hub.initialServer twoDates)
             [Hub.Accepted 0; Hub.HandshakeDone 0 false;
              Hub.ReadDone 0 false (lit "PVR,Inception,1,2")]).

(** Two callers ask for seats 1, 2 and for seats 3, 4 of an empty show;
    the second caller runs first. *)
Definition askApart (t : Concurrent.Tid) : list Z :=
  match t with
  | Concurrent.T1 => [1; 2]
  | Concurrent.T2 => [3; 4]
  end.

Definition afterApart : Concurrent.Conf :=
  default (Concurrent.initial (replicate 20 false))
          (Concurrent.exec askApart
             (replicate 7 Concurrent.T2 ++ replicate 7 Concurrent.T1)
             (Concurrent.initial (replicate 20 false))).

(** ** The parser's state *)

(** Every show parsed so far has 20 seats, and [currentShow] is null
    or points to the last element of [shows_]. *)
Definition parser_ok (st : Client.Parser) : Prop :=
  Forall (fun sh => length (seats sh) = 20%nat) (Client.shows_ st)
  /\ match Client.currentShow st with
     | Some i => S i = length (Client.shows_ st)
     | None => True
     end.

(** ** Tactics *)

(** The snapshot ends the response. *)
Ltac snapshot_suffix :=
  repeat first [ reflexivity | apply suffix_app_r | apply suffix_cons_r ].

(** A byte does not occur in a literal. *)
Ltac closed_notin := apply (bool_decide_unpack _); vm_compute; exact I.

(** * Properties *)

(** ** The seat ledger *)

Lemma set_seats_same (sh : Shows) : set_seats sh (seats sh) = sh.
Proof. by destruct sh. Qed.

Lemma seatRejected_false (s : list bool) (seat : Z) :
  seatRejected s seat = false <->
  1 <= seat <= Z.of_nat (length s) /\ s !! Z.to_nat (seat - 1) = Some false.
Proof.
  unfold seatRejected. split.
  - intros H. apply orb_false_elim in H as [H1 H3].
    apply orb_false_elim in H1 as [H1 H2].
    apply Z.ltb_ge in H1. rewrite Z.gtb_ltb in H2. apply Z.ltb_ge in H2.
    split; [lia|]. destruct (s !! Z.to_nat (seat - 1)) as [b|]; [|done].
    by subst b.
  - intros [[H1 H2] H3]. rewrite H3, orb_false_r.
    apply orb_false_intro; [by apply Z.ltb_ge|].
    rewrite Z.gtb_ltb. by apply Z.ltb_ge.
Qed.

Lemma existsb_seatRejected_false (s : list bool) (l : list Z) :
  existsb (seatRejected s) l = false <->
  Forall (fun seat => 1 <= seat <= Z.of_nat (length s)
                      /\ s !! Z.to_nat (seat - 1) = Some false) l.
Proof.
  induction l as [|seat l IH]; simpl.
  - split; [constructor | done].
  - rewrite orb_false_iff, IH, Forall_cons, seatRejected_false. tauto.
Qed.

Lemma length_foldl_markBooked (l : list Z) (s : list bool) :
  length (foldl markBooked s l) = length s.
Proof.
  revert s. induction l as [|seat l IH]; intros s; simpl; [done|].
  rewrite IH. unfold markBooked. by rewrite length_insert.
Qed.

(** Writing [v] at the positions of the seats of [l]: position [i] holds
    [v] when seat [i + 1] is in [l], and its old value otherwise. *)
Lemma lookup_foldl_set (v : bool) (f : list bool -> Z -> list bool)
    (l : list Z) (s : list bool) (i : nat) :
  (forall s' seat, f s' seat = <[Z.to_nat (seat - 1) := v]> s') ->
  Forall (fun seat => 1 <= seat) l ->
  foldl f s l !! i =
  if bool_decide (Z.of_nat i + 1 ∈ l) then (fun _ => v) <$> s !! i
  else s !! i.
Proof.
  intros Hf. revert s. induction l as [|seat l IH]; intros s Hl; cbn [foldl].
  - by rewrite bool_decide_eq_false_2 by apply not_elem_of_nil.
  - apply Forall_cons in Hl as [Hseat Hl]. rewrite IH by done.
    rewrite Hf.
    destruct (decide (Z.of_nat i + 1 = seat)) as [Heq|Hne].
    + assert (Z.to_nat (seat - 1) = i) as -> by lia.
      rewrite (bool_decide_eq_true_2 (_ ∈ seat :: l)) by (subst; left).
      destruct (decide (i < length s)%nat) as [Hlt|Hge].
      * rewrite list_lookup_insert_eq by done.
        destruct (lookup_lt_is_Some_2 s i Hlt) as [b ->].
        by destruct (bool_decide _).
      * rewrite list_insert_ge by lia.
        rewrite (lookup_ge_None_2 s i) by lia. by destruct (bool_decide _).
    + rewrite list_lookup_insert_ne by lia.
      apply (f_equal (fun b : bool => if b then _ else _)).
      apply bool_decide_ext. rewrite elem_of_cons. intuition congruence.
Qed.

(** After the write loop, position [i] holds [true] when seat [i + 1] was
    requested and its old value otherwise. *)
Lemma lookup_foldl_markBooked (l : list Z) (s : list bool) (i : nat) :
  Forall (fun seat => 1 <= seat) l ->
  foldl markBooked s l !! i =
  if bool_decide (Z.of_nat i + 1 ∈ l) then (fun _ => true) <$> s !! i
  else s !! i.
Proof. by apply lookup_foldl_set. Qed.

(** The outcome of a call depends only on the set of seats requested. *)
Lemma bookSeatsOn_set (l l' : list Z) (s : list bool) :
  (forall seat, seat ∈ l <-> seat ∈ l') ->
  bookSeatsOn l' s = bookSeatsOn l s.
Proof.
  intros Hset. unfold bookSeatsOn.
  destruct (existsb (seatRejected s) l) eqn:Hl.
  - assert (existsb (seatRejected s) l' = true) as ->; [|done].
    apply existsb_exists in Hl as (seat & Hin & Hrej).
    apply existsb_exists. exists seat. split; [|done].
    apply list_elem_of_In, Hset, list_elem_of_In, Hin.
  - pose proof Hl as Hall. apply existsb_seatRejected_false in Hall.
    assert (Forall (fun seat => 1 <= seat <= Z.of_nat (length s)
               /\ s !! Z.to_nat (seat - 1) = Some false) l') as Hall'.
    { rewrite Forall_forall in Hall |- *. intros seat Hin.
      by apply Hall, Hset. }
    pose proof Hall' as Hl'. apply existsb_seatRejected_false in Hl'.
    rewrite Hl'. f_equal. apply list_eq. intros i.
    rewrite !lookup_foldl_markBooked
      by (eapply Forall_impl; [eassumption | simpl; lia]).
    apply (f_equal (fun b : bool => if b then _ else _)).
    apply bool_decide_ext. symmetry. apply Hset.
Qed.

(** C1.  On a ledger of 20 seats, [bookSeats] returns true exactly when
    every requested seat number is in 1..20 and available; then the
    requested seats, and no others, become booked; when it returns false the
    show is unchanged; the empty request succeeds and changes nothing; and a
    request is treated as a set, so that repeating a seat number changes
    neither the result nor the ledger. *)
Theorem bookSeats_all_or_nothing (seatNumbers : list Z) (sh : Shows) :
  length (seats sh) = 20%nat ->
  forall ok sh', bookSeats seatNumbers sh = (ok, sh') ->
  (ok = true <->
   Forall (fun seat => 1 <= seat <= 20
                       /\ seats sh !! Z.to_nat (seat - 1) = Some false)
          seatNumbers)
  /\ (ok = true ->
      movie sh' = movie sh /\ dateTime sh' = dateTime sh
      /\ theater sh' = theater sh /\ length (seats sh') = 20%nat
      /\ forall seat, 1 <= seat <= 20 ->
           seats sh' !! Z.to_nat (seat - 1) =
           if bool_decide (seat ∈ seatNumbers) then Some true
           else seats sh !! Z.to_nat (seat - 1))
  /\ (ok = false -> sh' = sh)
  /\ bookSeats [] sh = (true, sh)
  /\ (forall other, (forall seat, seat ∈ seatNumbers <-> seat ∈ other) ->
        bookSeats other sh = (ok, sh')).
Proof.
  intros H20 ok sh' Hcall. unfold bookSeats in Hcall.
  destruct (bookSeatsOn seatNumbers (seats sh)) as [r s'] eqn:Hon.
  injection Hcall as <- <-.
  pose proof (existsb_seatRejected_false (seats sh) seatNumbers) as Hchk.
  rewrite H20 in Hchk. change (Z.of_nat 20) with 20 in Hchk.
  unfold bookSeatsOn in Hon.
  split; [|split; [|split; [|split]]].
  - split.
    + intros ->. apply Hchk.
      destruct (existsb _ seatNumbers); [by inversion Hon | done].
    + intros Hall. apply Hchk in Hall. rewrite Hall in Hon.
      by inversion Hon.
  - intros ->.
    destruct (existsb _ seatNumbers) eqn:E; [by inversion Hon|].
    inversion Hon; subst s'. simpl.
    rewrite length_foldl_markBooked. do 4 (split; [done|]).
    intros seat Hseat. rewrite lookup_foldl_markBooked.
    + replace (Z.of_nat (Z.to_nat (seat - 1)) + 1) with seat by lia.
      case_bool_decide; [|done].
      destruct (lookup_lt_is_Some_2 (seats sh) (Z.to_nat (seat - 1)))
        as [b ->]; [lia | done].
    + eapply Forall_impl; [by apply Hchk|]. simpl. lia.
  - intros ->. destruct (existsb _ seatNumbers); [|by inversion Hon].
    inversion Hon. apply set_seats_same.
  - unfold bookSeats, bookSeatsOn. simpl. by rewrite set_seats_same.
  - intros l' Hset. unfold bookSeats.
    rewrite (bookSeatsOn_set seatNumbers l' (seats sh) Hset).
    unfold bookSeatsOn. by rewrite Hon.
Qed.

Lemma bookSeats_all_or_nothing_witness :
  let sh := newShows (lit "Inception") (lit "2025-09-11 19:30") (lit "PVR") in
  length (seats sh) = 20%nat
  /\ bookSeats [1; 5; 10; 15; 20; 5] sh
     = (true, snd (bookSeats [1; 5; 10; 15; 20; 5] sh))
  /\ bookSeats [5; 1; 20; 15; 10] sh
     = (true, snd (bookSeats [1; 5; 10; 15; 20; 5] sh)).
Proof.
  intros sh. split; [reflexivity|]. split; [reflexivity|].
  apply (bookSeats_all_or_nothing [1; 5; 10; 15; 20; 5] sh eq_refl
           true _ eq_refl).
  intros seat. rewrite !elem_of_cons, !elem_of_nil. tauto.
Defined.

(** ** The client-side show *)

Lemma length_bookSeatsOn (l : list Z) (s : list bool) :
  length (snd (bookSeatsOn l s)) = length s.
Proof.
  unfold bookSeatsOn. destruct (existsb _ l); simpl; [done|].
  apply length_foldl_markBooked.
Qed.

Lemma length_applyOp (sh : Shows) (op : ShowsOp) :
  length (seats (applyOp sh op)) = length (seats sh).
Proof.
  destruct op as [|l|st]; simpl; [done| |].
  - unfold bookSeats.
    pose proof (length_bookSeatsOn l (seats sh)) as H.
    by destruct (bookSeatsOn l (seats sh)).
  - unfold Client.updateSeatAvailability. by case_bool_decide.
Qed.

Lemma length_foldl_applyOp (ops : list ShowsOp) (sh : Shows) :
  length (seats (foldl applyOp sh ops)) = length (seats sh).
Proof.
  revert sh. induction ops as [|op ops IH]; intros sh; simpl; [done|].
  by rewrite IH, length_applyOp.
Qed.

(** C10.  Whatever operations have been applied to a client-side show
    since its construction, its seat vector has length 20, and
    [updateSeatAvailability] replaces the bitmap exactly when the supplied
    one has length 20 and otherwise leaves the show as it is. *)
Theorem updateSeatAvailability_keeps_20
    (m dt t : cstring) (ops : list ShowsOp) (seatStatus : list bool) :
  let sh := foldl applyOp (newShows m dt t) ops in
  length (seats sh) = 20%nat
  /\ length (seats (Client.updateSeatAvailability seatStatus sh)) = 20%nat
  /\ Client.updateSeatAvailability seatStatus sh =
     if bool_decide (length seatStatus = 20%nat)
     then set_seats sh seatStatus
     else sh.
Proof.
  intros sh.
  assert (length (seats sh) = 20%nat) as H20.
  { unfold sh. by rewrite length_foldl_applyOp. }
  split; [done|]. split.
  - rewrite <- H20.
    exact (length_applyOp sh (OpUpdateSeatAvailability seatStatus)).
  - unfold Client.updateSeatAvailability. by rewrite H20.
Qed.

(** ** std::string lemmas *)

Lemma starts_with_spec (needle s : cstring) :
  starts_with needle s = true <-> exists rest, s = needle ++ rest.
Proof.
  revert s. induction needle as [|a needle IH]; intros s.
  - simpl. split; [by exists s | done].
  - destruct s as [|b s]; simpl.
    + split; [done | by intros [rest Hrest]].
    + rewrite andb_true_iff, Ascii.eqb_eq, IH. split.
      * intros [-> [rest ->]]. by exists rest.
      * intros [rest Hrest]. injection Hrest as -> ->. eauto.
Qed.

Lemma starts_with_app (needle rest : cstring) :
  starts_with needle (needle ++ rest) = true.
Proof. apply starts_with_spec. by exists rest. Qed.

Lemma find_starts_with (needle s : cstring) :
  find needle s = Some 0%nat <-> starts_with needle s = true.
Proof.
  destruct s as [|c s]; simpl.
  - by destruct (starts_with needle []).
  - destruct (starts_with needle (c :: s)); [done|].
    by destruct (find needle s).
Qed.

(** A needle that occurs in a string is found. *)
Lemma find_occurrence (needle before after : cstring) :
  find needle (before ++ needle ++ after) <> None.
Proof.
  induction before as [|c before IH]; simpl.
  - destruct (needle ++ after) as [|c s] eqn:E; simpl.
    + destruct needle; [done | by simplify_eq/=].
    + rewrite <- E, starts_with_app. done.
  - destruct (starts_with needle (c :: before ++ needle ++ after)); [done|].
    by destruct (find needle (before ++ needle ++ after)).
Qed.

Lemma find_char (c : ascii) (s : cstring) :
  find [c] s <> None <-> c ∈ s.
Proof.
  induction s as [|d s IH]; simpl.
  - split; [done | by intros ?%elem_of_nil].
  - rewrite elem_of_cons. destruct (Ascii.eqb c d) eqn:E; simpl.
    + apply Ascii.eqb_eq in E. split; [by left | done].
    + apply Ascii.eqb_neq in E.
      destruct (find [c] s); simpl; split; try done.
      * intros _. right. by apply IH.
      * intros [?|H]; [done | by apply IH in H].
Qed.

(** ** The message router *)

(** C6.  [handleMessage] is a three-way case split: on exactly "get_data"
    or "refresh" it returns the initial snapshot and does not broadcast;
    otherwise, on a message containing a comma, it returns the response of
    [processBooking] with that result's broadcast flag; otherwise it echoes
    the message, followed by an empty line and the snapshot, and does not
    broadcast. *)
Theorem handleMessage_three_way (received : cstring) (shows : list Shows) :
  (received = lit "get_data" \/ received = lit "refresh" ->
   handleMessage received shows = (formatCinemaData shows, false, shows))
  /\ (received <> lit "get_data" -> received <> lit "refresh" ->
      comma ∈ received ->
      handleMessage received shows =
      (message (processBooking received shows).1,
       shouldBroadcast (processBooking received shows).1,
       (processBooking received shows).2))
  /\ (received <> lit "get_data" -> received <> lit "refresh" ->
      comma ∉ received ->
      handleMessage received shows =
      (lit "Echo: " ++ received ++ blank_line ++ formatCinemaData shows,
       false, shows)).
Proof.
  unfold handleMessage. split; [|split].
  - intros [-> | ->]; reflexivity.
  - intros H1 H2 Hc.
    rewrite !bool_decide_eq_false_2 by done. simpl.
    rewrite bool_decide_eq_true_2 by by apply find_char.
    by destruct (processBooking received shows).
  - intros H1 H2 Hc.
    rewrite !bool_decide_eq_false_2 by done. simpl.
    rewrite bool_decide_eq_false_2; [done|].
    intros H. apply H. destruct (find [comma] received) eqn:E; [|done].
    exfalso. apply Hc, find_char. by rewrite E.
Qed.

Lemma handleMessage_three_way_witness :
  let shows := Main.shows in
  handleMessage (lit "refresh") shows = (formatCinemaData shows, false, shows)
  /\ handleMessage (lit "PVR,Inception,3,4") shows =
     (message (processBooking (lit "PVR,Inception,3,4") shows).1, true,
      (processBooking (lit "PVR,Inception,3,4") shows).2)
  /\ handleMessage (lit "hello") shows =
     (lit "Echo: " ++ lit "hello" ++ blank_line ++ formatCinemaData shows,
      false, shows).
Proof.
  intros shows.
  destruct (handleMessage_three_way (lit "refresh") shows) as (H1 & _ & _).
  destruct (handleMessage_three_way (lit "PVR,Inception,3,4") shows)
    as (_ & H2 & _).
  destruct (handleMessage_three_way (lit "hello") shows) as (_ & _ & H3).
  split; [apply H1; by right|]. split.
  - apply H2; [done | done |]. vm_compute. apply list_elem_of_In.
    simpl. tauto.
  - apply H3; [done | done |]. intros H%list_elem_of_In. simpl in H.
    repeat (destruct H as [H|H]; [discriminate H|]). done.
Defined.

(** ** The booking service *)

Lemma bookSeats_false (l : list Z) (sh sh' : Shows) :
  bookSeats l sh = (false, sh') -> sh' = sh.
Proof.
  unfold bookSeats, bookSeatsOn.
  destruct (existsb _ l); intros H; simplify_eq/=.
  apply set_seats_same.
Qed.

(** A reservation that fails leaves the whole catalog as it was. *)
Lemma bookFirstMatch_false (t m : cstring) (l : list Z)
    (shows shows' : list Shows) :
  bookFirstMatch t m l shows = Some (false, shows') -> shows' = shows.
Proof.
  revert shows'. induction shows as [|sh shows IH]; intros shows'; simpl.
  - done.
  - destruct (bool_decide (theater sh = t) && bool_decide (movie sh = m)).
    + destruct (bookSeats l sh) as [ok sh1] eqn:E. intros H.
      simplify_eq/=. by rewrite (bookSeats_false _ _ _ E).
    + destruct (bookFirstMatch t m l shows) as [[ok rest]|]; [|done].
      intros H. simplify_eq/=. by rewrite (IH rest).
Qed.

(** The loop books the first show that matches both names. *)
Lemma bookFirstMatch_first (t m : cstring) (l : list Z)
    (before after : list Shows) (sh : Shows) :
  Forall (fun s => ~ (theater s = t /\ movie s = m)) before ->
  theater sh = t -> movie sh = m ->
  bookFirstMatch t m l (before ++ sh :: after) =
  Some ((bookSeats l sh).1, before ++ (bookSeats l sh).2 :: after).
Proof.
  intros Hbefore Ht Hm.
  induction before as [|s before IH]; simpl.
  - rewrite !bool_decide_eq_true_2 by done. simpl.
    by destruct (bookSeats l sh).
  - apply Forall_cons in Hbefore as [Hs Hbefore].
    rewrite IH by done.
    destruct (bool_decide (theater s = t)) eqn:E1;
      destruct (bool_decide (movie s = m)) eqn:E2; simpl; try done.
    apply bool_decide_eq_true in E1, E2. tauto.
Qed.

Lemma bookFirstMatch_none (t m : cstring) (l : list Z) (shows : list Shows) :
  Forall (fun s => ~ (theater s = t /\ movie s = m)) shows ->
  bookFirstMatch t m l shows = None.
Proof.
  induction 1 as [|s shows Hs _ IH]; simpl; [done|].
  rewrite IH.
  destruct (bool_decide (theater s = t)) eqn:E1;
    destruct (bool_decide (movie s = m)) eqn:E2; simpl; try done.
  apply bool_decide_eq_true in E1, E2. tauto.
Qed.

Lemma parseSeatFields_ok (fields : list cstring) (seatNums acc : list Z) :
  Forall2 seatField fields seatNums ->
  parseSeatFields acc fields = SeatsParsed (acc ++ seatNums).
Proof.
  intros H. revert acc.
  induction H as [|f n fields seatNums [Hf Hn] _ IH]; intros acc; simpl.
  - by rewrite app_nil_r.
  - rewrite Hf.
    assert ((0 <? n) && (n <=? 20) = true) as ->.
    { apply andb_true_intro. split; [apply Z.ltb_lt | apply Z.leb_le]; lia. }
    rewrite IH, <- app_assoc. simpl.
    unfold to_uint8. by rewrite Z.mod_small by lia.
Qed.

(** The seat loop returns at the first bad field, whatever follows it. *)
Lemma parseSeatFields_bad (good : list cstring) (seatNums acc : list Z)
    (field : cstring) (rest : list cstring) :
  Forall2 seatField good seatNums ->
  badSeatField field ->
  parseSeatFields acc (good ++ field :: rest) =
  match stoi field with
  | Some _ => SeatOutOfRange field
  | None => SeatBadFormat field
  end.
Proof.
  intros H Hbad. revert acc.
  induction H as [|f n fields ns [Hf Hn] _ IH]; intros acc; simpl.
  - unfold badSeatField in Hbad. destruct (stoi field) as [n|]; [|done].
    assert ((0 <? n) && (n <=? 20) = false) as ->; [|done].
    apply andb_false_iff.
    destruct (decide (0 < n)); [right; apply Z.leb_gt | left; apply Z.ltb_ge];
      lia.
  - rewrite Hf.
    assert ((0 <? n) && (n <=? 20) = true) as ->.
    { apply andb_true_intro. split; [apply Z.ltb_lt | apply Z.leb_le]; lia. }
    apply IH.
Qed.

(** Every list of fields is either accepted whole or has a first bad
    field. *)
Lemma seat_fields_split (fields : list cstring) :
  (exists seatNums, Forall2 seatField fields seatNums)
  \/ (exists good seatNums field rest,
        fields = good ++ field :: rest
        /\ Forall2 seatField good seatNums /\ badSeatField field).
Proof.
  induction fields as [|f fields IH].
  - left. exists []. constructor.
  - destruct (stoi f) as [n|] eqn:Hf.
    + destruct (decide (1 <= n <= 20)) as [Hn|Hn].
      * destruct IH as [[ns H] | (good & ns & field & rest & -> & H & Hbad)].
        -- left. exists (n :: ns). by constructor.
        -- right. exists (f :: good), (n :: ns), field, rest.
           split; [done|]. split; [by constructor | done].
      * right. exists [], [], f, fields. split; [done|].
        split; [constructor|]. unfold badSeatField. by rewrite Hf.
    + right. exists [], [], f, fields. split; [done|].
      split; [constructor|]. unfold badSeatField. by rewrite Hf.
Qed.

Lemma formatCinemaData_is_stream (text : cstring) (shows : list Shows) :
  Client.isCinemaDataStream (text ++ formatCinemaData shows) = true.
Proof.
  unfold Client.isCinemaDataStream, formatCinemaData.
  rewrite bool_decide_eq_true_2; [done|].
  apply (find_occurrence Client.CINEMA_DATA_STREAM text).
Qed.

Lemma seatField_not_bad (fields : list cstring) (seatNums : list Z)
    (field : cstring) :
  Forall2 seatField fields seatNums -> field ∈ fields ->
  ~ badSeatField field.
Proof.
  intros H Hin Hbad. apply list_elem_of_lookup in Hin as [i Hi].
  destruct (Forall2_lookup_l _ _ _ _ _ H Hi) as (n & _ & Hf & Hn).
  unfold badSeatField in Hbad. by rewrite Hf in Hbad.
Qed.

(** Either some show matches the names, and there is a first one, or none
    does. *)
Lemma first_match_split (t m : cstring) (shows : list Shows) :
  Forall (fun s => ~ (theater s = t /\ movie s = m)) shows
  \/ exists before sh after,
       shows = before ++ sh :: after
       /\ Forall (fun s => ~ (theater s = t /\ movie s = m)) before
       /\ theater sh = t /\ movie sh = m.
Proof.
  induction shows as [|s shows IH]; [by left|].
  destruct (decide (theater s = t /\ movie s = m)) as [[Ht Hm]|Hs].
  - right. by exists [], s, shows.
  - destruct IH as [IH | (before & sh & after & -> & Hb & Ht & Hm)].
    + left. by constructor.
    + right. exists (s :: before), sh, after. split; [done|].
      split; [by constructor | done].
Qed.

Lemma processBooking_path (msg : cstring) (shows : list Shows) :
  BookingPath msg shows (processBooking msg shows).1
              (processBooking msg shows).2.
Proof.
  unfold processBooking.
  destruct (getlines comma msg) as [|t [|m [|f fields]]] eqn:Hparts;
    try (apply path_too_few; rewrite Hparts; simpl; lia).
  destruct (seat_fields_split (f :: fields))
    as [[ns Hok] | (good & ns & field & rest & Hsplit & Hgood & Hbad)].
  - rewrite (parseSeatFields_ok _ ns [] Hok). simpl.
    destruct (first_match_split t m shows)
      as [Hnone | (before & sh & after & -> & Hb & Ht & Hm)].
    + rewrite (bookFirstMatch_none _ _ _ _ Hnone).
      by eapply path_not_found.
    + rewrite (bookFirstMatch_first _ _ _ _ _ _ Hb Ht Hm).
      pose proof (path_reserved msg (before ++ sh :: after) t m (f :: fields)
                    ns before sh after Hparts ltac:(done) Hok eq_refl Hb Ht Hm)
        as Hpath.
      destruct (bookSeats ns sh) as [[] sh'] eqn:Hbook; simpl in *;
        [done|].
      by rewrite (bookSeats_false _ _ _ Hbook) in *.
  - rewrite Hsplit, (parseSeatFields_bad good ns [] field rest Hgood Hbad).
    pose proof (path_bad_seat msg shows t m good ns field rest
                  ltac:(by rewrite Hparts, Hsplit) Hgood Hbad) as Hpath.
    by destruct (stoi field).
Qed.

(** Each error path of [processBooking] (fewer than three fields, a
    bad seat field, no matching show, a reservation that [bookSeats]
    refuses) reports a failure; whenever a failure is reported the catalog
    is unchanged and [shouldBroadcast] is false; and every response, of a
    success or of a failure, ends with the snapshot of the catalog as it
    is after the call, which the client recognises as a data stream and
    hands to its parser. *)
Lemma processBooking_failures (msg : cstring) (shows : list Shows) :
  let r := (processBooking msg shows).1 in
  let shows' := (processBooking msg shows).2 in
  ((length (getlines comma msg) < 3)%nat -> success r = false)
  /\ ((exists field, field ∈ drop 2 (getlines comma msg)
                     /\ badSeatField field) -> success r = false)
  /\ (forall t m fields,
        getlines comma msg = t :: m :: fields ->
        Forall (fun s => ~ (theater s = t /\ movie s = m)) shows ->
        success r = false)
  /\ (forall t m fields seatNums before sh after,
        getlines comma msg = t :: m :: fields ->
        Forall2 seatField fields seatNums ->
        shows = before ++ sh :: after ->
        Forall (fun s => ~ (theater s = t /\ movie s = m)) before ->
        theater sh = t -> movie sh = m ->
        (bookSeats seatNums sh).1 = false ->
        success r = false)
  /\ (success r = false -> shows' = shows /\ shouldBroadcast r = false)
  /\ formatCinemaData shows' `suffix_of` message r
  /\ Client.isCinemaDataStream (message r) = true.
Proof.
  intros r shows'. subst r shows'.
  pose proof (processBooking_path msg shows) as Hpath.
  assert (formatCinemaData (processBooking msg shows).2
            `suffix_of` message (processBooking msg shows).1) as Hsuffix.
  { destruct Hpath as [ | ? ? ? ? field ? Hp
                      | ? ? ? ? Hp Hne Hok
                      | t' m' ? ns before sh after Hp Hne Hok Hsh Hb Ht Hm];
      [ | destruct (stoi field) | | ]; cbn; try snapshot_suffix.
    destruct (bookSeats ns sh) as [[] sh'] eqn:Hbook; cbn;
      [snapshot_suffix|].
    rewrite (bookSeats_false _ _ _ Hbook), Hsh. snapshot_suffix. }
  split; [|split; [|split; [|split; [|split; [|split]]]]].
  - intros Hlen.
    destruct Hpath as [ | ? ? ? ? ? ? Hp | ? ? ? ? Hp Hne| ? ? ? ? ? ? ? Hp Hne];
      try done; rewrite Hp in Hlen; simpl in Hlen;
      try (destruct fields; [done | simpl in Hlen; lia]).
    rewrite length_app in Hlen. simpl in Hlen. lia.
  - intros (bad & Hin & Hbad).
    destruct Hpath as [ | ? ? ? ? field ? Hp
                      | ? ? ? ? Hp Hne Hok | ? ? ? ? ? ? ? Hp Hne Hok].
    + done.
    + by destruct (stoi field).
    + done.
    + rewrite Hp in Hin. simpl in Hin.
      by destruct (seatField_not_bad _ _ _ Hok Hin).
  - intros t m fields Hparts Hnone.
    destruct Hpath as [ | ? ? ? ? field ? Hp
                      | ? ? ? ? Hp Hne Hok
                      | t' m' ? ? before sh after Hp Hne Hok Hsh Hb Ht Hm].
    + done.
    + by destruct (stoi field).
    + done.
    + rewrite Hp in Hparts. simplify_eq/=.
      apply Forall_app in Hnone as [_ Hnone].
      apply Forall_cons in Hnone as [Hnone _]. by destruct Hnone.
  - intros t m fields ns before sh after Hparts Hok -> Hb Ht Hm Hfail.
    clear Hpath. unfold processBooking. rewrite Hparts.
    destruct fields as [|f fields]; [done|].
    rewrite (parseSeatFields_ok _ ns [] Hok). cbn.
    rewrite (bookFirstMatch_first _ _ _ _ _ _ Hb Ht Hm), Hfail. done.
  - intros Hfail.
    destruct Hpath as [ | ? ? ? ? field ? Hp
                      | ? ? ? ? Hp Hne Hok
                      | t' m' ? ns before sh after Hp Hne Hok Hsh Hb Ht Hm].
    + done.
    + by destruct (stoi field).
    + done.
    + destruct (bookSeats ns sh) as [[] sh'] eqn:Hbook; cbn in *; [done|].
      by rewrite (bookSeats_false _ _ _ Hbook), Hsh.
  - exact Hsuffix.
  - destruct Hsuffix as [text ->]. apply formatCinemaData_is_stream.
Qed.

(** C5.  A request with fewer than three comma-separated fields is
    answered with the format error.  A request in which some seat field is
    bad ([std::stoi] fails on it, or its value is outside 1..20) is
    rejected whole: the result is a failure whose text starts with
    "ERROR: Invalid seat number ", no seat is booked even when the fields
    before the bad one are good, and nothing is broadcast; when the first
    bad field parses to a value outside 1..20 the text starts with
    "ERROR: Invalid seat number <field>. Must be 1-20.". *)
Theorem processBooking_validation (msg : cstring) (shows : list Shows) :
  let r := (processBooking msg shows).1 in
  let shows' := (processBooking msg shows).2 in
  ((length (getlines comma msg) < 3)%nat ->
   r = mkBookingResult false
         (lit "ERROR: Invalid booking format. Use: theater,movie,seat1,seat2,..."
            ++ blank_line ++ formatCinemaData shows) false
   /\ shows' = shows)
  /\ ((exists field, field ∈ drop 2 (getlines comma msg)
                     /\ badSeatField field) ->
      success r = false /\ shouldBroadcast r = false /\ shows' = shows
      /\ exists rest, message r = lit "ERROR: Invalid seat number " ++ rest)
  /\ (forall t m good seatNums field rest seatNum,
        getlines comma msg = t :: m :: good ++ field :: rest ->
        Forall2 seatField good seatNums ->
        stoi field = Some seatNum -> ~ (1 <= seatNum <= 20) ->
        r = mkBookingResult false
              (lit "ERROR: Invalid seat number " ++ field
                 ++ lit ". Must be 1-20." ++ blank_line
                 ++ formatCinemaData shows) false
        /\ shows' = shows)
  /\ (forall t m good seatNums field rest,
        getlines comma msg = t :: m :: good ++ field :: rest ->
        Forall2 seatField good seatNums ->
        stoi field = None ->
        r = mkBookingResult false
              (lit "ERROR: Invalid seat number format: " ++ field
                 ++ blank_line ++ formatCinemaData shows) false
        /\ shows' = shows).
Proof.
  intros r shows'. subst r shows'.
  split; [|split; [|split]].
  - intros Hlen. unfold processBooking.
    destruct (getlines comma msg) as [|t [|m [|f fields]]]; try done.
    simpl in Hlen. lia.
  - intros (bad & Hin & Hbad).
    destruct (processBooking_path msg shows)
      as [ Hlen | ? ? ? ? field ? Hp | ? ? ? ? Hp Hne Hok
         | ? ? ? ? ? ? ? Hp Hne Hok].
    + destruct (getlines comma msg) as [|t [|m [|f fields]]];
        [by apply elem_of_nil in Hin.. | simpl in Hlen; lia].
    + destruct (stoi field); cbn; do 3 (split; [done|]).
      * by eexists.
      * by exists (lit "format: " ++ field ++ blank_line
                     ++ formatCinemaData shows).
    + rewrite Hp in Hin. simpl in Hin.
      by destruct (seatField_not_bad _ _ _ Hok Hin).
    + rewrite Hp in Hin. simpl in Hin.
      by destruct (seatField_not_bad _ _ _ Hok Hin).
  - intros t m good ns field rest n Hparts Hgood Hf Hn.
    unfold processBooking. rewrite Hparts.
    assert (badSeatField field) as Hbad.
    { unfold badSeatField. by rewrite Hf. }
    pose proof (parseSeatFields_bad good ns [] field rest Hgood Hbad) as Hp.
    rewrite Hf in Hp.
    destruct (good ++ field :: rest) as [|f fields] eqn:E;
      [by destruct good|].
    by rewrite Hp.
  - intros t m good ns field rest Hparts Hgood Hf.
    unfold processBooking. rewrite Hparts.
    assert (badSeatField field) as Hbad.
    { unfold badSeatField. by rewrite Hf. }
    pose proof (parseSeatFields_bad good ns [] field rest Hgood Hbad) as Hp.
    rewrite Hf in Hp.
    destruct (good ++ field :: rest) as [|f fields] eqn:E;
      [by destruct good|].
    by rewrite Hp.
Qed.

Lemma processBooking_validation_witness :
  let shows := Main.shows in
  let r := (processBooking (lit "PVR,Inception,21") shows).1 in
  stoi (lit "21") = Some 21
  /\ message r = lit "ERROR: Invalid seat number " ++ lit "21"
                   ++ lit ". Must be 1-20." ++ blank_line
                   ++ formatCinemaData shows
  /\ (processBooking (lit "PVR,Inception,21") shows).2 = shows.
Proof.
  intros shows r. split; [reflexivity|].
  destruct (processBooking_validation (lit "PVR,Inception,21") shows)
    as (_ & _ & Hrange & _).
  destruct (Hrange (lit "PVR") (lit "Inception") [] [] (lit "21") [] 21
              eq_refl ltac:(constructor) eq_refl ltac:(lia)) as [Hr Hs].
  split; [|exact Hs].
  unfold r. rewrite Hr. reflexivity.
Defined.

(** The response lists the seats as the request names them: "4,3" is
    answered with "4, 3", not "3, 4". *)
Lemma success_not_ascending :
  ~ successListsAscending (lit "PVR,Inception,4,3")
      [newShows (lit "Inception") (lit "2025-09-11 19:30") (lit "PVR")].
Proof.
  intros H.
  specialize (H (lit "PVR") (lit "Inception") [4; 3] []
                (newShows (lit "Inception") (lit "2025-09-11 19:30")
                          (lit "PVR")) []).
  assert (message (processBooking (lit "PVR,Inception,4,3")
            [newShows (lit "Inception") (lit "2025-09-11 19:30") (lit "PVR")]).1
          !! 22%nat = Some "4"%char) as H4 by reflexivity.
  rewrite H in H4; [by vm_compute in H4|].
  assert (seatField (lit "4") 4) by (split; [reflexivity | lia]).
  assert (seatField (lit "3") 3) by (split; [reflexivity | lia]).
  exists [lit "4"; lit "3"]. split; [reflexivity|]. split; [done|].
  split; [by repeat constructor|]. split; [reflexivity|].
  split; [constructor|]. split; [reflexivity|]. split; reflexivity.
Qed.

(** C4, amended.  For a request that parses, matches a show and is
    accepted by [bookSeats], [processBooking] returns success and
    [shouldBroadcast] both true, the first matching show with the seats
    booked in place, and the text "SUCCESS: Booked seats " followed by the
    seat numbers in the order of the request, " for <movie> at <theater>",
    an empty line and the snapshot of the updated catalog. *)
Theorem processBooking_success (msg : cstring) (shows : list Shows)
    (t m : cstring) (seatNums : list Z) (before : list Shows) (sh : Shows)
    (after : list Shows) :
  acceptedRequest msg shows t m seatNums before sh after ->
  processBooking msg shows =
  (mkBookingResult true
     (lit "SUCCESS: Booked seats " ++ seatList seatNums ++ lit " for " ++ m
        ++ lit " at " ++ t ++ blank_line
        ++ formatCinemaData (before ++ (bookSeats seatNums sh).2 :: after))
     true,
   before ++ (bookSeats seatNums sh).2 :: after).
Proof.
  intros (fields & Hparts & Hne & Hok & -> & Hb & Ht & Hm & Hbook).
  unfold processBooking. rewrite Hparts.
  destruct fields as [|f fields]; [done|].
  rewrite (parseSeatFields_ok _ seatNums [] Hok). simpl.
  by rewrite (bookFirstMatch_first _ _ _ _ _ _ Hb Ht Hm), Hbook.
Qed.

Lemma processBooking_success_witness :
  let sh := newShows (lit "Inception") (lit "2025-09-11 19:30") (lit "PVR") in
  acceptedRequest (lit "PVR,Inception,3,4") [sh] (lit "PVR") (lit "Inception")
                  [3; 4] [] sh []
  /\ exists rest,
       message (processBooking (lit "PVR,Inception,3,4") [sh]).1 =
       lit "SUCCESS: Booked seats 3, 4" ++ rest.
Proof.
  intros sh.
  assert (acceptedRequest (lit "PVR,Inception,3,4") [sh] (lit "PVR")
            (lit "Inception") [3; 4] [] sh []) as Hacc.
  { assert (seatField (lit "3") 3) by (split; [reflexivity | lia]).
    assert (seatField (lit "4") 4) by (split; [reflexivity | lia]).
    exists [lit "3"; lit "4"]. split; [reflexivity|]. split; [done|].
    split; [by repeat constructor|]. split; [reflexivity|].
    split; [constructor|]. split; [reflexivity|]. split; reflexivity. }
  split; [exact Hacc|].
  rewrite (processBooking_success _ _ _ _ _ _ _ _ Hacc).
  eexists. reflexivity.
Defined.

(** ** The connection hub *)

Module HubFacts.
Import Hub.

Lemma session_ok_new : session_ok newSession.
Proof. unfold session_ok, written. repeat split; simpl; try done; lia. Qed.

Lemma session_ok_do_read s : session_ok s -> session_ok (do_read s).
Proof. by destruct s. Qed.

Lemma session_ok_async_accept s : session_ok s -> session_ok (async_accept s).
Proof. by destruct s. Qed.

Lemma session_ok_accept_completed s :
  session_ok s -> session_ok (accept_completed s).
Proof. by destruct s. Qed.

Lemma session_ok_read_completed s :
  session_ok s -> session_ok (read_completed s).
Proof. by destruct s. Qed.

(** [do_write] is sound when no write is in progress. *)
Lemma session_ok_do_write s :
  session_ok s -> write_pending s = [] -> lost s = [] ->
  session_ok (do_write s).
Proof.
  destruct s as [q w ap rp wp d l e].
  unfold session_ok, written, do_write. simpl.
  intros (Hlen & Hord & Hidle & Hlost) -> ->.
  destruct q as [|msg q]; simpl in *; split_and!; try done; lia.
Qed.

Lemma session_ok_send_message msg s :
  session_ok s -> session_ok (send_message msg s).
Proof.
  intros Hok. unfold send_message.
  destruct s as [q w ap rp wp d l e]. simpl.
  destruct Hok as (Hlen & Hord & Hidle & Hlost).
  unfold written in Hord. simpl in *.
  destruct w.
  - unfold session_ok, written. split_and!; simpl; try done.
    by rewrite <- Hord, <- !app_assoc.
  - destruct (Hidle eq_refl) as [-> ->].
    assert (l = []) as ->.
    { destruct l; [done|]. by destruct Hlost. }
    unfold do_write, session_ok, written. simpl. split_and!; try done.
    by rewrite <- Hord, !app_nil_r.
Qed.

Lemma session_ok_write_completed ec wire s :
  session_ok s -> session_ok (write_completed ec wire s).
Proof.
  destruct s as [q w ap rp wp d l e].
  unfold session_ok, written, write_completed.
  simpl. intros (Hlen & Hord & Hidle & Hlost).
  destruct wp as [|msg wp]; simpl in *; [done|].
  assert (wp = []) as -> by (destruct wp; [done | simpl in Hlen; lia]).
  assert (l = []) as ->.
  { destruct l; [done|]. by destruct Hlost. }
  assert (w = true) as ->.
  { destruct w; [done|]. by destruct Hidle. }
  destruct ec; simpl; split_and!; try done; try lia.
  by rewrite fmap_app, <- Hord, <- app_assoc.
Qed.

(** The handler of a write completed without error finds no write in
    progress: the next queued message is written, or the session becomes
    idle. *)
Lemma next_write wire s :
  session_ok s -> write_pending s <> [] ->
  let s' := do_write (write_completed false wire s) in
  session_ok s'
  /\ written s' = written s ++ write_pending s
  /\ delivered s' = delivered s ++ [wire]
  /\ match message_queue_ s with
     | [] => writing_ s' = false /\ write_pending s' = []
             /\ message_queue_ s' = []
     | msg :: queue => writing_ s' = true /\ write_pending s' = [msg]
                       /\ message_queue_ s' = queue
     end.
Proof.
  intros Hok Hwp s'. pose proof Hok as (Hlen & Hord & Hidle & Hlost).
  destruct (write_pending s) as [|m wp] eqn:E; [done|].
  assert (wp = []) as -> by (destruct wp; [done | simpl in Hlen; lia]).
  assert (lost s = []) as Hl.
  { destruct (lost s); [done|]. by destruct Hlost. }
  split.
  - apply session_ok_do_write.
    + by apply session_ok_write_completed.
    + unfold write_completed. by rewrite E.
    + unfold write_completed. by rewrite E.
  - unfold s', written, delivered, write_completed, do_write.
    rewrite E. simpl.
    destruct (message_queue_ s); simpl; by rewrite !fmap_app.
Qed.

(** [send_message] puts the message at the back of the queue and, when
    no write is in progress, starts the write of it. *)
Lemma send_message_queues msg s :
  session_ok s ->
  enqueued (send_message msg s) = enqueued s ++ [msg]
  /\ if writing_ s
     then write_pending (send_message msg s) = write_pending s
          /\ message_queue_ (send_message msg s) = message_queue_ s ++ [msg]
     else writing_ (send_message msg s) = true
          /\ write_pending (send_message msg s) = [msg]
          /\ message_queue_ (send_message msg s) = [].
Proof.
  intros (_ & _ & Hidle & _). unfold send_message. simpl.
  destruct (writing_ s) eqn:Hw; [done|].
  destruct (Hidle eq_refl) as [Hwp Hq].
  unfold do_write. simpl. by rewrite Hwp, Hq.
Qed.

Section Server.
Context {App : Type}.
Variable messageCallback : cstring -> App -> cstring * bool * App.
Variable initialDataCallback : App -> cstring.
Variable broadcastDataCallback : App -> cstring.

Local Abbreviation Server := (Server (App := App)).
Local Abbreviation step :=
  (step messageCallback initialDataCallback broadcastDataCallback).
Local Abbreviation Reachable :=
  (Reachable messageCallback initialDataCallback broadcastDataCallback).

Lemma heap_ok_onSession id f (srv : Server) :
  heap_ok srv ->
  (forall s, heap srv !! id = Some s -> session_ok (f s)) ->
  heap_ok (onSession id f srv).
Proof.
  intros Hok Hf j s. unfold onSession. simpl.
  intros [[-> (x & Hx & ->)] | [_ Hj]]%lookup_alter_Some; eauto.
Qed.

Lemma heap_ok_broadcastUpdate (srv : Server) :
  heap_ok srv -> heap_ok (broadcastUpdate broadcastDataCallback srv).
Proof.
  intros Hok j s. unfold broadcastUpdate. simpl.
  rewrite map_lookup_imap.
  destruct (heap srv !! j) as [x|] eqn:Hx; simpl; [|done].
  intros [= <-]. case_bool_decide; eauto using session_ok_send_message.
Qed.

Lemma step_heap_ok (srv srv' : Server) e :
  heap_ok srv -> step srv e = Some srv' -> heap_ok srv'.
Proof.
  intros Hok Hstep.
  destruct e as [id | id ec | id ec received | id ec wire]; simpl in Hstep.
  - destruct (heap srv !! id) eqn:Hid; [done|]. injection Hstep as <-.
    unfold run. apply heap_ok_onSession.
    + intros j s. simpl.
      intros [[<- <-] | [_ Hj]]%lookup_insert_Some;
        eauto using session_ok_new.
    + simpl. intros s. rewrite lookup_insert_eq. intros [= <-].
      apply session_ok_async_accept, session_ok_new.
  - destruct (heap srv !! id) as [s|] eqn:Hid; [|done].
    destruct (accept_pending s); [|done]. injection Hstep as <-.
    assert (heap_ok (onSession id accept_completed srv)) as Hok1.
    { apply heap_ok_onSession; eauto using session_ok_accept_completed. }
    unfold on_accept. destruct ec; [done|].
    apply heap_ok_onSession.
    + apply heap_ok_onSession; eauto using session_ok_send_message.
    + intros s' Hs'. apply session_ok_do_read.
      revert Hs'. apply heap_ok_onSession;
        eauto using session_ok_send_message.
  - destruct (heap srv !! id) as [s|] eqn:Hid; [|done].
    destruct (read_pending s); [|done]. injection Hstep as <-.
    assert (heap_ok (onSession id read_completed srv)) as Hok1.
    { apply heap_ok_onSession; eauto using session_ok_read_completed. }
    unfold on_read. destruct ec; [done|].
    destruct (messageCallback received _) as [[response bc] app'].
    set (srv1 := mkServer _ _ app').
    assert (heap_ok srv1) as Hok2 by done.
    assert (heap_ok (onSession id (send_message response) srv1)) as Hok3.
    { apply heap_ok_onSession; eauto using session_ok_send_message. }
    apply heap_ok_onSession.
    + destruct bc; [by apply heap_ok_broadcastUpdate | done].
    + intros s' Hs'. apply session_ok_do_read. revert Hs'.
      destruct bc; [by apply heap_ok_broadcastUpdate | apply Hok3].
  - destruct (heap srv !! id) as [s|] eqn:Hid; [|done].
    destruct (write_pending s) as [|m wp] eqn:Hwp; [done|].
    injection Hstep as <-. unfold on_write. destruct ec.
    + apply (heap_ok_onSession id (write_completed true wire) srv);
        eauto using session_ok_write_completed.
    + unfold onSession. simpl. rewrite alter_alter_eq.
      apply (heap_ok_onSession id (do_write ∘ write_completed false wire)
               srv); [done|].
      intros s0 Hs0. rewrite Hid in Hs0. injection Hs0 as <-.
      apply next_write; [by eapply Hok | by rewrite Hwp].
Qed.

Lemma reachable_heap_ok a (srv : Server) : Reachable a srv -> heap_ok srv.
Proof.
  induction 1 as [|srv e srv' _ IH Hstep].
  - intros id s. unfold initialServer. simpl. by rewrite lookup_empty.
  - by eapply step_heap_ok.
Qed.

Lemma steps_reachable a (srv srv' : Server) es :
  Reachable a srv ->
  steps messageCallback initialDataCallback broadcastDataCallback srv es
  = Some srv' ->
  Reachable a srv'.
Proof.
  revert srv. induction es as [|e es IH]; intros srv Hsrv; simpl.
  - by intros [= <-].
  - destruct (step srv e) as [srv1|] eqn:Hstep; [|done].
    apply IH. by eapply reach_step.
Qed.

(** X24.  In every state the server reaches, every session has at most
    one write outstanding, a session that is not writing has nothing
    outstanding and nothing queued, and the messages written, then the
    one lost to a write error, then the one being written, then the
    queue, are the messages enqueued, in the order of enqueuing.
    [send_message] puts its argument at the back of the queue and, when
    no write is in progress, starts the write of it; and when a write
    completes without error its handler either dequeues the next
    message and starts the write of it, or, the queue being empty,
    marks the session idle. *)
Theorem one_write_in_order a (srv : Server) id s :
  Reachable a srv -> heap srv !! id = Some s ->
  (length (write_pending s) <= 1)%nat
  /\ written s ++ lost s ++ write_pending s ++ message_queue_ s
     = enqueued s
  /\ (writing_ s = false ->
      write_pending s = [] /\ message_queue_ s = [])
  /\ (lost s <> [] -> write_pending s = [] /\ writing_ s = true)
  /\ (forall msg,
        enqueued (send_message msg s) = enqueued s ++ [msg]
        /\ if writing_ s
           then write_pending (send_message msg s) = write_pending s
                /\ message_queue_ (send_message msg s)
                   = message_queue_ s ++ [msg]
           else writing_ (send_message msg s) = true
                /\ write_pending (send_message msg s) = [msg]
                /\ message_queue_ (send_message msg s) = [])
  /\ (forall wire srv', step srv (WriteDone id false wire) = Some srv' ->
      exists s', heap srv' !! id = Some s'
        /\ written s' = written s ++ write_pending s
        /\ delivered s' = delivered s ++ [wire]
        /\ lost s' = lost s /\ enqueued s' = enqueued s
        /\ match message_queue_ s with
           | [] => writing_ s' = false /\ write_pending s' = []
                   /\ message_queue_ s' = []
           | msg :: queue =>
               writing_ s' = true /\ write_pending s' = [msg]
               /\ message_queue_ s' = queue
           end).
Proof.
  intros Hreach Hs.
  pose proof (reachable_heap_ok a srv Hreach id s Hs) as Hok.
  pose proof Hok as (Hlen & Hord & Hidle & Hlost).
  do 4 (split; [done|]).
  split; [intros msg; by apply send_message_queues|].
  intros wire srv' Hstep. simpl in Hstep. rewrite Hs in Hstep.
  assert (write_pending s <> []) as Hwp.
  { intros E. by rewrite E in Hstep. }
  destruct (next_write wire s Hok Hwp) as (_ & Hw & Hd & Hq).
  exists (do_write (write_completed false wire s)).
  split; [|split; [done|split; [done|split; [|split; [|done]]]]].
  - destruct (write_pending s); [done|]. injection Hstep as <-.
    unfold on_write, onSession. simpl.
    by rewrite alter_alter_eq, lookup_alter_eq, Hs.
  - unfold write_completed, do_write.
    destruct (write_pending s); [done|]. simpl.
    by destruct (message_queue_ s).
  - unfold write_completed, do_write.
    destruct (write_pending s); [done|]. simpl.
    by destruct (message_queue_ s).
Qed.

(** C8, amended.  A session is registered when it is started, with its
    handshake outstanding and nothing enqueued to it; when the
    handshake completes without error the set of registered sessions
    is unchanged, the initial data is enqueued to the session and its
    first read is started; when the handshake fails the session is
    removed from the set. *)
Theorem registration_then_handshake (srv srv' : Server) id :
  (step srv (Accepted id) = Some srv' ->
   id ∈ sessions_ srv'
   /\ exists s', heap srv' !! id = Some s'
        /\ accept_pending s' = true /\ enqueued s' = [])
  /\ (step srv (HandshakeDone id false) = Some srv' ->
      sessions_ srv' = sessions_ srv
      /\ exists s s', heap srv !! id = Some s /\ accept_pending s = true
           /\ heap srv' !! id = Some s'
           /\ accept_pending s' = false /\ read_pending s' = true
           /\ enqueued s' = enqueued s ++ [initialDataCallback (app srv)])
  /\ (step srv (HandshakeDone id true) = Some srv' ->
      (id ∉ sessions_ srv')
      /\ exists s s', heap srv !! id = Some s /\ accept_pending s = true
           /\ heap srv' !! id = Some s' /\ enqueued s' = enqueued s).
Proof.
  split; [|split]; simpl; intros Hstep.
  - destruct (heap srv !! id) eqn:Hid; [done|]. injection Hstep as <-.
    unfold run, addSession, onSession. simpl.
    split; [by apply elem_of_union_l, elem_of_singleton|].
    rewrite lookup_alter_eq, lookup_insert_eq. simpl. by eexists.
  - destruct (heap srv !! id) as [s|] eqn:Hid; [|done].
    destruct (accept_pending s) eqn:Hap; [|done].
    injection Hstep as <-. unfold on_accept, onSession. simpl.
    split; [done|]. exists s.
    rewrite !lookup_alter_eq, Hid. simpl. eexists.
    do 3 (split; [done|]).
    unfold send_message. simpl.
    destruct (writing_ s); simpl; [done|].
    unfold do_write. simpl.
    by destruct (message_queue_ s ++ [_]).
  - destruct (heap srv !! id) as [s|] eqn:Hid; [|done].
    destruct (accept_pending s) eqn:Hap; [|done].
    injection Hstep as <-. unfold on_accept, removeSession, onSession.
    simpl. split.
    { intros [_ Hid']%elem_of_difference. apply Hid'.
      by apply elem_of_singleton. }
    exists s.
    rewrite !lookup_alter_eq, Hid. simpl. by eexists.
Qed.

End Server.

Lemma demoServer_reachable : cinemaReachable Main.shows demoServer.
Proof.
  apply (steps_reachable _ _ _ _ (initialServer Main.shows) _ demoEvents).
  - apply reach_init.
  - vm_compute. reflexivity.
Qed.

Lemma one_write_in_order_witness :
  cinemaReachable Main.shows demoServer
  /\ heap demoServer !! 0%nat = Some (demoSession 0)
  /\ length (write_pending (demoSession 0)) = 1%nat
  /\ length (message_queue_ (demoSession 0)) = 2%nat
  /\ written (demoSession 0) ++ lost (demoSession 0)
       ++ write_pending (demoSession 0) ++ message_queue_ (demoSession 0)
     = enqueued (demoSession 0).
Proof.
  split; [exact demoServer_reachable|].
  assert (heap demoServer !! 0%nat = Some (demoSession 0)) as Hs
    by (vm_compute; reflexivity).
  split; [exact Hs|]. split; [vm_compute; reflexivity|].
  split; [vm_compute; reflexivity|].
  apply (one_write_in_order handleMessage formatCinemaData
           formatUpdateData Main.shows demoServer 0%nat (demoSession 0)
           demoServer_reachable Hs).
Defined.


(** The first session is in the set while its handshake is still
    outstanding. *)
Lemma registered_before_handshake :
  ~ registeredAfterHandshake handleMessage formatCinemaData
      formatUpdateData Main.shows.
Proof.
  intros H.
  assert (cinemaReachable Main.shows afterConnect) as Hreach.
  { apply (reach_step _ _ _ _ (initialServer Main.shows) (Accepted 0)).
    - apply reach_init.
    - vm_compute. reflexivity. }
  specialize (H afterConnect 0%nat (async_accept newSession) Hreach).
  assert (accept_pending (async_accept newSession) = false) as Hfalse.
  { apply H.
    - vm_compute. reflexivity.
    - apply (bool_decide_unpack _). vm_compute. exact I. }
  discriminate Hfalse.
Qed.

Lemma registration_then_handshake_witness :
  cinemaStep (initialServer Main.shows) (Accepted 0) = Some afterConnect
  /\ 0%nat ∈ sessions_ afterConnect
  /\ exists s', heap afterConnect !! 0%nat = Some s'
       /\ accept_pending s' = true /\ enqueued s' = [].
Proof.
  assert (cinemaStep (initialServer Main.shows) (Accepted 0)
          = Some afterConnect) as Hstep by (vm_compute; reflexivity).
  split; [exact Hstep|].
  apply (registration_then_handshake handleMessage formatCinemaData
           formatUpdateData (initialServer Main.shows) afterConnect 0%nat).
  exact Hstep.
Defined.

End HubFacts.

(** ** Concurrent reservations *)

(** A call that succeeded has booked every seat it named. *)
Lemma bookSeatsOn_true_booked (l : list Z) (s s' : list bool) (seat : Z) :
  bookSeatsOn l s = (true, s') -> seat ∈ l -> seatRejected s' seat = true.
Proof.
  unfold bookSeatsOn. destruct (existsb (seatRejected s) l) eqn:E; [done|].
  intros [= <-] Hin.
  apply existsb_seatRejected_false in E.
  pose proof E as Hseat. rewrite Forall_forall in Hseat.
  destruct (Hseat seat Hin) as [Hrange Hfree].
  unfold seatRejected.
  rewrite lookup_foldl_markBooked
    by (eapply Forall_impl; [exact E | simpl; lia]).
  replace (Z.of_nat (Z.to_nat (seat - 1)) + 1) with seat by lia.
  rewrite bool_decide_eq_true_2 by done.
  rewrite Hfree. simpl. apply orb_true_r.
Qed.

Lemma bookSeatsOn_accepts (l : list Z) (s : list bool) :
  existsb (seatRejected s) l = false ->
  bookSeatsOn l s = (true, foldl markBooked s l).
Proof. unfold bookSeatsOn. by intros ->. Qed.

Lemma bookSeatsOn_rejects (l : list Z) (s : list bool) :
  existsb (seatRejected s) l = true -> bookSeatsOn l s = (false, s).
Proof. unfold bookSeatsOn. by intros ->. Qed.

Module ConcurrentFacts.
Import Concurrent.

Section Calls.
Variable seatNumbers : Tid -> list Z.
Variable seats0 : list bool.

Local Abbreviation thread_step := (thread_step seatNumbers).
Local Abbreviation Run := (Run seatNumbers).
Local Abbreviation serialized := (serialized seatNumbers seats0).
Local Abbreviation total_remaining := (total_remaining seatNumbers).

Lemma serialized_initial : serialized (initial seats0).
Proof. exists T1, seats0. simpl. split_and!; try done. Qed.

(** The effect of one statement on the caller that runs it. *)
Lemma stage_step req s0 s t c c' :
  seatNumbers t = req ->
  stage req s0 (pc_of t c) s -> ledger c = s ->
  started (pc_of t c) = true ->
  thread_step t c = Some c' ->
  stage req s0 (pc_of t c') (ledger c')
  /\ pc_of (other t) c' = pc_of (other t) c
  /\ acquired c' = acquired c
  /\ holder c' = (if holds (pc_of t c') then holder c else None).
Proof.
  intros Hreq Hstage Hs Hstarted Hstep. subst s.
  unfold thread_step in Hstep.
  destruct (pc_of t c) as [|[|seat todo]|[|seat todo]|r] eqn:Hpc;
    simpl in *; try done.
  - (* the check loop is over *)
    injection Hstep as <-. destruct Hstage as (Hl & checked & Hc & Hok).
    rewrite app_nil_r in Hc. subst checked.
    destruct t; simpl; rewrite Hreq, Hl; split_and!; try done;
      by exists [].
  - (* one seat checked *)
    destruct Hstage as (Hl & checked & Hc & Hok).
    destruct (seatRejected (ledger c) seat) eqn:Hrej;
      injection Hstep as <-.
    + assert (bookSeatsOn req s0 = (false, ledger c)) as Hb.
      { rewrite Hl. apply bookSeatsOn_rejects.
        rewrite Hc, existsb_app. simpl.
        rewrite <- Hl, Hrej. apply orb_true_r. }
      by destruct t; simpl; split_and!.
    + assert (existsb (seatRejected s0) (checked ++ [seat]) = false)
        as Hok'.
      { rewrite existsb_app. simpl. by rewrite Hok, <- Hl, Hrej. }
      destruct t; simpl; split_and!; try done;
        exists (checked ++ [seat]); by rewrite <- app_assoc.
  - (* the write loop is over *)
    injection Hstep as <-. destruct Hstage as (Hok & written & Hw & Hl).
    rewrite app_nil_r in Hw. subst written. rewrite Hl.
    by destruct t; simpl; split_and!; try apply bookSeatsOn_accepts.
  - (* one seat written *)
    injection Hstep as <-. destruct Hstage as (Hok & written & Hw & Hl).
    destruct t; simpl; split_and!; try done;
      exists (written ++ [seat]); rewrite <- app_assoc;
      (split; [done|]); by rewrite foldl_app, <- Hl.
Qed.

(** Taking the mutex. *)
Lemma start_step t c c' :
  pc_of t c = NotStarted -> thread_step t c = Some c' ->
  holder c = None
  /\ pc_of t c' = Checking (seatNumbers t)
  /\ pc_of (other t) c' = pc_of (other t) c
  /\ ledger c' = ledger c
  /\ holder c' = Some t
  /\ acquired c' = acquired c ++ [t].
Proof.
  intros Hpc Hstep. unfold thread_step in Hstep. rewrite Hpc in Hstep.
  destruct (holder c); [done|]. injection Hstep as <-.
  by destruct t.
Qed.

Lemma other_other t : other (other t) = t.
Proof. by destruct t. Qed.

(** A caller that has started and can move holds the mutex, and a
    caller that has moved has started. *)
Lemma step_inside t c c' :
  thread_step t c = Some c' ->
  (started (pc_of t c) = true -> holds (pc_of t c) = true)
  /\ started (pc_of t c') = true.
Proof.
  unfold thread_step.
  destruct (pc_of t c) as [|[|? ?]|[|? ?]|?] eqn:E; simpl;
    try done.
  - destruct (holder c); [done|]. intros [= <-]. by destruct t.
  - intros [= <-]. by destruct t.
  - destruct (seatRejected _ _); intros [= <-]; by destruct t.
  - intros [= <-]. by destruct t.
  - intros [= <-]. by destruct t.
Qed.

Lemma serialized_step t c c' :
  serialized c -> thread_step t c = Some c' -> serialized c'.
Proof.
  intros (first & s1 & Hu & Hv & Hord & Hhold & Hacq) Hstep.
  destruct (step_inside t c c' Hstep) as [Hin Hst'].
  destruct (started (pc_of t c)) eqn:Hst.
  - (* [t] is inside the call *)
    specialize (Hin eq_refl).
    destruct (decide (t = first)) as [->|Hne].
    + (* the other caller has not started *)
      assert (pc_of (other first) c = NotStarted) as Ho.
      { destruct (pc_of (other first) c) eqn:E; try done;
          destruct Hord as [r Hr]; try done;
          unfold thread_step in Hstep; by rewrite Hr in Hstep. }
      rewrite Ho in *. simpl in Hv. subst s1.
      destruct (stage_step _ _ _ first c c' eq_refl Hu eq_refl Hst Hstep)
        as (Hu' & Ho' & Hacq' & Hhold').
      exists first, (ledger c'). rewrite Ho', Ho. simpl.
      split_and!; try done.
      * rewrite Hhold', Hhold, Hin. by destruct (holds _).
      * by rewrite Hacq', Hacq, Hst, Hst'.
    + assert (t = other first) as -> by (by destruct t, first).
      destruct (Hord Hst) as [r Hr].
      destruct (stage_step _ _ _ (other first) c c' eq_refl Hv eq_refl
                  Hst Hstep) as (Hv' & Hu' & Hacq' & Hhold').
      rewrite other_other in Hu'.
      exists first, s1. rewrite Hu', Hr in *. simpl in *.
      split_and!; try done.
      * by exists r.
      * rewrite Hhold', Hhold, Hin. by destruct (holds _).
      * by rewrite Hacq', Hacq, Hst, Hst'.
  - (* [t] takes the mutex *)
    assert (pc_of t c = NotStarted) as Hpc
      by (by destruct (pc_of t c)).
    destruct (start_step t c c' Hpc Hstep)
      as (Hfree & Ht' & Ho' & Hl' & Hh' & Ha').
    destruct (decide (t = first)) as [->|Hne].
    + assert (pc_of (other first) c = NotStarted) as Ho.
      { destruct (pc_of (other first) c) eqn:E; try done;
          destruct Hord as [r Hr]; try done; by rewrite Hr in Hpc. }
      rewrite Hpc in Hu. rewrite Ho in Hv. simpl in Hu, Hv. subst s1.
      rewrite Hpc, Ho in Hacq. simpl in Hacq.
      exists first, seats0. rewrite Ht', Ho', Ho, Hl', Hh', Ha', Hacq.
      simpl. split_and!; try done. by exists [].
    + assert (t = other first) as -> by (by destruct t, first).
      rewrite other_other in Ho'. rewrite Hpc in Hv. simpl in Hv.
      subst s1. rewrite Hfree, Hpc in Hhold. rewrite Hpc in Hacq.
      simpl in Hhold, Hacq.
      destruct (pc_of first c) as [| | |r] eqn:Hu0; try done.
      * (* the caller that was to be first has not started: the roles
           are exchanged *)
        simpl in Hu, Hacq.
        exists (other first), seats0.
        rewrite other_other, Ht', Ho', Hl', Hh', Ha', Hacq, Hu.
        simpl. split_and!; try done. by exists [].
      * simpl in Hacq. exists first, (ledger c).
        rewrite Ht', Ho', Hl', Hh', Ha', Hacq. simpl.
        split_and!; try done; [by exists [] | by exists r].
Qed.

Lemma run_serialized c : Run (initial seats0) c -> serialized c.
Proof.
  intros Hrun. remember (initial seats0) as c0 eqn:Hc0.
  induction Hrun as [c0|c0 t c' c'' _ IH Hstep]; subst c0.
  - apply serialized_initial.
  - eapply serialized_step; [by apply IH | exact Hstep].
Qed.

(** Every statement brings the two calls nearer to their return. *)
Lemma step_decreases t c c' :
  thread_step t c = Some c' ->
  (total_remaining c' < total_remaining c)%nat.
Proof.
  unfold thread_step, total_remaining.
  destruct t; simpl.
  - destruct (pc1 c) as [|[|? ?]|[|? ?]|?]; simpl; try done.
    + destruct (holder c); [done|]. intros [= <-]. simpl. lia.
    + intros [= <-]. simpl. lia.
    + destruct (seatRejected _ _); intros [= <-]; simpl; lia.
    + intros [= <-]. simpl. lia.
    + intros [= <-]. simpl. lia.
  - destruct (pc2 c) as [|[|? ?]|[|? ?]|?]; simpl; try done.
    + destruct (holder c); [done|]. intros [= <-]. simpl. lia.
    + intros [= <-]. simpl. lia.
    + destruct (seatRejected _ _); intros [= <-]; simpl; lia.
    + intros [= <-]. simpl. lia.
    + intros [= <-]. simpl. lia.
Qed.

(** A caller inside the call can always move, and so can a caller
    that has not started when the mutex is free. *)
Lemma can_step t c :
  holds (pc_of t c) = true
  \/ (pc_of t c = NotStarted /\ holder c = None) ->
  exists c', thread_step t c = Some c'.
Proof.
  unfold thread_step.
  intros [Hin | [-> ->]]; [|by eexists].
  destruct (pc_of t c) as [|[|? ?]|[|? ?]|?]; try done;
    try (by eexists).
  destruct (seatRejected _ _); by eexists.
Qed.

Lemma no_deadlock c :
  serialized c ->
  (exists r1 r2, pc1 c = Returned r1 /\ pc2 c = Returned r2)
  \/ exists t c', thread_step t c = Some c'.
Proof.
  intros (first & s1 & Hu & Hv & Hord & Hhold & Hacq).
  destruct (pc_of first c) as [| | |r] eqn:E1.
  - right. exists first. apply can_step. right. split; [done|].
    rewrite Hhold. simpl.
    destruct (pc_of (other first) c); try done;
      by destruct Hord.
  - right. exists first. apply can_step. left. by rewrite E1.
  - right. exists first. apply can_step. left. by rewrite E1.
  - destruct (pc_of (other first) c) as [| | |r'] eqn:E2.
    + right. exists (other first). apply can_step. right.
      split; [done|]. by rewrite Hhold.
    + right. exists (other first). apply can_step. left. by rewrite E2.
    + right. exists (other first). apply can_step. left. by rewrite E2.
    + left. destruct first; simpl in *; eauto.
Qed.

(** C9, amended.  In every state that two concurrent calls of
    [bookSeats] on one show can reach: a caller in the check loop or in
    the write loop holds the mutex and the other caller is in neither;
    unless both calls have returned some caller can move, and every
    move brings the return nearer; and once both have returned, the
    results and the bitmap are those of running the two calls one
    after the other in the order in which they took the mutex, so that
    two calls naming a common seat never both succeed, and exactly one
    succeeds when each request on its own would have been accepted by
    the initial bitmap. *)
Theorem concurrent_bookSeats_serialize c :
  Run (initial seats0) c ->
  (forall t, holds (pc_of t c) = true ->
             holder c = Some t /\ holds (pc_of (other t) c) = false)
  /\ ((exists r1 r2, pc1 c = Returned r1 /\ pc2 c = Returned r2)
      \/ exists t c', thread_step t c = Some c')
  /\ (forall t c', thread_step t c = Some c' ->
                   (total_remaining c' < total_remaining c)%nat)
  /\ (forall r1 r2,
        pc1 c = Returned r1 -> pc2 c = Returned r2 ->
        (exists first,
            acquired c = [first; other first]
            /\ serial seatNumbers first seats0 = (r1, r2, ledger c))
        /\ (overlapping (seatNumbers T1) (seatNumbers T2) ->
            ~ (r1 = true /\ r2 = true))
        /\ (overlapping (seatNumbers T1) (seatNumbers T2) ->
            existsb (seatRejected seats0) (seatNumbers T1) = false ->
            existsb (seatRejected seats0) (seatNumbers T2) = false ->
            (r1 = true /\ r2 = false) \/ (r1 = false /\ r2 = true))).
Proof.
  intros Hrun. pose proof (run_serialized c Hrun) as Hser.
  split; [|split; [by apply no_deadlock|split;
                     [intros t c'; apply step_decreases|]]].
  - destruct Hser as (first & s1 & Hu & Hv & Hord & Hhold & Hacq).
    intros t Ht. destruct (decide (t = first)) as [->|Hne].
    + rewrite Ht in Hhold. split; [done|].
      destruct (pc_of (other first) c); try done;
        destruct Hord as [r Hr]; try done; by rewrite Hr in Ht.
    + assert (t = other first) as -> by (by destruct t, first).
      rewrite other_other.
      destruct Hord as [r Hr]; [by destruct (pc_of (other first) c)|].
      rewrite Hr in Hhold |- *. simpl in Hhold. by rewrite Ht in Hhold.
  - intros r1 r2 H1 H2.
    assert (exists first,
               acquired c = [first; other first]
               /\ serial seatNumbers first seats0 = (r1, r2, ledger c))
      as (first & Hacq & Hserial).
    { destruct Hser as (first & s1 & Hu & Hv & Hord & Hhold & Hacq).
      exists first. unfold serial.
      destruct first; simpl in *; rewrite H1, H2 in *; simpl in *;
        by rewrite Hu, Hv. }
    split; [by exists first|].
    assert (overlapping (seatNumbers T1) (seatNumbers T2) ->
            forall rf s,
              bookSeatsOn (seatNumbers first) seats0 = (rf, s) ->
              rf = true ->
              fst (bookSeatsOn (seatNumbers (other first)) s) = false)
      as Hsecond.
    { intros (seat & Hin1 & Hin2) rf s Hb ->.
      rewrite bookSeatsOn_rejects; [done|]. apply existsb_exists.
      exists seat. split.
      - apply list_elem_of_In. by destruct first.
      - eapply bookSeatsOn_true_booked; [exact Hb|]. by destruct first. }
    unfold serial in Hserial.
    destruct (bookSeatsOn (seatNumbers first) seats0) as [rf s] eqn:Hf.
    destruct (bookSeatsOn (seatNumbers (other first)) s) as [rs s']
      eqn:Hs.
    split.
    + intros Hover [-> ->].
      specialize (Hsecond Hover rf s eq_refl).
      rewrite Hs in Hsecond. simpl in Hsecond.
      destruct first; simplify_eq/=; by specialize (Hsecond eq_refl).
    + intros Hover Hok1 Hok2.
      assert (rf = true) as ->.
      { destruct first; simpl in Hf.
        - rewrite (bookSeatsOn_accepts _ _ Hok1) in Hf. congruence.
        - rewrite (bookSeatsOn_accepts _ _ Hok2) in Hf. congruence. }
      specialize (Hsecond Hover true s eq_refl eq_refl).
      rewrite Hs in Hsecond. simpl in Hsecond. subst rs.
      destruct first; simplify_eq/=; eauto.
Qed.

Lemma exec_Run schedule c0 c c' :
  Run c0 c -> exec seatNumbers schedule c = Some c' -> Run c0 c'.
Proof.
  revert c. induction schedule as [|t schedule IH]; intros c Hrun; simpl.
  - by intros [= <-].
  - destruct (thread_step t c) as [c1|] eqn:Hstep; [|done].
    apply IH. by eapply run_step.
Qed.

End Calls.

(** Both calls fail when the common seat is already booked. *)
Lemma both_calls_can_fail :
  ~ exactlyOneSucceeds bothAskSeat1 Main.pattern1.
Proof.
  intros H.
  assert (Run bothAskSeat1 (initial Main.pattern1)
            (mkConf Main.pattern1 None (Returned false) (Returned false)
                    [T1; T2])) as Hrun.
  { apply (exec_Run bothAskSeat1 [T1; T1; T2; T2] _
             (initial Main.pattern1));
      [apply run_refl | vm_compute; reflexivity]. }
  destruct (H ltac:(exists 1; split; left) _ false false Hrun eq_refl eq_refl)
    as [[? _] | [_ ?]]; discriminate.
Qed.

Lemma concurrent_bookSeats_serialize_witness :
  Run askAdjacent (initial (replicate 20 false)) afterSecondWins
  /\ pc1 afterSecondWins = Returned false
  /\ pc2 afterSecondWins = Returned true
  /\ exists first,
       acquired afterSecondWins = [first; other first]
       /\ serial askAdjacent first (replicate 20 false)
          = (false, true, ledger afterSecondWins).
Proof.
  assert (Run askAdjacent (initial (replicate 20 false)) afterSecondWins)
    as Hrun.
  { apply (exec_Run askAdjacent secondWins _
             (initial (replicate 20 false)));
      [apply run_refl | vm_compute; reflexivity]. }
  split; [exact Hrun|]. split; [reflexivity|]. split; [reflexivity|].
  apply (concurrent_bookSeats_serialize askAdjacent (replicate 20 false)
           afterSecondWins Hrun); reflexivity.
Defined.

End ConcurrentFacts.

(** ** The snapshot and its parser *)

Lemma unlines_app (a b : list cstring) :
  unlines (a ++ b) = unlines a ++ unlines b.
Proof. apply flat_map_app. Qed.

Lemma unlines_cons (line : cstring) (lines : list cstring) :
  unlines (line :: lines) = line ++ newline :: unlines lines.
Proof. unfold unlines. simpl. by rewrite <- app_assoc. Qed.

Lemma formatShow_lines (show : Shows) :
  formatShow show = unlines [movieLine show; seatsLine show].
Proof.
  unfold formatShow, unlines, movieLine, seatsLine, seatsText.
  cbn [flat_map]. rewrite app_nil_r.
  repeat rewrite <- app_assoc. reflexivity.
Qed.

Lemma formatShows_lines (shows : list Shows) (t : cstring) :
  flat_map (fun show => if bool_decide (theater show = t)
                        then formatShow show else []) shows
  = unlines (flat_map (showLines t) shows).
Proof.
  induction shows as [|show shows IH]; [done|].
  cbn [flat_map]. rewrite unlines_app, IH. f_equal.
  unfold showLines. case_bool_decide; [apply formatShow_lines | done].
Qed.

Lemma formatTheater_lines (shows : list Shows) (t : cstring) :
  formatTheater shows t = unlines (theaterLines shows t).
Proof.
  unfold formatTheater, theaterLines.
  rewrite formatShows_lines, unlines_cons, unlines_app, <- ?app_assoc.
  reflexivity.
Qed.

Lemma formatBody_lines (shows : list Shows) (ts : list cstring) :
  flat_map (formatTheater shows) ts
  = unlines (flat_map (theaterLines shows) ts).
Proof.
  induction ts as [|t ts IH]; [done|].
  cbn [flat_map]. by rewrite unlines_app, IH, formatTheater_lines.
Qed.

Lemma formatCinemaData_lines (shows : list Shows) :
  formatCinemaData shows = unlines (snapshotLines shows).
Proof.
  unfold formatCinemaData, snapshotLines, formatBody.
  rewrite unlines_cons, unlines_app, formatBody_lines.
  reflexivity.
Qed.

Lemma getlines_line (line rest : cstring) :
  newline ∉ line ->
  getlines newline (line ++ newline :: rest) = line :: getlines newline rest.
Proof.
  induction line as [|c line IH]; intros Hline.
  - reflexivity.
  - apply not_elem_of_cons in Hline as [Hc Hline].
    cbn [app getlines]. rewrite IH by done.
    destruct (Ascii.eqb c newline) eqn:E; [|done].
    by apply Ascii.eqb_eq in E.
Qed.

Lemma getlines_unlines (lines : list cstring) :
  Forall (fun line => newline ∉ line) lines ->
  getlines newline (unlines lines) = lines.
Proof.
  induction 1 as [|line lines Hline _ IH]; [done|].
  by rewrite unlines_cons, getlines_line, IH.
Qed.

(** *** Searching *)

(** A needle whose first byte does not occur before it is found where it
    stands. *)
Lemma find_first (a : ascii) (needle before after : cstring) :
  a ∉ before ->
  find (a :: needle) (before ++ (a :: needle) ++ after)
  = Some (length before).
Proof.
  induction before as [|c before IH]; intros Ha.
  - apply find_starts_with. exact (starts_with_app (a :: needle) after).
  - apply not_elem_of_cons in Ha as [Hc Ha].
    rewrite <- app_comm_cons. cbn [find starts_with length].
    assert (Ascii.eqb a c = false) as -> by by apply Ascii.eqb_neq.
    cbn [andb]. by rewrite IH.
Qed.

(** The first [" ("] after a title without a parenthesis. *)
Lemma find_space_paren (title rest : cstring) :
  "("%char ∉ title ->
  find (lit " (") (title ++ lit " (" ++ rest) = Some (length title).
Proof.
  induction title as [|c title IH]; intros Ht.
  - reflexivity.
  - apply not_elem_of_cons in Ht as [Hc Ht].
    rewrite <- app_comm_cons. cbn [length find]. rewrite IH by done.
    assert (starts_with (lit " (") (c :: title ++ lit " (" ++ rest) = false)
      as ->; [|done].
    change (lit " (") with [" "%char; "("%char]. cbn [starts_with].
    destruct title as [|d title]; cbn [app].
    + change (lit " (" ++ rest) with (" "%char :: "("%char :: rest).
      cbn. apply andb_false_r.
    + apply not_elem_of_cons in Ht as [Hd _].
      assert (Ascii.eqb "(" d = false) as -> by by apply Ascii.eqb_neq.
      apply andb_false_r.
Qed.

(** *** Decimal numbers *)

Lemma decimal_ok_20 (x : Z) : 0 <= x <= 20 -> decimal_ok x = true.
Proof.
  intros Hx.
  assert (In x (map Z.of_nat (seq 0 21))) as Hin.
  { apply in_map_iff. exists (Z.to_nat x). split; [lia|].
    apply in_seq. lia. }
  clear Hx. revert x Hin. apply forallb_forall. vm_compute. reflexivity.
Qed.

Lemma isdigit_not_space (c : ascii) : isdigit c = true -> isspace c = false.
Proof. by destruct c as [[] [] [] [] [] [] [] []]. Qed.

Lemma seatByte_plain (c : ascii) :
  seatByte c = true -> c <> newline /\ c <> "("%char.
Proof. by destruct c as [[] [] [] [] [] [] [] []]. Qed.

(** *** Tokens *)

Lemma tokens_word (w rest : cstring) (sp : ascii) :
  w <> [] -> forallb (fun c => negb (isspace c)) w = true ->
  isspace sp = true ->
  tokens (w ++ sp :: rest) = w :: tokens rest.
Proof.
  intros Hne Hw Hsp. induction w as [|c w IH]; [done|].
  cbn [forallb] in Hw. apply andb_true_iff in Hw as [Hc Hw].
  apply negb_true_iff in Hc.
  assert (tokens (sp :: rest) = tokens rest) as Hskip.
  { cbn [tokens]. by rewrite Hsp. }
  destruct w as [|d w].
  - cbn [app tokens]. by rewrite Hc, !Hsp.
  - pose proof Hw as Hd. cbn [forallb] in Hd.
    apply andb_true_iff in Hd as [Hd _]. apply negb_true_iff in Hd.
    rewrite <- app_comm_cons.
    change (tokens (c :: (d :: w) ++ sp :: rest))
      with (if isspace c then tokens ((d :: w) ++ sp :: rest)
            else if isspace d then [c] :: tokens ((d :: w) ++ sp :: rest)
                 else match tokens ((d :: w) ++ sp :: rest) with
                      | [] => [[c]]
                      | t :: ts => (c :: t) :: ts
                      end).
    by rewrite Hc, Hd, IH.
Qed.

Lemma decimal_word (x : Z) :
  0 <= x <= 20 ->
  to_string x <> []
  /\ forallb (fun c => negb (isspace c)) (to_string x) = true
  /\ forallb isdigit (to_string x) = true
  /\ stoi (to_string x) = Some x
  /\ Client.stripComma (to_string x) = to_string x
  /\ Client.stripComma (to_string x ++ [comma]) = to_string x.
Proof.
  intros Hx. pose proof (decimal_ok_20 x Hx) as H. unfold decimal_ok in H.
  repeat (apply andb_true_iff in H as [H ?]).
  repeat match goal with
         | H : bool_decide _ = true |- _ => apply bool_decide_eq_true in H
         | H : negb (bool_decide _) = true |- _ =>
             apply negb_true_iff, bool_decide_eq_false in H
         end.
  split_and!; try done.
  apply forallb_forall. intros c Hc. apply negb_true_iff, isdigit_not_space.
  revert c Hc. by apply forallb_forall.
Qed.

Lemma markAvailable_decimal (st : list bool) (x : Z) :
  1 <= x <= 20 ->
  Client.markAvailable st (to_string x) = makeAvailable st x
  /\ Client.markAvailable st (to_string x ++ [comma]) = makeAvailable st x.
Proof.
  intros Hx.
  destruct (decimal_word x) as (_ & _ & _ & Hstoi & Hs1 & Hs2); [lia|].
  unfold Client.markAvailable. rewrite Hs1, Hs2, Hstoi.
  assert ((1 <=? x) && (x <=? 20) = true) as ->; [|done].
  apply andb_true_intro. split; apply Z.leb_le; lia.
Qed.

Lemma seatList_cons (x y : Z) (l : list Z) :
  seatList (x :: y :: l) = to_string x ++ lit ", " ++ seatList (y :: l).
Proof. reflexivity. Qed.

(** The token loop on the printed seat list marks the seats listed. *)
Lemma parse_seatList (l : list Z) (st : list bool) :
  l <> [] -> Forall (fun x => 1 <= x <= 20) l ->
  foldl Client.markAvailable st (tokens (seatList l ++ lit " "))
  = foldl makeAvailable st l.
Proof.
  intros Hne Hl. revert st.
  induction Hl as [|x l Hx Hl IH]; intros st; [done|].
  destruct (decimal_word x) as (Hw & Hsp & _); [lia|].
  destruct (markAvailable_decimal st x Hx) as [Hm1 Hm2].
  destruct l as [|y l].
  - change (seatList [x] ++ lit " ") with (to_string x ++ " "%char :: []).
    rewrite tokens_word by done.
    cbn [tokens foldl]. by rewrite Hm1.
  - rewrite seatList_cons.
    assert ((to_string x ++ lit ", " ++ seatList (y :: l)) ++ lit " "
            = (to_string x ++ [comma])
                ++ " "%char :: (seatList (y :: l) ++ lit " ")) as ->.
    { rewrite <- !app_assoc. reflexivity. }
    rewrite tokens_word.
    + cbn [foldl]. rewrite Hm2. by apply IH.
    + by destruct (to_string x).
    + rewrite forallb_app, Hsp. reflexivity.
    + reflexivity.
Qed.

(** *** The bitmap rebuilt from the list of available seats *)

Lemma lookup_foldl_makeAvailable (l : list Z) (s : list bool) (i : nat) :
  Forall (fun seat => 1 <= seat) l ->
  foldl makeAvailable s l !! i =
  if bool_decide (Z.of_nat i + 1 ∈ l) then (fun _ => false) <$> s !! i
  else s !! i.
Proof. by apply lookup_foldl_set. Qed.

Lemma elem_of_availableFrom (k : nat) (s : list bool) (n : Z) :
  (k + length s <= 255)%nat ->
  n ∈ availableFrom k s <->
  exists i, n = Z.of_nat (k + i) + 1 /\ s !! i = Some false.
Proof.
  revert k. induction s as [|b s IH]; intros k Hk; cbn [availableFrom].
  - split; [by intros ?%elem_of_nil | by intros (i & _ & ?)].
  - cbn [length] in Hk.
    assert (to_uint8 (Z.of_nat k + 1) = Z.of_nat (k + 0) + 1) as Hwrap.
    { unfold to_uint8. rewrite Z.mod_small; lia. }
    specialize (IH (S k) ltac:(lia)).
    destruct b.
    + rewrite IH. split.
      * intros (i & -> & Hi). exists (S i). split; [lia | done].
      * intros ([|i] & -> & Hi); [done|]. exists i. split; [lia | done].
    + rewrite elem_of_cons, IH, Hwrap. split.
      * intros [-> | (i & -> & Hi)]; [by exists 0%nat|].
        exists (S i). split; [lia | done].
      * intros ([|i] & -> & Hi); [by left|]. right.
        exists i. split; [lia | done].
Qed.

Lemma getAvailableSeats_range (sh : Shows) :
  length (seats sh) = 20%nat ->
  Forall (fun x => 1 <= x <= 20) (getAvailableSeats sh).
Proof.
  intros H20. apply Forall_forall. intros n Hn.
  apply elem_of_availableFrom in Hn as (i & -> & Hi); [|lia].
  apply lookup_lt_Some in Hi. lia.
Qed.

Lemma length_getAvailableSeats (sh : Shows) :
  (length (getAvailableSeats sh) <= length (seats sh))%nat.
Proof.
  unfold getAvailableSeats. generalize 0%nat.
  induction (seats sh) as [|b s IH]; intros k; cbn [availableFrom length].
  - done.
  - specialize (IH (S k)). destruct b; cbn [length]; lia.
Qed.

(** Marking the available seats of a 20-seat bitmap on 20 booked seats
    gives the bitmap back. *)
Lemma rebuild_seats (sh : Shows) :
  length (seats sh) = 20%nat ->
  foldl makeAvailable (replicate 20 true) (getAvailableSeats sh) = seats sh.
Proof.
  intros H20. apply list_eq. intros i.
  rewrite lookup_foldl_makeAvailable.
  2:{ eapply Forall_impl; [by apply getAvailableSeats_range|].
      simpl. lia. }
  case_bool_decide as Hin.
  - apply elem_of_availableFrom in Hin as (j & Hj & Hfree); [|lia].
    assert (j = i) as -> by lia.
    rewrite Hfree, lookup_replicate_2; [done|].
    apply lookup_lt_Some in Hfree. lia.
  - destruct (seats sh !! i) as [[]|] eqn:Hi.
    + rewrite lookup_replicate_2; [done|].
      apply lookup_lt_Some in Hi. lia.
    + destruct Hin. apply elem_of_availableFrom; [lia|]. by exists i.
    + apply lookup_ge_None in Hi. apply lookup_ge_None.
      rewrite length_replicate. lia.
Qed.

(** The bitmap that the parser builds from the text between
    "Available seats:" and "(Total:". *)
Lemma seatStatusOf_seatsText (sh : Shows) :
  length (seats sh) = 20%nat ->
  Client.seatStatusOf (lit " " ++ seatsText (getAvailableSeats sh) ++ lit " ")
  = seats sh.
Proof.
  intros H20. rewrite <- (rebuild_seats sh H20).
  pose proof (getAvailableSeats_range sh H20) as Hrange.
  unfold Client.seatStatusOf.
  destruct (getAvailableSeats sh) as [|x l] eqn:E.
  - vm_compute. reflexivity.
  - rewrite <- E in *.
    assert (seatsText (getAvailableSeats sh)
            = seatList (getAvailableSeats sh)) as ->.
    { by rewrite E. }
    change (tokens (lit " " ++ ?s)) with (tokens s).
    apply parse_seatList; [by rewrite E | done].
Qed.

(** *** The lines as the parser sees them *)

Lemma seatList_bytes (l : list Z) :
  Forall (fun x => 1 <= x <= 20) l -> forallb seatByte (seatList l) = true.
Proof.
  induction 1 as [|x l Hx Hl IH]; [done|].
  destruct (decimal_word x) as (_ & _ & Hd & _); [lia|].
  assert (forallb seatByte (to_string x) = true) as Hx'.
  { apply forallb_forall. intros c Hc. unfold seatByte.
    rewrite forallb_forall in Hd. by rewrite (Hd c Hc). }
  destruct l as [|y l]; [done|].
  rewrite seatList_cons, !forallb_app, Hx', IH. reflexivity.
Qed.

Lemma seatsText_plain (sh : Shows) :
  length (seats sh) = 20%nat ->
  (newline ∉ seatsText (getAvailableSeats sh))
  /\ ("("%char ∉ seatsText (getAvailableSeats sh)).
Proof.
  intros H20. pose proof (getAvailableSeats_range sh H20) as Hrange.
  destruct (getAvailableSeats sh) as [|x l] eqn:E.
  - split; closed_notin.
  - assert (seatsText (x :: l) = seatList (x :: l)) as -> by done.
    pose proof (seatList_bytes _ Hrange) as Hb.
    rewrite forallb_forall in Hb.
    split; intros Hin%list_elem_of_In%Hb%seatByte_plain; by destruct Hin.
Qed.

Lemma count_plain (sh : Shows) :
  length (seats sh) = 20%nat ->
  newline ∉ to_string (Z.of_nat (length (getAvailableSeats sh))).
Proof.
  intros H20. pose proof (length_getAvailableSeats sh) as Hlen.
  destruct (decimal_word (Z.of_nat (length (getAvailableSeats sh))))
    as (_ & _ & Hd & _); [lia|].
  rewrite forallb_forall in Hd.
  intros Hin%list_elem_of_In%Hd. by vm_compute in Hin.
Qed.

Lemma movieLine_plain (sh : Shows) :
  wellFormed sh -> newline ∉ movieLine sh.
Proof.
  intros (_ & _ & Hm & _ & _ & _ & Hd & _). unfold movieLine.
  rewrite !not_elem_of_app. split_and!; try done; closed_notin.
Qed.

Lemma seatsLine_plain (sh : Shows) :
  wellFormed sh -> newline ∉ seatsLine sh.
Proof.
  intros (_ & _ & _ & _ & _ & _ & _ & _ & H20). unfold seatsLine.
  rewrite !not_elem_of_app.
  split_and!; try closed_notin;
    [by apply seatsText_plain | by apply count_plain].
Qed.

Lemma elem_of_theatersInOrder (shows : list Shows) (t : cstring) :
  t ∈ theatersInOrder shows <-> exists sh, sh ∈ shows /\ theater sh = t.
Proof.
  unfold theatersInOrder.
  assert (forall acc,
             t ∈ foldl (fun theaters show =>
                          if bool_decide (theater show ∈ theaters)
                          then theaters else theaters ++ [theater show])
                       acc shows
             <-> t ∈ acc \/ exists sh, sh ∈ shows /\ theater sh = t) as H.
  { induction shows as [|sh shows IH]; intros acc; cbn [foldl].
    - split; [by left|]. intros [?|(sh & ?%elem_of_nil & _)]; done.
    - rewrite IH. case_bool_decide as Hin.
      + split.
        * intros [?|(s & Hs & Ht)]; [by left|].
          right. exists s. split; [by right | done].
        * intros [?|(s & [->|Hs]%elem_of_cons & Ht)];
            [by left | left; by subst | right; by exists s].
      + rewrite elem_of_app, list_elem_of_singleton. split.
        * intros [[?| ->]|(s & Hs & Ht)];
            [by left | right; exists sh; split; [left | done]
            | right; exists s; split; [by right | done]].
        * intros [?|(s & [->|Hs]%elem_of_cons & Ht)];
            [left; by left | left; by right | right; by exists s]. }
  rewrite H. split; [|by right]. by intros [?%elem_of_nil|?].
Qed.

Lemma snapshotLines_plain (shows : list Shows) :
  Forall wellFormed shows ->
  Forall (fun line => newline ∉ line) (snapshotLines shows).
Proof.
  intros Hwf. unfold snapshotLines.
  apply Forall_cons. split; [closed_notin|].
  apply Forall_app. split; [|by repeat constructor; closed_notin].
  apply Forall_flat_map, Forall_forall. intros t Ht.
  apply elem_of_theatersInOrder in Ht as (sh0 & Hsh0 & <-).
  rewrite Forall_forall in Hwf.
  unfold theaterLines. apply Forall_cons. split.
  { rewrite not_elem_of_app. split; [closed_notin|].
    by destruct (Hwf sh0 Hsh0) as (_ & ? & _). }
  apply Forall_app. split; [|by repeat constructor; closed_notin].
  apply Forall_flat_map, Forall_forall. intros sh Hsh.
  unfold showLines. case_bool_decide; [|constructor].
  repeat constructor;
    [by apply movieLine_plain, Hwf | by apply seatsLine_plain, Hwf].
Qed.

(** *** The parser, line by line *)

Lemma parseLine_theater (st : Client.Parser) (t : cstring) :
  Client.parseLine st (lit "Theater: " ++ t)
  = Client.mkParser (Client.shows_ st) t None.
Proof.
  unfold Client.parseLine.
  rewrite bool_decide_eq_true_2; [done|].
  apply find_starts_with, starts_with_app.
Qed.

(** A line that is none of the three kinds leaves the parser as it is. *)
Lemma parseLine_other (st : Client.Parser) (line : cstring) :
  starts_with Client.THEATER_PREFIX line = false ->
  starts_with Client.MOVIE_PREFIX line = false ->
  find (lit "    Available seats:") line = None ->
  Client.parseLine st line = st.
Proof.
  intros H1 H2 H3. unfold Client.parseLine.
  rewrite (bool_decide_eq_false_2 (find Client.THEATER_PREFIX line = _))
    by (by rewrite find_starts_with, H1).
  rewrite (bool_decide_eq_false_2 (find Client.MOVIE_PREFIX line = _))
    by (by rewrite find_starts_with, H2).
  rewrite H3. reflexivity.
Qed.

Lemma parseLine_movie (st : Client.Parser) (sh : Shows) :
  wellFormed sh -> Client.currentTheater st <> [] ->
  Client.parseLine st (movieLine sh)
  = Client.mkParser
      (Client.shows_ st
         ++ [newShows (movie sh) (dateTime sh) (Client.currentTheater st)])
      (Client.currentTheater st)
      (Some (length (Client.shows_ st))).
Proof.
  intros (_ & _ & _ & Hm1 & Hm2 & Hd0 & _ & Hd2 & _) Ht.
  unfold Client.parseLine, movieLine.
  rewrite bool_decide_eq_false_2.
  2:{ rewrite find_starts_with. generalize (movie sh ++ lit " (" ++
        dateTime sh ++ lit ")"). by intros ?. }
  rewrite bool_decide_eq_true_2
    by (apply find_starts_with, starts_with_app).
  rewrite (bool_decide_eq_false_2 (Client.currentTheater st = [])) by done.
  cbn [andb negb].
  change (substr_from Client.MOVIE_PREFIX_LEN (lit "  Movie: " ++ ?x))
    with x.
  rewrite find_space_paren by done.
  assert (find (lit "(") (movie sh ++ lit " (" ++ dateTime sh ++ lit ")")
          = Some (length (movie sh) + 1)%nat) as ->.
  { change (lit " (") with ([" "%char] ++ ["("%char]).
    rewrite <- (app_assoc [" "%char]), (app_assoc (movie sh)).
    rewrite (find_first "(" [] (movie sh ++ [" "%char])).
    - by rewrite length_app.
    - rewrite not_elem_of_app. split; [done | closed_notin]. }
  assert (find (lit ")") (movie sh ++ lit " (" ++ dateTime sh ++ lit ")")
          = Some (length (movie sh) + 2 + length (dateTime sh))%nat) as ->.
  { rewrite !app_assoc.
    pose proof (find_first ")" [] ((movie sh ++ lit " (") ++ dateTime sh) [])
      as Hfind.
    change ([")"%char] ++ []) with [")"%char] in Hfind.
    change (lit ")") with [")"%char]. rewrite Hfind.
    - by rewrite !length_app.
    - rewrite !not_elem_of_app. split_and!; try done. closed_notin. }
  cbn [Client.succ_pos].
  rewrite bool_decide_eq_true_2.
  2:{ destruct (dateTime sh); [done|]. simpl. lia. }
  unfold substr.
  replace (length (movie sh) + 2 + length (dateTime sh)
           - S (length (movie sh) + 1))%nat
    with (length (dateTime sh)) by lia.
  assert (take (length (movie sh))
            (drop 0 (movie sh ++ lit " (" ++ dateTime sh ++ lit ")"))
          = movie sh) as ->.
  { apply take_app_length. }
  assert (drop (S (length (movie sh) + 1))
            (movie sh ++ lit " (" ++ dateTime sh ++ lit ")")
          = dateTime sh ++ lit ")") as ->.
  { rewrite (app_assoc (movie sh)).
    apply drop_app_length'. rewrite length_app. simpl. lia. }
  by rewrite take_app_length.
Qed.

Lemma parseLine_seats (st : Client.Parser) (sh : Shows) (i : nat) :
  length (seats sh) = 20%nat -> Client.currentShow st = Some i ->
  Client.parseLine st (seatsLine sh)
  = Client.mkParser
      (alter (Client.updateSeatAvailability (seats sh)) i (Client.shows_ st))
      (Client.currentTheater st)
      (Some i).
Proof.
  intros H20 Hcur. unfold Client.parseLine, seatsLine.
  destruct (seatsText_plain sh H20) as [_ Hparen].
  generalize (to_string (Z.of_nat (length (getAvailableSeats sh)))).
  intros count.
  rewrite (bool_decide_eq_false_2 (find Client.THEATER_PREFIX _ = _)).
  2:{ rewrite find_starts_with.
      generalize (seatsText (getAvailableSeats sh) ++ lit " (Total: "
                    ++ count ++ lit "/20)"). by intros ?. }
  rewrite (bool_decide_eq_false_2 (find Client.MOVIE_PREFIX _ = _)).
  2:{ rewrite find_starts_with.
      generalize (seatsText (getAvailableSeats sh) ++ lit " (Total: "
                    ++ count ++ lit "/20)"). by intros ?. }
  cbn [andb].
  rewrite bool_decide_eq_true_2.
  2:{ change (lit "    Available seats: ")
        with (lit "    Available seats:" ++ lit " ").
      rewrite <- app_assoc.
      apply (find_occurrence (lit "    Available seats:") []). }
  rewrite Hcur.
  assert (find (lit ":")
            (lit "    Available seats: " ++ seatsText (getAvailableSeats sh)
               ++ lit " (Total: " ++ count ++ lit "/20)")
          = Some 19%nat) as ->.
  { change (lit "    Available seats: ")
      with (lit "    Available seats" ++ [":"%char] ++ lit " ").
    rewrite <- !app_assoc.
    rewrite (find_first ":" [] (lit "    Available seats")); [done|].
    closed_notin. }
  cbn [Client.succ_pos].
  change (substr_from 20 (lit "    Available seats: " ++ ?x))
    with (lit " " ++ x).
  assert (find (lit "(Total:")
            (lit " " ++ seatsText (getAvailableSeats sh) ++ lit " (Total: "
               ++ count ++ lit "/20)")
          = Some (length (lit " " ++ seatsText (getAvailableSeats sh)
                            ++ lit " "))) as ->.
  { change (lit " (Total: ")
      with (lit " " ++ ("("%char :: lit "Total:") ++ lit " ").
    rewrite <- !app_assoc.
    rewrite !(app_assoc _ _ (("("%char :: lit "Total:") ++ _)).
    rewrite (find_first "(" (lit "Total:")
               ((lit " " ++ seatsText (getAvailableSeats sh)) ++ lit " ")).
    - by rewrite <- app_assoc.
    - rewrite !not_elem_of_app. split_and!; try done; closed_notin. }
  unfold substr. rewrite drop_0.
  assert (take (length (lit " " ++ seatsText (getAvailableSeats sh)
                          ++ lit " "))
            (lit " " ++ seatsText (getAvailableSeats sh) ++ lit " (Total: "
               ++ count ++ lit "/20)")
          = lit " " ++ seatsText (getAvailableSeats sh) ++ lit " ") as ->.
  { assert (lit " " ++ seatsText (getAvailableSeats sh) ++ lit " (Total: "
              ++ count ++ lit "/20)"
            = (lit " " ++ seatsText (getAvailableSeats sh) ++ lit " ")
                ++ lit "(Total: " ++ count ++ lit "/20)") as ->.
    { change (lit " (Total: ") with (lit " " ++ lit "(Total: ").
      by rewrite <- !app_assoc. }
    apply take_app_length. }
  by rewrite seatStatusOf_seatsText.
Qed.

(** The two lines of a show, read under the heading of its theater, add
    the show to the list. *)
Lemma parse_showLines (st : Client.Parser) (sh : Shows) :
  wellFormed sh -> Client.currentTheater st = theater sh ->
  foldl Client.parseLine st [movieLine sh; seatsLine sh]
  = Client.mkParser (Client.shows_ st ++ [sh]) (theater sh)
                    (Some (length (Client.shows_ st))).
Proof.
  intros Hwf Ht. pose proof Hwf as (Hne & _ & _ & _ & _ & _ & _ & _ & H20).
  cbn [foldl]. rewrite parseLine_movie by (by rewrite ?Ht).
  rewrite (parseLine_seats _ sh (length (Client.shows_ st))) by done.
  cbn [Client.shows_ Client.currentTheater]. rewrite Ht. f_equal.
  rewrite <- (Nat.add_0_r (length (Client.shows_ st))) at 1.
  rewrite alter_app_r. f_equal. cbn.
  unfold Client.updateSeatAvailability, newShows. cbn [seats].
  rewrite bool_decide_eq_true_2 by (by rewrite H20).
  unfold set_seats. cbn. by destruct sh.
Qed.

Lemma parse_theater_shows (t : cstring) (shows : list Shows)
    (st : Client.Parser) :
  Forall wellFormed shows -> Client.currentTheater st = t ->
  exists cur,
    foldl Client.parseLine st (flat_map (showLines t) shows)
    = Client.mkParser
        (Client.shows_ st ++ filter (fun show => theater show = t) shows)
        t cur.
Proof.
  intros Hwf. revert st.
  induction Hwf as [|sh shows Hsh _ IH]; intros st Ht.
  - exists (Client.currentShow st). cbn. rewrite app_nil_r.
    destruct st. by simplify_eq/=.
  - cbn [flat_map]. rewrite foldl_app, filter_cons.
    unfold showLines at 1. case_decide as Hth.
    + rewrite bool_decide_eq_true_2 by done.
      rewrite parse_showLines by congruence.
      destruct (IH (Client.mkParser (Client.shows_ st ++ [sh]) (theater sh)
                      (Some (length (Client.shows_ st)))) Hth)
        as [cur ->].
      exists cur. cbn [Client.shows_]. by rewrite <- app_assoc.
    + rewrite bool_decide_eq_false_2 by done. cbn [foldl].
      by apply IH.
Qed.

Lemma parse_theaterLines (t : cstring) (shows : list Shows)
    (st : Client.Parser) :
  Forall wellFormed shows ->
  exists cur,
    foldl Client.parseLine st (theaterLines shows t)
    = Client.mkParser
        (Client.shows_ st ++ filter (fun show => theater show = t) shows)
        t cur.
Proof.
  intros Hwf. unfold theaterLines. cbn [foldl].
  rewrite parseLine_theater, foldl_app.
  destruct (parse_theater_shows t shows
              (Client.mkParser (Client.shows_ st) t None) Hwf eq_refl)
    as [cur ->].
  exists cur. cbn [foldl]. by apply parseLine_other.
Qed.

Lemma parse_theaters (ts : list cstring) (shows : list Shows)
    (st : Client.Parser) :
  Forall wellFormed shows ->
  Client.shows_
    (foldl Client.parseLine st (flat_map (theaterLines shows) ts))
  = Client.shows_ st
      ++ flat_map (fun t => filter (fun show => theater show = t) shows) ts.
Proof.
  intros Hwf. revert st. induction ts as [|t ts IH]; intros st.
  - cbn. by rewrite app_nil_r.
  - cbn [flat_map]. rewrite foldl_app.
    destruct (parse_theaterLines t shows st Hwf) as [cur ->].
    rewrite IH. cbn [Client.shows_]. by rewrite <- app_assoc.
Qed.

(** *** Regrouping keeps every show *)

Lemma NoDup_theatersInOrder (shows : list Shows) :
  NoDup (theatersInOrder shows).
Proof.
  unfold theatersInOrder.
  assert (forall acc,
             NoDup acc ->
             NoDup (foldl (fun theaters show =>
                             if bool_decide (theater show ∈ theaters)
                             then theaters else theaters ++ [theater show])
                          acc shows)) as H.
  { induction shows as [|sh shows IH]; intros acc Hacc; cbn [foldl];
      [done|].
    apply IH. case_bool_decide as Hin; [done|].
    apply NoDup_app. split_and!; [done | | apply NoDup_singleton].
    intros x Hx ->%list_elem_of_singleton. done. }
  apply H, NoDup_nil_2.
Qed.

Lemma grouped_filter (ts : list cstring) (shows : list Shows) :
  NoDup ts ->
  flat_map (fun t => filter (fun show => theater show = t) shows) ts
  ≡ₚ filter (fun show => theater show ∈ ts) shows.
Proof.
  induction 1 as [|t ts Ht Hts IH]; cbn [flat_map].
  - induction shows as [|sh shows IHs]; [done|].
    rewrite filter_cons. case_decide as Hin; [|done].
    by apply elem_of_nil in Hin.
  - rewrite IH. clear IH.
    induction shows as [|sh shows IHs]; [done|].
    rewrite !filter_cons.
    destruct (decide (theater sh = t)) as [Heq|Hne].
    + rewrite decide_False by (by rewrite Heq).
      rewrite decide_True by (rewrite Heq; left).
      cbn [app]. by rewrite IHs.
    + destruct (decide (theater sh ∈ ts)) as [Hin|Hnin].
      * rewrite decide_True by (by right).
        rewrite <- Permutation_middle. by rewrite IHs.
      * rewrite decide_False; [done|].
        by intros [?|?]%elem_of_cons.
Qed.

Lemma groupedByTheater_perm (shows : list Shows) :
  groupedByTheater shows ≡ₚ shows.
Proof.
  unfold groupedByTheater.
  rewrite grouped_filter by apply NoDup_theatersInOrder.
  assert (forall l, l ⊆ shows ->
            filter (fun show => theater show ∈ theatersInOrder shows) l = l)
    as H.
  { induction l as [|sh l IH]; intros Hl; [done|].
    rewrite filter_cons, decide_True.
    - rewrite IH; [done|]. intros x Hx. apply Hl. by right.
    - apply elem_of_theatersInOrder. exists sh. split; [|done].
      apply Hl. left. }
  by rewrite H.
Qed.

(** The snapshot lists the shows theater by theater, so that the parsed
    list is in another order than a catalog that interleaves theaters;
    and the parser drops a show whose date string is empty, whose theater
    has no name, or whose title closes a parenthesis that it did not
    open. *)
Lemma round_trip_not_in_order :
  ~ roundTripInOrder interleavedShows
  /\ ~ roundTripInOrder undatedShows
  /\ ~ roundTripInOrder unnamedTheaterShows
  /\ ~ roundTripInOrder smileyShows.
Proof.
  split; [|split; [|split]]; unfold roundTripInOrder.
  - assert (Client.parseAndUpdateShows (formatCinemaData interleavedShows)
            !! 1%nat = interleavedShows !! 2%nat) as Hparsed
      by (vm_compute; reflexivity).
    intros H.
    destruct (Forall2_lookup_l _ _ _ 1%nat _ H eq_refl) as (p & Hp & Hsame).
    rewrite Hparsed in Hp. injection Hp as <-.
    destruct (Hsame 1) as [Hfree _].
    assert (1 ∈ getAvailableSeats
                  (set_seats (newShows (lit "Tenet") (lit "2025-09-11 19:30")
                                       (lit "PVR")) Main.pattern3)) as Hin.
    { apply Hfree. apply (bool_decide_unpack _). vm_compute. exact I. }
    revert Hin. closed_notin.
  - assert (Client.parseAndUpdateShows (formatCinemaData undatedShows) = [])
      as -> by (vm_compute; reflexivity).
    intros H. inversion H.
  - assert (Client.parseAndUpdateShows (formatCinemaData unnamedTheaterShows)
            = []) as -> by (vm_compute; reflexivity).
    intros H. inversion H.
  - assert (Client.parseAndUpdateShows (formatCinemaData smileyShows) = [])
      as -> by (vm_compute; reflexivity).
    intros H. inversion H.
Qed.

(** C3, amended.  For a catalog of well-formed shows, parsing the
    formatted initial snapshot gives back the shows themselves (theater,
    title, date and seat bitmap, hence the same available seats), one
    entry for each show of the catalog, in the order of the snapshot:
    theaters in first-seen order, the shows of a theater in catalog
    order. *)
Theorem snapshot_round_trip (shows : list Shows) :
  Forall wellFormed shows ->
  Client.parseAndUpdateShows (formatCinemaData shows)
  = groupedByTheater shows
  /\ groupedByTheater shows ≡ₚ shows.
Proof.
  intros Hwf. split; [|apply groupedByTheater_perm].
  unfold Client.parseAndUpdateShows.
  rewrite formatCinemaData_lines, getlines_unlines
    by (by apply snapshotLines_plain).
  unfold snapshotLines. cbn [foldl].
  rewrite parseLine_other by reflexivity.
  rewrite foldl_app. cbn [foldl].
  rewrite parseLine_other by reflexivity.
  by rewrite parse_theaters.
Qed.

Lemma snapshot_round_trip_witness :
  Forall wellFormed Main.shows
  /\ Client.parseAndUpdateShows (formatCinemaData Main.shows) = Main.shows.
Proof.
  assert (Forall wellFormed Main.shows) as Hwf.
  { apply (bool_decide_unpack _). vm_compute. exact I. }
  split; [exact Hwf|].
  destruct (snapshot_round_trip Main.shows Hwf) as [-> _].
  vm_compute. reflexivity.
Defined.

(** * Further properties of the code *)

(** ** The seat ledger and the list of available seats *)

Lemma availableFrom_sorted (k : nat) (s : list bool) :
  (k + length s <= 255)%nat ->
  StronglySorted Z.lt (availableFrom k s)
  /\ Forall (fun n => Z.of_nat k < n) (availableFrom k s).
Proof.
  revert k. induction s as [|b s IH]; intros k Hk; cbn [availableFrom].
  - split; constructor.
  - cbn [length] in Hk. destruct (IH (S k) ltac:(lia)) as [Hs Hgt].
    assert (Forall (fun n => Z.of_nat k + 1 < n) (availableFrom (S k) s))
      as Hgt'.
    { eapply Forall_impl; [exact Hgt|]. simpl. lia. }
    destruct b.
    + split; [done|]. eapply Forall_impl; [exact Hgt'|]. simpl. lia.
    + unfold to_uint8. rewrite Z.mod_small by lia. split.
      * by constructor.
      * constructor; [lia|]. eapply Forall_impl; [exact Hgt'|]. simpl. lia.
Qed.

Lemma length_availableFrom (k : nat) (s : list bool) :
  length (availableFrom k s) = length (filter (fun b => b = false) s).
Proof.
  revert k. induction s as [|b s IH]; intros k; cbn [availableFrom]; [done|].
  rewrite filter_cons. destruct b; simpl; by rewrite IH.
Qed.

Lemma elem_of_getAvailableSeats (sh : Shows) (seat : Z) :
  (length (seats sh) <= 255)%nat ->
  seat ∈ getAvailableSeats sh <->
  1 <= seat <= Z.of_nat (length (seats sh))
  /\ seats sh !! Z.to_nat (seat - 1) = Some false.
Proof.
  intros Hlen. unfold getAvailableSeats.
  rewrite elem_of_availableFrom by lia. split.
  - intros (i & -> & Hi). pose proof (lookup_lt_Some _ _ _ Hi).
    replace (Z.to_nat (Z.of_nat (0 + i) + 1 - 1)) with i by lia.
    split; [lia | done].
  - intros [Hrange Hfree]. exists (Z.to_nat (seat - 1)). split; [lia | done].
Qed.

(** X1.  On a show of at most 255 seats, [getAvailableSeats] lists the
    seat numbers in strictly ascending order; a number is listed exactly
    when it is between 1 and the number of seats and the seat is not
    booked; and the list is as long as there are seats not booked. *)
Theorem getAvailableSeats_ascending (sh : Shows) :
  (length (seats sh) <= 255)%nat ->
  StronglySorted Z.lt (getAvailableSeats sh)
  /\ (forall seat,
        seat ∈ getAvailableSeats sh <->
        1 <= seat <= Z.of_nat (length (seats sh))
        /\ seats sh !! Z.to_nat (seat - 1) = Some false)
  /\ length (getAvailableSeats sh)
     = length (filter (fun b => b = false) (seats sh)).
Proof.
  intros Hlen. split; [|split].
  - apply availableFrom_sorted. simpl. lia.
  - intros seat. by apply elem_of_getAvailableSeats.
  - apply length_availableFrom.
Qed.

Lemma getAvailableSeats_ascending_witness :
  let sh := set_seats (newShows (lit "Tenet") (lit "2025-09-11 19:30")
                                (lit "IMAX")) Main.pattern3 in
  (length (seats sh) <= 255)%nat
  /\ getAvailableSeats sh = [2; 6; 9; 12; 16; 17]
  /\ StronglySorted Z.lt (getAvailableSeats sh).
Proof.
  intros sh.
  assert (length (seats sh) <= 255)%nat as Hlen by (simpl; lia).
  split; [exact Hlen|]. split; [reflexivity|].
  apply (getAvailableSeats_ascending sh Hlen).
Defined.

(** The list of available seats after some seats have been booked. *)
Lemma availableFrom_booked (l : list Z) (k : nat) (s s' : list bool) :
  (k + length s <= 255)%nat -> length s' = length s ->
  (forall i, s' !! i =
             if bool_decide (Z.of_nat (k + i) + 1 ∈ l)
             then (fun _ => true) <$> s !! i
             else s !! i) ->
  availableFrom k s' = filter (fun seat => seat ∉ l) (availableFrom k s).
Proof.
  revert k s'. induction s as [|b s IH]; intros k s' Hk Hlen Hs'.
  - by destruct s'.
  - destruct s' as [|b' s']; [done|]. cbn [length] in Hk, Hlen.
    assert (availableFrom (S k) s'
            = filter (fun seat => seat ∉ l) (availableFrom (S k) s)) as Hrest.
    { apply IH; [lia | lia |]. intros i. specialize (Hs' (S i)).
      replace (k + S i)%nat with (S k + i)%nat in Hs' by lia.
      exact Hs'. }
    specialize (Hs' 0%nat). cbn in Hs'.
    replace (Z.of_nat (k + 0)) with (Z.of_nat k) in Hs' by lia.
    cbn [availableFrom]. unfold to_uint8. rewrite Z.mod_small by lia.
    destruct b.
    + assert (b' = true) as ->
        by (destruct (bool_decide _); by simplify_eq/=).
      exact Hrest.
    + rewrite filter_cons. case_bool_decide as Hin.
      * simplify_eq/=. by rewrite decide_False by (by intros ?).
      * simplify_eq/=. rewrite decide_True by done. by rewrite Hrest.
Qed.

Lemma bookSeats_accepts_available (l : list Z) (sh : Shows) :
  (length (seats sh) <= 255)%nat ->
  (bookSeats l sh).1 = true <->
  Forall (fun seat => seat ∈ getAvailableSeats sh) l.
Proof.
  intros Hlen. unfold bookSeats, bookSeatsOn.
  assert (existsb (seatRejected (seats sh)) l = false <->
          Forall (fun seat => seat ∈ getAvailableSeats sh) l) as Hchk.
  { rewrite existsb_seatRejected_false. apply Forall_iff. intros seat.
    symmetry. by apply elem_of_getAvailableSeats. }
  destruct (existsb (seatRejected (seats sh)) l); simpl.
  - split; [done|]. intros H. by apply Hchk in H.
  - split; [intros _; by apply Hchk | done].
Qed.

(** X2.  On a show of at most 255 seats, [bookSeats] succeeds exactly
    when every requested number is in the list that [getAvailableSeats]
    returns; after a success that list is the former list without the
    requested numbers, in the same order. *)
Theorem bookSeats_available (seatNumbers : list Z) (sh : Shows) :
  (length (seats sh) <= 255)%nat ->
  ((bookSeats seatNumbers sh).1 = true <->
   Forall (fun seat => seat ∈ getAvailableSeats sh) seatNumbers)
  /\ ((bookSeats seatNumbers sh).1 = true ->
      getAvailableSeats (bookSeats seatNumbers sh).2
      = filter (fun seat => seat ∉ seatNumbers) (getAvailableSeats sh)).
Proof.
  intros Hlen. split; [by apply bookSeats_accepts_available|].
  unfold bookSeats, bookSeatsOn.
  destruct (existsb (seatRejected (seats sh)) seatNumbers) eqn:E; simpl;
    [done|].
  intros _. apply existsb_seatRejected_false in E.
  unfold getAvailableSeats. simpl. apply availableFrom_booked.
  - simpl. lia.
  - apply length_foldl_markBooked.
  - intros i. apply lookup_foldl_markBooked.
    eapply Forall_impl; [exact E|]. simpl. lia.
Qed.

Lemma bookSeats_available_witness :
  let sh := set_seats (newShows (lit "Tenet") (lit "2025-09-11 19:30")
                                (lit "IMAX")) Main.pattern3 in
  (length (seats sh) <= 255)%nat
  /\ (bookSeats [9; 2] sh).1 = true
  /\ getAvailableSeats (bookSeats [9; 2] sh).2 = [6; 12; 16; 17].
Proof.
  intros sh.
  assert (length (seats sh) <= 255)%nat as Hlen by (simpl; lia).
  split; [exact Hlen|]. split; [reflexivity|].
  destruct (bookSeats_available [9; 2] sh Hlen) as [_ Hafter].
  rewrite Hafter by reflexivity. reflexivity.
Defined.

(** ** The booking service, request after request *)

Lemma seatField_elem (fields : list cstring) (seatNums : list Z)
    (field : cstring) (seat : Z) :
  Forall2 seatField fields seatNums -> field ∈ fields ->
  stoi field = Some seat -> seat ∈ seatNums.
Proof.
  intros H Hin Hf. apply list_elem_of_lookup in Hin as [i Hi].
  destruct (Forall2_lookup_l _ _ _ _ _ H Hi) as (n & Hn & Hfn & _).
  rewrite Hf in Hfn. injection Hfn as ->.
  by eapply list_elem_of_lookup_2.
Qed.

Lemma seatField_nonempty (fields : list cstring) (seatNums : list Z) :
  Forall2 seatField fields seatNums -> fields <> [] ->
  exists seat, seat ∈ seatNums.
Proof.
  intros H Hne. destruct H as [|f n fields ns _ _]; [done|].
  exists n. left.
Qed.

Lemma bookSeats_names (l : list Z) (sh : Shows) :
  movie (bookSeats l sh).2 = movie sh
  /\ dateTime (bookSeats l sh).2 = dateTime sh
  /\ theater (bookSeats l sh).2 = theater sh
  /\ length (seats (bookSeats l sh).2) = length (seats sh).
Proof.
  unfold bookSeats.
  pose proof (length_bookSeatsOn l (seats sh)) as Hlen.
  by destruct (bookSeatsOn l (seats sh)).
Qed.

(** A seat that a successful call has booked makes every later call
    that names it fail. *)
Lemma bookSeats_again (l l' : list Z) (sh : Shows) (seat : Z) :
  (bookSeats l sh).1 = true -> seat ∈ l -> seat ∈ l' ->
  (bookSeats l' (bookSeats l sh).2).1 = false.
Proof.
  unfold bookSeats.
  destruct (bookSeatsOn l (seats sh)) as [ok s'] eqn:Hon. simpl.
  intros -> Hin Hin'.
  rewrite bookSeatsOn_rejects; [done|].
  apply existsb_exists. exists seat. split; [by apply list_elem_of_In|].
  by eapply bookSeatsOn_true_booked.
Qed.

(** A successful call changes the show. *)
Lemma bookSeats_changes (l : list Z) (sh : Shows) (seat : Z) :
  (bookSeats l sh).1 = true -> seat ∈ l -> (bookSeats l sh).2 <> sh.
Proof.
  intros Hok Hin Hsame.
  pose proof (bookSeats_again l l sh seat Hok Hin Hin) as Hagain.
  rewrite Hsame in Hagain. by rewrite Hok in Hagain.
Qed.

(** The seats that a successful call names are booked afterwards. *)
Lemma bookSeats_booked (l : list Z) (sh : Shows) (seat : Z) :
  (bookSeats l sh).1 = true -> seat ∈ l ->
  1 <= seat
  /\ seats (bookSeats l sh).2 !! Z.to_nat (seat - 1) = Some true.
Proof.
  unfold bookSeats, bookSeatsOn.
  destruct (existsb (seatRejected (seats sh)) l) eqn:E; [done|].
  intros _ Hin. simpl.
  apply existsb_seatRejected_false in E.
  pose proof E as Hall. rewrite Forall_forall in Hall.
  destruct (Hall seat Hin) as [Hrange Hfree]. split; [lia|].
  rewrite lookup_foldl_markBooked
    by (eapply Forall_impl; [exact E | simpl; lia]).
  replace (Z.of_nat (Z.to_nat (seat - 1)) + 1) with seat by lia.
  by rewrite bool_decide_eq_true_2, Hfree.
Qed.

Lemma soldFrom_no_match (t m : cstring) (shows later : list Shows) :
  Forall2 soldFrom shows later ->
  Forall (fun s => ~ (theater s = t /\ movie s = m)) shows ->
  Forall (fun s => ~ (theater s = t /\ movie s = m)) later.
Proof.
  induction 1 as [|a b shows later (Hm & _ & Ht & _) _ IH]; [done|].
  intros [Ha Hshows]%Forall_cons. constructor; [|by apply IH].
  by rewrite Hm, Ht.
Qed.

(** X3.  No seat is sold twice: once a request for a show has
    succeeded, in every state that the catalog takes by further sales,
    a request for the show of the same theater and title that names one
    of the seats booked is refused, changes nothing and is not
    broadcast. *)
Theorem booked_seat_not_resold (msg msg2 : cstring)
    (shows later : list Shows) (t m : cstring)
    (fields fields2 : list cstring) (field field2 : cstring) (seat : Z) :
  getlines comma msg = t :: m :: fields ->
  field ∈ fields -> stoi field = Some seat ->
  success (processBooking msg shows).1 = true ->
  Forall2 soldFrom (processBooking msg shows).2 later ->
  getlines comma msg2 = t :: m :: fields2 ->
  field2 ∈ fields2 -> stoi field2 = Some seat ->
  success (processBooking msg2 later).1 = false
  /\ shouldBroadcast (processBooking msg2 later).1 = false
  /\ (processBooking msg2 later).2 = later.
Proof.
  intros Hparts Hfield Hseat.
  destruct (processBooking_path msg shows)
    as [ | ? ? ? ? bad ? Hp | ? ? ? ? Hp Hne Hok
       | t' m' fields' ns before sh after Hp Hne Hok Hsh Hb Ht Hm];
    [done | by destruct (stoi bad) | done |].
  rewrite Hparts in Hp. injection Hp as <- <- <-.
  destruct (bookSeats ns sh).1 eqn:Hbook; [intros _ | done].
  intros Hlater Hparts2 Hfield2 Hseat2.
  assert (seat ∈ ns) as Hin by (by eapply seatField_elem).
  apply Forall2_app_inv_l in Hlater
    as (before2 & rest2 & Hbefore2 & Hrest2 & ->).
  apply Forall2_cons_inv_l in Hrest2
    as (sh2 & after2 & (Hm2 & _ & Ht2 & Hseats2) & _ & ->).
  destruct (bookSeats_names ns sh) as (Hm' & _ & Ht' & _).
  destruct (bookSeats_booked ns sh seat Hbook Hin) as [Hpos Hbooked].
  assert (forall ns2, seat ∈ ns2 -> bookSeats ns2 sh2 = (false, sh2))
    as Hrefused.
  { intros ns2 Hin2. unfold bookSeats.
    rewrite bookSeatsOn_rejects; [by rewrite set_seats_same|].
    apply existsb_exists. exists seat. split; [by apply list_elem_of_In|].
    destruct (Forall2_lookup_l _ _ _ _ _ Hseats2 Hbooked)
      as (now & Hnow & Hsold).
    unfold seatRejected. rewrite Hnow, (Hsold eq_refl).
    apply orb_true_r. }
  unfold processBooking. rewrite Hparts2.
  destruct fields2 as [|g gs]; [by apply elem_of_nil in Hfield2|].
  destruct (seat_fields_split (g :: gs))
    as [[ns2 Hok2] | (good & ns2 & bad & rest & Hsplit & Hgood & Hbad)].
  - rewrite (parseSeatFields_ok _ ns2 [] Hok2). cbn [app].
    rewrite (bookFirstMatch_first t m ns2 before2 after2 sh2);
      [| by eapply soldFrom_no_match | congruence | congruence].
    assert (seat ∈ ns2) as Hin2 by (by eapply seatField_elem).
    by rewrite (Hrefused ns2 Hin2).
  - rewrite Hsplit, (parseSeatFields_bad good ns2 [] bad rest Hgood Hbad).
    by destruct (stoi bad).
Qed.

Lemma booked_seat_not_resold_witness :
  let shows' := (processBooking (lit "PVR,Inception,3,4") Main.shows).2 in
  let later := (processBooking (lit "PVR,Inception,9") shows').2 in
  success (processBooking (lit "PVR,Inception,3,4") Main.shows).1 = true
  /\ Forall2 soldFrom shows' later
  /\ success (processBooking (lit "PVR,Inception,4,7") later).1 = false
  /\ (processBooking (lit "PVR,Inception,4,7") later).2 = later.
Proof.
  intros shows' later.
  assert (success (processBooking (lit "PVR,Inception,3,4") Main.shows).1
          = true) as Hfirst by reflexivity.
  assert (Forall2 soldFrom shows' later) as Hlater.
  { apply (bool_decide_unpack _). vm_compute. exact I. }
  split; [exact Hfirst|]. split; [exact Hlater|].
  destruct (booked_seat_not_resold
              (lit "PVR,Inception,3,4") (lit "PVR,Inception,4,7") Main.shows
              later (lit "PVR") (lit "Inception") [lit "3"; lit "4"]
              [lit "4"; lit "7"] (lit "4") (lit "4") 4)
    as (Hfail & _ & Hsame); try reflexivity; try exact Hfirst;
    try exact Hlater.
  - right. left.
  - left.
  - split; [exact Hfail | exact Hsame].
Defined.

(** X4.  [handleMessage] asks for a broadcast exactly when it has
    changed the catalog. *)
Theorem handleMessage_broadcast_iff_changed (received : cstring)
    (shows : list Shows) :
  (handleMessage received shows).1.2 = true
  <-> (handleMessage received shows).2 <> shows.
Proof.
  unfold handleMessage.
  destruct (bool_decide (received = lit "get_data")
            || bool_decide (received = lit "refresh")); [by simpl|].
  destruct (bool_decide (find [comma] received ≠ None)); [|by simpl].
  pose proof (processBooking_path received shows) as Hpath.
  destruct (processBooking received shows) as [r shows'] eqn:E.
  simpl in *.
  destruct Hpath
    as [ | ? ? ? ? bad ? Hp | ? ? ? ? Hp Hne Hok
       | t m fields ns before sh after Hp Hne Hok Hsh Hb Ht Hm];
    [by simpl | by destruct (stoi bad) | by simpl |].
  subst shows.
  destruct (bookSeats ns sh).1 eqn:Hbook; simpl.
  - split; [intros _ | done].
    destruct (seatField_nonempty _ _ Hok Hne) as [seat Hseat].
    intros Hsame%app_inv_head. injection Hsame as Hsame.
    by apply (bookSeats_changes ns sh seat).
  - split; [done|]. intros Hne'. destruct Hne'.
    destruct (bookSeats ns sh) as [ok sh'] eqn:E'. simpl in Hbook.
    subst ok. by rewrite (bookSeats_false _ _ _ E').
Qed.

Lemma contains_prefix (needle s : cstring) :
  starts_with needle s = true -> CinemaClient.contains needle s = true.
Proof.
  intros H. unfold CinemaClient.contains. apply bool_decide_eq_true_2.
  apply find_starts_with in H. by rewrite H.
Qed.

(** X5.  The response to a booking request starts with "SUCCESS:" when
    the booking succeeded and with "ERROR:" when it did not, and the
    broadcast flag is the success flag; so the client records every
    such response as its last booking response, and the client's main
    loop reports a successful booking as successful. *)
Theorem booking_response_prefix (msg : cstring) (shows : list Shows)
    (st : CinemaClient.State) :
  let r := (processBooking msg shows).1 in
  starts_with (lit "SUCCESS:") (message r) = success r
  /\ starts_with (lit "ERROR:") (message r) = negb (success r)
  /\ shouldBroadcast r = success r
  /\ CinemaClient.lastBookingResponse_
       (CinemaClient.received (message r) st) = message r
  /\ (success r = true -> ClientMain.success (message r) = true).
Proof.
  intros r. subst r.
  assert (starts_with (lit "SUCCESS:")
            (message (processBooking msg shows).1)
          = success (processBooking msg shows).1
          /\ starts_with (lit "ERROR:")
               (message (processBooking msg shows).1)
             = negb (success (processBooking msg shows).1)
          /\ shouldBroadcast (processBooking msg shows).1
             = success (processBooking msg shows).1) as (H1 & H2 & H3).
  { destruct (processBooking_path msg shows)
      as [ | ? ? ? ? bad ? Hp | ? ? ? ? Hp Hne Hok
         | t m fields ns before sh after Hp Hne Hok Hsh Hb Ht Hm].
    - by split_and!.
    - destruct (stoi bad); by split_and!.
    - by split_and!.
    - destruct (bookSeats ns sh).1; by split_and!. }
  split_and!; try done.
  - unfold CinemaClient.received, CinemaClient.processMessage.
    assert (CinemaClient.contains (lit "SUCCESS:")
              (message (processBooking msg shows).1)
            || CinemaClient.contains (lit "ERROR:")
                 (message (processBooking msg shows).1) = true) as ->.
    { destruct (success (processBooking msg shows).1).
      - by rewrite (contains_prefix _ _ H1).
      - rewrite (contains_prefix _ _ H2). apply orb_true_r. }
    by destruct (Client.isCinemaDataStream _).
  - intros Hok. rewrite Hok in H1. unfold ClientMain.success.
    by rewrite (contains_prefix _ _ H1).
Qed.

Lemma getlines_trailing (delim : ascii) (s : cstring) :
  s <> [] -> last s <> Some delim ->
  getlines delim (s ++ [delim]) = getlines delim s.
Proof.
  induction s as [|c s IH]; intros Hne Hlast; [done|].
  destruct s as [|d s].
  - simpl in *. destruct (Ascii.eqb c delim) eqn:E; [|by rewrite Ascii.eqb_refl].
    apply Ascii.eqb_eq in E. by subst.
  - cbn [app getlines]. cbn [app getlines] in IH. by rewrite IH.
Qed.

(** X6.  A comma at the end of a request is ignored: a request that
    does not itself end in a comma gets the same result with a comma
    added. *)
Theorem processBooking_trailing_comma (msg : cstring) (shows : list Shows) :
  msg <> [] -> last msg <> Some comma ->
  processBooking (msg ++ [comma]) shows = processBooking msg shows.
Proof.
  intros Hne Hlast. unfold processBooking.
  by rewrite getlines_trailing.
Qed.

Lemma processBooking_trailing_comma_witness :
  processBooking (lit "PVR,Inception,3,4" ++ [comma]) Main.shows
  = processBooking (lit "PVR,Inception,3,4") Main.shows
  /\ success (processBooking (lit "PVR,Inception,3,4,") Main.shows).1 = true.
Proof.
  split; [|reflexivity].
  apply processBooking_trailing_comma; [done|].
  vm_compute. discriminate.
Defined.

(** ** The connection hub over a run *)

Module HubRuns.
Import Hub.

Lemma enqueued_send_message msg s :
  enqueued (send_message msg s) = enqueued s ++ [msg].
Proof.
  unfold send_message. simpl. destruct (writing_ s); [done|].
  unfold do_write. simpl. by destruct (message_queue_ s ++ [msg]).
Qed.

Lemma enqueued_do_write s : enqueued (do_write s) = enqueued s.
Proof. unfold do_write. by destruct (message_queue_ s). Qed.

Lemma enqueued_write_completed ec wire s :
  enqueued (write_completed ec wire s) = enqueued s.
Proof. unfold write_completed. by destruct (write_pending s). Qed.

Lemma sent_all_invariant (Q : cstring -> Prop) :
  SessionInvariant (sent_all Q) Q.
Proof.
  unfold sent_all. split; try (by intros s Hs).
  - constructor.
  - intros msg s Hmsg Hs. rewrite enqueued_send_message.
    apply Forall_app. split; [done | by constructor].
  - intros wire s Hs. by rewrite enqueued_write_completed.
  - intros wire s Hs _.
    by rewrite enqueued_do_write, enqueued_write_completed.
Qed.

Lemma session_live_invariant : SessionInvariant session_live (fun _ => True).
Proof.
  unfold session_live. split; try (by intros s Hs).
  - intros msg s _ Hs. unfold send_message. simpl.
    destruct (writing_ s) eqn:Hw; simpl; [intros _; by apply Hs|].
    unfold do_write. simpl.
    destruct (message_queue_ s ++ [msg]) as [|m q] eqn:E; simpl; [done|].
    intros _ _. by destruct (write_pending s).
  - intros wire s Hs. unfold write_completed.
    destruct (write_pending s) as [|m wp] eqn:E;
      [intros Hw Hl; rewrite E; by apply Hs|].
    simpl. intros _ Hl. by destruct (lost s).
  - intros wire s Hs Hwp. unfold write_completed, do_write.
    destruct (write_pending s) as [|m wp]; [done|]. simpl.
    destruct (message_queue_ s) as [|m' q]; simpl; [done|].
    intros _ _. by destruct wp.
Qed.

Section Server.
Context {App : Type}.
Variable messageCallback : cstring -> App -> cstring * bool * App.
Variable initialDataCallback : App -> cstring.
Variable broadcastDataCallback : App -> cstring.

Local Abbreviation Server := (Server (App := App)).
Local Abbreviation step :=
  (step messageCallback initialDataCallback broadcastDataCallback).
Local Abbreviation steps :=
  (steps messageCallback initialDataCallback broadcastDataCallback).
Local Abbreviation Reachable :=
  (Reachable messageCallback initialDataCallback broadcastDataCallback).

(** *** The state captured by the callbacks *)

(** Only the message callback changes the captured state. *)
Lemma step_app (srv srv' : Server) e :
  step srv e = Some srv' ->
  app srv' = app srv
  \/ exists id received,
       e = ReadDone id false received
       /\ app srv' = (messageCallback received (app srv)).2.
Proof.
  destruct e as [id | id ec | id ec received | id ec wire]; simpl.
  - destruct (heap srv !! id); [done|]. intros [= <-]. by left.
  - destruct (heap srv !! id) as [s|]; [|done].
    destruct (accept_pending s); [|done]. intros [= <-].
    left. by destruct ec.
  - destruct (heap srv !! id) as [s|]; [|done].
    destruct (read_pending s); [|done]. intros [= <-].
    unfold on_read. destruct ec; [by left|]. right. exists id, received.
    split; [done|]. simpl.
    destruct (messageCallback received (app srv)) as [[response bc] app'].
    by destruct bc.
  - destruct (heap srv !! id) as [s|]; [|done].
    destruct (write_pending s); [done|]. intros [= <-].
    left. by destruct ec.
Qed.

Lemma reachable_app (P : App -> Prop) a (srv : Server) :
  P a -> (forall received x, P x -> P (messageCallback received x).2) ->
  Reachable a srv -> P (app srv).
Proof.
  intros Ha Hstep. induction 1 as [|srv e srv' _ IH Hs]; [done|].
  destruct (step_app _ _ _ Hs) as [-> | (id & received & _ & ->)]; auto.
Qed.

(** *** The sessions *)

Section Sessions.
Variable I : Session -> Prop.
Variable Q : cstring -> Prop.
Hypothesis HI : SessionInvariant I Q.
Hypothesis Hinitial : forall x, Q (initialDataCallback x).
Hypothesis Hbroadcast : forall x, Q (broadcastDataCallback x).
Hypothesis Hresponse : forall received x, Q (messageCallback received x).1.1.

Local Abbreviation all_sessions :=
  (fun srv : Server => forall id s, heap srv !! id = Some s -> I s).

Lemma all_onSession id f (srv : Server) :
  all_sessions srv ->
  (forall s, heap srv !! id = Some s -> I (f s)) ->
  all_sessions (onSession id f srv).
Proof.
  intros Hall Hf j s. unfold onSession. simpl.
  intros [[-> (x & Hx & ->)] | [_ Hj]]%lookup_alter_Some; eauto.
Qed.

Lemma all_broadcastUpdate (srv : Server) :
  all_sessions srv ->
  all_sessions (broadcastUpdate broadcastDataCallback srv).
Proof.
  intros Hall j s. unfold broadcastUpdate. simpl.
  rewrite map_lookup_imap.
  destruct (heap srv !! j) as [x|] eqn:Hx; simpl; [|done].
  intros [= <-]. pose proof (inv_send_message _ _ HI) as Hsm.
  case_bool_decide; eauto.
Qed.

Lemma step_sessions (srv srv' : Server) e :
  all_sessions srv -> step srv e = Some srv' -> all_sessions srv'.
Proof.
  intros Hall Hstep.
  pose proof HI as [Hnew Haa Hac Hdr Hrc Hsm Hwf Hwd].
  destruct e as [id | id ec | id ec received | id ec wire]; simpl in Hstep.
  - destruct (heap srv !! id) eqn:Hid; [done|]. injection Hstep as <-.
    unfold run. apply all_onSession.
    + intros j s. simpl.
      intros [[<- <-] | [_ Hj]]%lookup_insert_Some; eauto.
    + simpl. intros s. rewrite lookup_insert_eq. intros [= <-]. eauto.
  - destruct (heap srv !! id) as [s|] eqn:Hid; [|done].
    destruct (accept_pending s); [|done]. injection Hstep as <-.
    assert (all_sessions (onSession id accept_completed srv)) as Hall1.
    { apply all_onSession; eauto. }
    unfold on_accept. destruct ec; [done|].
    assert (all_sessions
              (onSession id (send_message (initialDataCallback
                                             (app (onSession id accept_completed srv))))
                         (onSession id accept_completed srv))) as Hall2.
    { apply all_onSession; eauto. }
    apply all_onSession; eauto.
  - destruct (heap srv !! id) as [s|] eqn:Hid; [|done].
    destruct (read_pending s); [|done]. injection Hstep as <-.
    assert (all_sessions (onSession id read_completed srv)) as Hall1.
    { apply all_onSession; eauto. }
    unfold on_read. destruct ec; [done|].
    pose proof (Hresponse received (app (onSession id read_completed srv)))
      as Hres.
    destruct (messageCallback received _) as [[response bc] app'].
    simpl in Hres.
    set (srv1 := mkServer _ _ app').
    assert (all_sessions srv1) as Hall2 by done.
    assert (all_sessions (onSession id (send_message response) srv1))
      as Hall3.
    { apply all_onSession; eauto. }
    assert (all_sessions
              (if bc
               then broadcastUpdate broadcastDataCallback
                      (onSession id (send_message response) srv1)
               else onSession id (send_message response) srv1)) as Hall4.
    { destruct bc; [by apply all_broadcastUpdate | done]. }
    apply all_onSession; eauto.
  - destruct (heap srv !! id) as [s|] eqn:Hid; [|done].
    destruct (write_pending s) as [|m wp] eqn:Hwp; [done|].
    injection Hstep as <-. unfold on_write. destruct ec.
    + apply (all_onSession id (write_completed true wire) srv);
        eauto.
    + unfold onSession. simpl. rewrite alter_alter_eq.
      apply (all_onSession id (do_write ∘ write_completed false wire) srv);
        [done|].
      intros s0 Hs0. rewrite Hid in Hs0. injection Hs0 as <-.
      simpl. apply Hwd; [by eapply Hall | by rewrite Hwp].
Qed.

Lemma reachable_sessions a (srv : Server) id s :
  Reachable a srv -> heap srv !! id = Some s -> I s.
Proof.
  intros Hreach. revert id s.
  induction Hreach as [|srv e srv' _ IH Hstep].
  - intros id s. unfold initialServer. simpl. by rewrite lookup_empty.
  - by eapply step_sessions.
Qed.

End Sessions.

(** *** A request and its broadcast *)

Lemma lookup_onSession id f (srv : Server) j :
  heap (onSession id f srv) !! j
  = if bool_decide (j = id) then f <$> heap srv !! j else heap srv !! j.
Proof.
  unfold onSession. simpl. case_bool_decide as Hj.
  - subst j. apply lookup_alter_eq.
  - by apply lookup_alter_ne.
Qed.

Lemma lookup_broadcastUpdate (srv : Server) j :
  heap (broadcastUpdate broadcastDataCallback srv) !! j
  = (fun s => if bool_decide (j ∈ sessions_ srv)
              then send_message (broadcastDataCallback (app srv)) s
              else s) <$> heap srv !! j.
Proof.
  unfold broadcastUpdate. simpl. rewrite map_lookup_imap.
  by destruct (heap srv !! j).
Qed.

(** X7.  When a read completes without error, the message callback
    runs once on the captured state; its response is enqueued to the
    session that read, and to no other; when the callback asks for a
    broadcast, the broadcast data, computed from the state that the
    callback leaves, is enqueued to every registered session, the
    reading session included, after the response; a session that is no
    longer registered gets no broadcast; and the set of registered
    sessions is unchanged. *)
Theorem read_reply_then_broadcast (srv srv' : Server) id received :
  step srv (ReadDone id false received) = Some srv' ->
  let response := (messageCallback received (app srv)).1.1 in
  let broadcast := (messageCallback received (app srv)).1.2 in
  let app' := (messageCallback received (app srv)).2 in
  app srv' = app' /\ sessions_ srv' = sessions_ srv
  /\ forall j s,
       heap srv !! j = Some s ->
       exists s',
         heap srv' !! j = Some s'
         /\ enqueued s' =
            enqueued s
              ++ (if bool_decide (j = id) then [response] else [])
              ++ (if broadcast && bool_decide (j ∈ sessions_ srv)
                  then [broadcastDataCallback app'] else []).
Proof.
  intros Hstep. cbn [Hub.step] in Hstep.
  destruct (heap srv !! id) as [s0|] eqn:Hid; [|done].
  destruct (read_pending s0); [|done]. injection Hstep as <-.
  unfold on_read.
  change (app (onSession id read_completed srv)) with (app srv).
  destruct (messageCallback received (app srv)) as [[response bc] app'].
  cbn [fst snd].
  split; [by destruct bc|]. split; [by destruct bc|].
  intros j s Hj. rewrite lookup_onSession.
  assert (heap (onSession id (send_message response)
                  (mkServer (sessions_ srv)
                            (alter read_completed id (heap srv)) app')) !! j
          = Some (if bool_decide (j = id)
                  then send_message response (read_completed s)
                  else s)) as Hreply.
  { rewrite lookup_onSession. cbn [heap]. case_bool_decide as Hjid.
    - subst j. by rewrite lookup_alter_eq, Hj.
    - by rewrite lookup_alter_ne, Hj. }
  assert (forall s1 : Session, enqueued (do_read s1) = enqueued s1)
    as Hdo_read by done.
  destruct bc; cbn [andb].
  - rewrite lookup_broadcastUpdate, Hreply. cbn [onSession sessions_ app].
    case_bool_decide as Hjid; case_bool_decide as Hreg; simpl;
      eexists; (split; [done|]);
      by rewrite ?Hdo_read, ?enqueued_send_message, <- ?app_assoc,
           ?app_nil_r.
  - rewrite Hreply.
    case_bool_decide as Hjid; simpl; eexists; (split; [done|]);
      by rewrite ?Hdo_read, ?enqueued_send_message, ?app_nil_r.
Qed.

(** *** Draining the queue *)

Lemma write_done_step (srv : Server) id s wire :
  heap srv !! id = Some s -> write_pending s <> [] ->
  step srv (WriteDone id false wire)
  = Some (onSession id (do_write ∘ write_completed false wire) srv).
Proof.
  intros Hs Hwp. simpl. rewrite Hs.
  destruct (write_pending s); [done|].
  unfold on_write, onSession. simpl. by rewrite alter_alter_eq.
Qed.

Lemma drain (wires : list cstring) : forall (srv : Server) id s msg wire,
  heap srv !! id = Some s -> session_ok s -> lost s = [] ->
  write_pending s = [msg] -> length (message_queue_ s) = length wires ->
  exists srv' s',
    steps srv (WriteDone id false <$> wire :: wires) = Some srv'
    /\ heap srv' !! id = Some s'
    /\ written s' = enqueued s /\ enqueued s' = enqueued s
    /\ delivered s' = delivered s ++ wire :: wires
    /\ lost s' = [] /\ writing_ s' = false
    /\ write_pending s' = [] /\ message_queue_ s' = []
    /\ sessions_ srv' = sessions_ srv /\ app srv' = app srv.
Proof.
  induction wires as [|next_wire wires IH];
    intros srv id s msg wire Hs Hok Hlost Hwp Hlen.
  - destruct (message_queue_ s) as [|? ?] eqn:Hq; [|done].
    exists (onSession id (do_write ∘ write_completed false wire) srv),
           (do_write (write_completed false wire s)).
    cbn [fmap list_fmap Hub.steps].
    rewrite (write_done_step srv id s) by (by rewrite ?Hwp).
    split; [done|]. split; [by rewrite lookup_onSession,
                              bool_decide_eq_true_2, Hs|].
    destruct (HubFacts.next_write wire s Hok ltac:(by rewrite Hwp))
      as (_ & Hw1 & Hd1 & Hq1).
    rewrite Hq in Hq1. destruct Hq1 as (Hidle1 & Hwp1 & Hqueue1).
    destruct Hok as (_ & Hord & _).
    rewrite Hw1, Hd1, <- Hord, Hlost, Hwp, Hq.
    split; [done|]. split.
    { unfold write_completed, do_write. rewrite Hwp. simpl.
      by rewrite Hq, <- Hord, Hlost, Hwp, Hq. }
    split; [done|]. split.
    { unfold write_completed, do_write. rewrite Hwp. simpl.
      by rewrite Hq. }
    by split_and!.
  - destruct (message_queue_ s) as [|next queue] eqn:Hq; [done|].
    destruct (HubFacts.next_write wire s Hok ltac:(by rewrite Hwp))
      as (Hok1 & Hw1 & Hd1 & Hq1).
    rewrite Hq in Hq1. destruct Hq1 as (_ & Hwp1 & Hqueue1).
    set (s1 := do_write (write_completed false wire s)) in *.
    assert (enqueued s1 = enqueued s /\ lost s1 = []) as [He1 Hl1].
    { unfold s1, write_completed, do_write. rewrite Hwp. simpl.
      by rewrite Hq. }
    destruct (IH (onSession id (do_write ∘ write_completed false wire) srv)
                 id s1 next next_wire)
      as (srv' & s' & Hsteps & Hs' & Hw' & He' & Hd' & Hl' & Hidle' & Hwp'
          & Hq' & Hreg & Happ);
      try done.
    { by rewrite lookup_onSession, bool_decide_eq_true_2, Hs. }
    { rewrite Hqueue1. simpl in Hlen. lia. }
    exists srv', s'.
    change (WriteDone id false <$> wire :: next_wire :: wires)
      with (WriteDone id false wire
              :: (WriteDone id false <$> next_wire :: wires)).
    cbn [Hub.steps].
    rewrite (write_done_step srv id s) by (by rewrite ?Hwp).
    split; [exact Hsteps|]. split; [done|].
    rewrite Hw', He', He1, Hd', Hd1, <- app_assoc. by split_and!.
Qed.

(** X8.  With no message of a session lost to a write error, the
    write completions drain the session.  In any state the server
    reaches, a message given to [send_message] joins the back of what
    is still to be written, the write in flight and then the queue; and
    as many writes completing without error as there are messages in
    flight and in the queue leave the session idle, with nothing
    outstanding and nothing queued, a write having been started and
    completed for every message enqueued to the session, in the order
    of enqueuing.  What has been delivered is what the stream took from
    the buffers of those writes, whatever it is; the captured state and
    the registered sessions are as before. *)
Theorem queue_drains a (srv : Server) id s (wires : list cstring) :
  Reachable a srv -> heap srv !! id = Some s -> lost s = [] ->
  length wires = length (write_pending s ++ message_queue_ s) ->
  (forall msg,
      enqueued (send_message msg s) = enqueued s ++ [msg]
      /\ write_pending (send_message msg s)
           ++ message_queue_ (send_message msg s)
         = (write_pending s ++ message_queue_ s) ++ [msg])
  /\ exists srv' s',
       steps srv (WriteDone id false <$> wires) = Some srv'
       /\ Reachable a srv'
       /\ heap srv' !! id = Some s'
       /\ written s' = enqueued s /\ enqueued s' = enqueued s
       /\ delivered s' = delivered s ++ wires
       /\ writing_ s' = false
       /\ write_pending s' = [] /\ message_queue_ s' = []
       /\ sessions_ srv' = sessions_ srv /\ app srv' = app srv.
Proof.
  intros Hreach Hs Hlost Hwires.
  pose proof (HubFacts.reachable_heap_ok _ _ _ a srv Hreach id s Hs) as Hok.
  split.
  { intros msg.
    destruct (HubFacts.send_message_queues msg s Hok) as [Henq Hsent].
    split; [exact Henq|].
    pose proof Hok as (_ & _ & Hidle & _).
    destruct (writing_ s).
    - destruct Hsent as [-> ->]. by rewrite app_assoc.
    - destruct Hsent as (_ & -> & ->).
      by destruct (Hidle eq_refl) as [-> ->]. }
  pose proof (reachable_sessions session_live (fun _ => True)
                session_live_invariant ltac:(done) ltac:(done) ltac:(done)
                a srv id s Hreach Hs) as Hlive.
  destruct (writing_ s) eqn:Hw.
  - pose proof Hok as (Hlen & _).
    destruct (write_pending s) as [|msg [|? ?]] eqn:Hwp;
      [by destruct (Hlive Hw Hlost) | | simpl in Hlen; lia].
    destruct wires as [|wire wires]; [done|].
    destruct (drain wires srv id s msg wire)
      as (srv' & s' & Hsteps & Hs' & Hw' & He' & Hd' & Hl' & Hidle' & Hwp'
          & Hq' & Hreg & Happ); try done.
    { simpl in Hwires. lia. }
    exists srv', s'. split; [exact Hsteps|].
    split; [by eapply HubFacts.steps_reachable|]. by split_and!.
  - destruct Hok as (_ & Hord & Hidle & _).
    destruct (Hidle Hw) as [Hwp Hq]. rewrite Hwp, Hq in Hwires.
    destruct wires; [|done].
    exists srv, s. simpl. split; [done|]. split; [done|].
    split; [done|]. rewrite <- Hord, Hlost, Hwp, Hq.
    by rewrite !app_nil_r.
Qed.

End Server.

Lemma read_reply_then_broadcast_witness :
  cinemaStep beforeBooking (ReadDone 0 false (lit "PVR,Inception,3,4"))
  = Some demoServer
  /\ heap beforeBooking !! 1%nat = Some (async_accept newSession)
  /\ exists s',
       heap demoServer !! 1%nat = Some s'
       /\ enqueued s' = [formatUpdateData (app demoServer)].
Proof.
  assert (cinemaStep beforeBooking (ReadDone 0 false (lit "PVR,Inception,3,4"))
          = Some demoServer) as Hstep by (vm_compute; reflexivity).
  assert (heap beforeBooking !! 1%nat = Some (async_accept newSession))
    as Hs by (vm_compute; reflexivity).
  split; [exact Hstep|]. split; [exact Hs|].
  destruct (read_reply_then_broadcast handleMessage formatCinemaData
              formatUpdateData beforeBooking demoServer 0%nat
              (lit "PVR,Inception,3,4") Hstep)
    as (_ & _ & Hall).
  destruct (Hall 1%nat _ Hs) as (s' & Hs' & Henq).
  exists s'. split; [exact Hs'|]. rewrite Henq. vm_compute. reflexivity.
Defined.

Lemma queue_drains_witness :
  let wires := [staleBytes (formatCinemaData Main.shows); []; lit "?"] in
  cinemaReachable Main.shows demoServer
  /\ heap demoServer !! 0%nat = Some (demoSession 0)
  /\ lost (demoSession 0) = []
  /\ length (write_pending (demoSession 0)
               ++ message_queue_ (demoSession 0)) = 3%nat
  /\ exists srv' s',
       cinemaSteps demoServer (WriteDone 0 false <$> wires) = Some srv'
       /\ heap srv' !! 0%nat = Some s'
       /\ written s' = enqueued (demoSession 0)
       /\ delivered s' = wires
       /\ writing_ s' = false.
Proof.
  intros wires.
  assert (heap demoServer !! 0%nat = Some (demoSession 0)) as Hs
    by (vm_compute; reflexivity).
  split; [exact HubFacts.demoServer_reachable|]. split; [exact Hs|].
  split; [reflexivity|]. split; [vm_compute; reflexivity|].
  destruct (queue_drains handleMessage formatCinemaData formatUpdateData
              Main.shows demoServer 0%nat (demoSession 0) wires
              HubFacts.demoServer_reachable Hs eq_refl)
    as (_ & srv' & s' & Hsteps & _ & Hs' & Hw & _ & Hd & Hidle & _).
  { vm_compute. reflexivity. }
  exists srv', s'. split; [exact Hsteps|]. split; [exact Hs'|].
  split; [exact Hw|]. split; [exact Hd | exact Hidle].
Defined.

End HubRuns.

(** ** The catalog over a run of the cinema server *)

Lemma soldFrom_refl (sh : Shows) : soldFrom sh sh.
Proof.
  unfold soldFrom. split_and!; try done.
  by apply Forall_Forall2_diag, Forall_true.
Qed.

Lemma soldFrom_trans (a b c : Shows) :
  soldFrom a b -> soldFrom b c -> soldFrom a c.
Proof.
  intros (Hm & Hd & Ht & Hs) (Hm' & Hd' & Ht' & Hs').
  unfold soldFrom. split_and!; try congruence.
  eapply Forall2_trans; [|exact Hs | exact Hs']. simpl. auto.
Qed.

Lemma catalog_soldFrom_refl (shows : list Shows) : Forall2 soldFrom shows shows.
Proof. apply Forall_Forall2_diag, Forall_true, soldFrom_refl. Qed.

Lemma bookSeats_soldFrom (l : list Z) (sh : Shows) :
  soldFrom sh (bookSeats l sh).2.
Proof.
  unfold bookSeats, bookSeatsOn.
  destruct (existsb (seatRejected (seats sh)) l) eqn:E; simpl.
  - rewrite set_seats_same. apply soldFrom_refl.
  - apply existsb_seatRejected_false in E.
    unfold soldFrom. simpl. split_and!; try done.
    apply Forall2_same_length_lookup_2;
      [by rewrite length_foldl_markBooked|].
    intros i was now Hwas. rewrite lookup_foldl_markBooked
      by (eapply Forall_impl; [exact E | simpl; lia]).
    rewrite Hwas. case_bool_decide; simpl; congruence.
Qed.

(** What a request can do to the catalog: nothing, or book seats of the
    first show that has the theater and the title of the request. *)
Lemma processBooking_catalog (msg : cstring) (shows : list Shows) :
  (processBooking msg shows).2 = shows
  \/ exists t m seatNums before sh after,
       shows = before ++ sh :: after
       /\ Forall (fun s => ~ (theater s = t /\ movie s = m)) before
       /\ theater sh = t /\ movie sh = m
       /\ (processBooking msg shows).2
          = before ++ (bookSeats seatNums sh).2 :: after.
Proof.
  destruct (processBooking_path msg shows)
    as [ | ? ? ? ? bad ? Hp | ? ? ? ? Hp Hne Hok
       | t m fields ns before sh after Hp Hne Hok Hsh Hb Ht Hm];
    [by left.. |].
  right. by exists t, m, ns, before, sh, after.
Qed.

Lemma handleMessage_catalog (received : cstring) (shows : list Shows) :
  (handleMessage received shows).2 = shows
  \/ (handleMessage received shows).2 = (processBooking received shows).2.
Proof.
  unfold handleMessage.
  destruct (bool_decide (received = lit "get_data")
            || bool_decide (received = lit "refresh")); [by left|].
  destruct (bool_decide (find [comma] received ≠ None)); [|by left].
  right. by destruct (processBooking received shows).
Qed.

Lemma processBooking_soldFrom (msg : cstring) (shows : list Shows) :
  Forall2 soldFrom shows (processBooking msg shows).2.
Proof.
  destruct (processBooking_catalog msg shows)
    as [-> | (t & m & ns & before & sh & after & -> & _ & _ & _ & ->)];
    [apply catalog_soldFrom_refl|].
  apply Forall2_app; [apply catalog_soldFrom_refl|].
  constructor; [apply bookSeats_soldFrom | apply catalog_soldFrom_refl].
Qed.

Lemma handleMessage_soldFrom (received : cstring) (shows : list Shows) :
  Forall2 soldFrom shows (handleMessage received shows).2.
Proof.
  destruct (handleMessage_catalog received shows) as [-> | ->];
    [apply catalog_soldFrom_refl | apply processBooking_soldFrom].
Qed.

Lemma handleMessage_sells (a shows : list Shows) (received : cstring) :
  Forall2 soldFrom a shows ->
  Forall2 soldFrom a (handleMessage received shows).2.
Proof.
  intros Ha.
  eapply Forall2_trans; [|exact Ha | apply handleMessage_soldFrom].
  apply soldFrom_trans.
Qed.

(** X9.  In every state that the cinema server reaches, the catalog is
    the initial catalog with some seats sold: the same shows in the
    same order, each with its title, date, theater and number of
    seats, and every seat that was booked still booked.  No request
    adds, removes, renames or reorders a show, or releases a seat. *)
Theorem catalog_only_sells (a : list Shows) (srv : Hub.Server) :
  Hub.cinemaReachable a srv -> Forall2 soldFrom a (Hub.app srv).
Proof.
  apply (HubRuns.reachable_app handleMessage formatCinemaData
           formatUpdateData (fun x => Forall2 soldFrom a x)).
  - apply catalog_soldFrom_refl.
  - intros received x Hx. by apply handleMessage_sells.
Qed.

Lemma catalog_only_sells_witness :
  Hub.cinemaReachable Main.shows Hub.demoServer
  /\ Hub.app Hub.demoServer <> Main.shows
  /\ Forall2 soldFrom Main.shows (Hub.app Hub.demoServer).
Proof.
  split; [exact HubFacts.demoServer_reachable|]. split.
  - apply (bool_decide_unpack _). vm_compute. exact I.
  - exact (catalog_only_sells Main.shows Hub.demoServer
             HubFacts.demoServer_reachable).
Defined.

Lemma lookup_middle_ne {A} (before after : list A) (x y : A) (n : nat) :
  n <> length before ->
  (before ++ y :: after) !! n = (before ++ x :: after) !! n.
Proof.
  intros Hn. destruct (decide (n < length before)%nat) as [Hlt|Hge].
  - by rewrite !lookup_app_l.
  - rewrite !lookup_app_r by lia.
    destruct (n - length before)%nat as [|k] eqn:E; [lia | done].
Qed.

(** A request leaves the show at [i] as it is when an earlier show has
    its theater and title, and that earlier show keeps them. *)
Lemma shadowed_step (received : cstring) (shows : list Shows) (i j : nat)
    (s2 : Shows) :
  (j < i)%nat -> shows !! i = Some s2 ->
  (exists s, shows !! j = Some s
             /\ theater s = theater s2 /\ movie s = movie s2) ->
  (handleMessage received shows).2 !! i = Some s2
  /\ exists s, (handleMessage received shows).2 !! j = Some s
               /\ theater s = theater s2 /\ movie s = movie s2.
Proof.
  intros Hji Hi (s & Hj & Ht & Hm).
  destruct (handleMessage_catalog received shows) as [-> | ->]; [by eauto|].
  destruct (processBooking_catalog received shows)
    as [-> | (t & m & ns & before & sh & after & -> & Hb & Hsht & Hshm & ->)];
    [by eauto|].
  assert (i <> length before) as Hne.
  { intros ->. rewrite list_lookup_middle in Hi by done.
    injection Hi as ->. rewrite lookup_app_l in Hj by done.
    rewrite Forall_forall in Hb. apply (Hb s).
    - by eapply list_elem_of_lookup_2.
    - split; congruence. }
  split; [by rewrite (lookup_middle_ne before after sh)|].
  destruct (decide (j = length before)) as [->|Hnej].
  - rewrite list_lookup_middle in Hj by done. injection Hj as ->.
    exists (bookSeats ns s).2. rewrite list_lookup_middle by done.
    destruct (bookSeats_names ns s) as (-> & _ & -> & _). by split_and!.
  - exists s. by rewrite (lookup_middle_ne before after sh).
Qed.

(** X10.  A request names a theater and a title, not a date, and books
    the first show that has them; so a show that comes after another
    show of the same theater and title is never booked: in every state
    that the cinema server reaches it is as it was at the start. *)
Theorem shadowed_show_never_booked (a : list Shows) (srv : Hub.Server)
    (i j : nat) (s1 s2 : Shows) :
  Hub.cinemaReachable a srv ->
  (j < i)%nat -> a !! j = Some s1 -> a !! i = Some s2 ->
  theater s1 = theater s2 -> movie s1 = movie s2 ->
  Hub.app srv !! i = Some s2.
Proof.
  intros Hreach Hji Hj Hi Ht Hm.
  apply (HubRuns.reachable_app handleMessage formatCinemaData
           formatUpdateData
           (fun x => x !! i = Some s2
                     /\ exists s, x !! j = Some s
                          /\ theater s = theater s2 /\ movie s = movie s2)
           a srv); [by eauto | | exact Hreach].
  intros received x [Hxi Hxj]. by apply shadowed_step.
Qed.

Lemma shadowed_show_never_booked_witness :
  Hub.cinemaReachable twoDates afterTwoDates
  /\ Hub.app afterTwoDates !! 0%nat <> twoDates !! 0%nat
  /\ Hub.app afterTwoDates !! 1%nat = twoDates !! 1%nat.
Proof.
  assert (Hub.cinemaReachable twoDates afterTwoDates) as Hreach.
  { apply (HubFacts.steps_reachable _ _ _ _ (Hub.initialServer twoDates) _
             [Hub.Accepted 0; Hub.HandshakeDone 0 false;
              Hub.ReadDone 0 false (lit "PVR,Inception,1,2")]).
    - apply Hub.reach_init.
    - vm_compute. reflexivity. }
  split; [exact Hreach|]. split.
  - apply (bool_decide_unpack _). vm_compute. exact I.
  - apply (shadowed_show_never_booked twoDates afterTwoDates 1 0
             (newShows (lit "Inception") (lit "2025-09-11 19:30") (lit "PVR"))
             (newShows (lit "Inception") (lit "2025-09-11 22:00") (lit "PVR"))
             Hreach); [lia | reflexivity..].
Defined.

(** ** Every text that carries a snapshot *)

(** Before the first theater heading the parser ignores every line. *)
Lemma parseLine_initial (line : cstring) :
  starts_with Client.THEATER_PREFIX line = false ->
  Client.parseLine (Client.mkParser [] [] None) line
  = Client.mkParser [] [] None.
Proof.
  intros H. unfold Client.parseLine.
  rewrite (bool_decide_eq_false_2 (find Client.THEATER_PREFIX line = _))
    by (by rewrite find_starts_with, H).
  cbn [Client.currentTheater Client.currentShow].
  assert (forall b : bool,
             b && negb (bool_decide (@nil ascii = [])) = false) as ->
    by (intros b; apply andb_false_r).
  by destruct (bool_decide _).
Qed.

Lemma parse_initial_lines (lines : list cstring) :
  Forall (fun line => starts_with Client.THEATER_PREFIX line = false) lines ->
  foldl Client.parseLine (Client.mkParser [] [] None) lines
  = Client.mkParser [] [] None.
Proof.
  induction 1 as [|line lines Hline _ IH]; [done|].
  cbn [foldl]. by rewrite parseLine_initial.
Qed.

Lemma bodyLines_plain (shows : list Shows) :
  Forall wellFormed shows ->
  Forall (fun line => newline ∉ line)
         (flat_map (theaterLines shows) (theatersInOrder shows)).
Proof.
  intros Hwf. pose proof (snapshotLines_plain shows Hwf) as H.
  unfold snapshotLines in H.
  apply Forall_cons in H as [_ H]. by apply Forall_app in H as [H _].
Qed.

(** The theater blocks of a snapshot, between any lines that come
    before the first heading and any closing line that is none of the
    three kinds, are parsed into the regrouped catalog. *)
Lemma parse_text (pre : list cstring) (footer : cstring)
    (shows : list Shows) :
  Forall wellFormed shows ->
  Forall (fun line => newline ∉ line) pre ->
  Forall (fun line => starts_with Client.THEATER_PREFIX line = false) pre ->
  (newline ∉ footer) ->
  starts_with Client.THEATER_PREFIX footer = false ->
  starts_with Client.MOVIE_PREFIX footer = false ->
  find (lit "    Available seats:") footer = None ->
  Client.parseAndUpdateShows
    (unlines (pre ++ flat_map (theaterLines shows) (theatersInOrder shows)
                ++ [footer]))
  = groupedByTheater shows.
Proof.
  intros Hwf Hpre Hquiet Hfooter H1 H2 H3.
  unfold Client.parseAndUpdateShows. rewrite getlines_unlines.
  2:{ apply Forall_app. split; [done|]. apply Forall_app.
      split; [by apply bodyLines_plain | by constructor]. }
  rewrite !foldl_app, parse_initial_lines by done.
  cbn [foldl]. rewrite parseLine_other by done.
  by rewrite parse_theaters.
Qed.

Lemma formatUpdateData_lines (shows : list Shows) :
  formatUpdateData shows
  = unlines ([lit "BOOKING_UPDATE:"; UPDATE_DATA_HEADER]
               ++ flat_map (theaterLines shows) (theatersInOrder shows)
               ++ [UPDATE_DATA_FOOTER]).
Proof.
  unfold formatUpdateData, formatBody, BOOKING_UPDATE_PREFIX.
  change ([lit "BOOKING_UPDATE:"; UPDATE_DATA_HEADER]
            ++ flat_map (theaterLines shows) (theatersInOrder shows)
            ++ [UPDATE_DATA_FOOTER])
    with (lit "BOOKING_UPDATE:" :: UPDATE_DATA_HEADER
            :: flat_map (theaterLines shows) (theatersInOrder shows)
            ++ [UPDATE_DATA_FOOTER]).
  rewrite formatBody_lines, !unlines_cons, unlines_app, <- !app_assoc.
  reflexivity.
Qed.

Lemma prefixed_lines (prefix : cstring) (shows : list Shows) :
  prefix ++ blank_line ++ formatCinemaData shows
  = unlines ([prefix; []; CINEMA_DATA_HEADER]
               ++ flat_map (theaterLines shows) (theatersInOrder shows)
               ++ [CINEMA_DATA_FOOTER]).
Proof.
  rewrite formatCinemaData_lines. unfold snapshotLines.
  change ([prefix; []; CINEMA_DATA_HEADER]
            ++ flat_map (theaterLines shows) (theatersInOrder shows)
            ++ [CINEMA_DATA_FOOTER])
    with (prefix :: [] :: CINEMA_DATA_HEADER
            :: flat_map (theaterLines shows) (theatersInOrder shows)
            ++ [CINEMA_DATA_FOOTER]).
  by rewrite (unlines_cons prefix), (unlines_cons []).
Qed.

Lemma parse_prefixed (prefix : cstring) (shows : list Shows) :
  Forall wellFormed shows -> (newline ∉ prefix) ->
  starts_with Client.THEATER_PREFIX prefix = false ->
  Client.parseAndUpdateShows (prefix ++ blank_line ++ formatCinemaData shows)
  = groupedByTheater shows.
Proof.
  intros Hwf Hprefix Hquiet. rewrite prefixed_lines.
  apply parse_text; try done.
  - repeat constructor; [done | by intros ?%elem_of_nil | closed_notin].
  - by repeat constructor.
  - closed_notin.
Qed.

Lemma parse_formatCinemaData (shows : list Shows) :
  Forall wellFormed shows ->
  Client.parseAndUpdateShows (formatCinemaData shows) = groupedByTheater shows.
Proof.
  intros Hwf. rewrite formatCinemaData_lines. unfold snapshotLines.
  apply (parse_text [CINEMA_DATA_HEADER] CINEMA_DATA_FOOTER); try done.
  - repeat constructor. closed_notin.
  - by repeat constructor.
  - closed_notin.
Qed.

Lemma parse_formatUpdateData (shows : list Shows) :
  Forall wellFormed shows ->
  Client.parseAndUpdateShows (formatUpdateData shows) = groupedByTheater shows.
Proof.
  intros Hwf. rewrite formatUpdateData_lines.
  apply parse_text; try done.
  - repeat constructor; closed_notin.
  - by repeat constructor.
  - closed_notin.
Qed.

(** *** What the client does with a data stream *)

Lemma received_stream (response : cstring) (st : CinemaClient.State) :
  Client.isCinemaDataStream response = true ->
  CinemaClient.shows_ (CinemaClient.received response st)
  = Client.parseAndUpdateShows response
  /\ CinemaClient.lastResponse_ (CinemaClient.received response st) = response
  /\ CinemaClient.console (CinemaClient.received response st)
     = CinemaClient.console st.
Proof.
  intros Hstream.
  unfold CinemaClient.received, CinemaClient.processMessage.
  rewrite Hstream.
  destruct (CinemaClient.contains (lit "SUCCESS:") response
            || CinemaClient.contains (lit "ERROR:") response); [done|].
  by destruct (CinemaClient.contains CinemaClient.BOOKING_UPDATE response).
Qed.

Lemma formatUpdateData_is_stream (shows : list Shows) :
  Client.isCinemaDataStream (formatUpdateData shows) = true
  /\ CinemaClient.contains CinemaClient.BOOKING_UPDATE
       (formatUpdateData shows) = true.
Proof.
  unfold Client.isCinemaDataStream, CinemaClient.contains, formatUpdateData.
  split.
  - rewrite (bool_decide_eq_true_2
               (find Client.UPDATED_CINEMA_DATA _ ≠ None));
      [apply orb_true_r|].
    apply (find_occurrence Client.UPDATED_CINEMA_DATA BOOKING_UPDATE_PREFIX).
  - apply bool_decide_eq_true_2.
    unfold BOOKING_UPDATE_PREFIX. rewrite <- !app_assoc.
    apply (find_occurrence CinemaClient.BOOKING_UPDATE []).
Qed.

(** X11.  The broadcast text round-trips like the snapshot: for a
    catalog of well-formed shows, the client recognises the text of
    [formatUpdateData] as a data stream and as a booking update, and on
    receiving it replaces its list of shows by the shows of the
    catalog, theater by theater, keeps the text as its last response,
    and prints nothing. *)
Theorem update_round_trip (shows : list Shows) (st : CinemaClient.State) :
  Forall wellFormed shows ->
  Client.isCinemaDataStream (formatUpdateData shows) = true
  /\ CinemaClient.contains CinemaClient.BOOKING_UPDATE
       (formatUpdateData shows) = true
  /\ Client.parseAndUpdateShows (formatUpdateData shows)
     = groupedByTheater shows
  /\ CinemaClient.getShows
       (CinemaClient.received (formatUpdateData shows) st)
     = groupedByTheater shows
  /\ CinemaClient.lastResponse_
       (CinemaClient.received (formatUpdateData shows) st)
     = formatUpdateData shows
  /\ CinemaClient.console
       (CinemaClient.received (formatUpdateData shows) st)
     = CinemaClient.console st.
Proof.
  intros Hwf. destruct (formatUpdateData_is_stream shows) as [Hstream Hupd].
  destruct (received_stream (formatUpdateData shows) st Hstream)
    as (Hshows & Hlast & Hconsole).
  split_and!; try done.
  - by apply parse_formatUpdateData.
  - unfold CinemaClient.getShows. rewrite Hshows.
    by apply parse_formatUpdateData.
Qed.

Lemma update_round_trip_witness :
  let shows := (processBooking (lit "IMAX,Tenet,2,6") Main.shows).2 in
  Forall wellFormed shows
  /\ CinemaClient.getShows
       (CinemaClient.received (formatUpdateData shows)
          (CinemaClient.mkState [] [] [] []))
     = shows.
Proof.
  intros shows.
  assert (Forall wellFormed shows) as Hwf.
  { apply (bool_decide_unpack _). vm_compute. exact I. }
  split; [exact Hwf|].
  destruct (update_round_trip shows (CinemaClient.mkState [] [] [] []) Hwf)
    as (_ & _ & _ & -> & _).
  vm_compute. reflexivity.
Defined.

(** ** The responses of the message router *)

Lemma getlines_bytes (delim : ascii) (s item : cstring) (c : ascii) :
  item ∈ getlines delim s -> c ∈ item -> c ∈ s.
Proof.
  revert item. induction s as [|d s IH]; intros item; cbn [getlines].
  - by intros ?%elem_of_nil.
  - destruct (Ascii.eqb d delim).
    + intros [->|Hin]%elem_of_cons Hc; [by apply elem_of_nil in Hc|].
      right. by eapply IH.
    + destruct (getlines delim s) as [|it its] eqn:E.
      * intros ->%list_elem_of_singleton Hc.
        apply list_elem_of_singleton in Hc as ->. left.
      * intros [->|Hin]%elem_of_cons Hc.
        -- apply elem_of_cons in Hc as [->|Hc]; [left|].
           right. apply (IH it); [left | done].
        -- right. apply (IH item); [by right | done].
Qed.

Lemma seatList_plain (fields : list cstring) (seatNums : list Z) :
  Forall2 seatField fields seatNums -> newline ∉ seatList seatNums.
Proof.
  intros Hok.
  assert (Forall (fun x => 1 <= x <= 20) seatNums) as Hrange.
  { apply Forall_forall. intros n Hn.
    apply list_elem_of_lookup in Hn as [i Hi].
    by destruct (Forall2_lookup_r _ _ _ _ _ Hok Hi) as (f & _ & _ & ?). }
  pose proof (seatList_bytes _ Hrange) as Hb. rewrite forallb_forall in Hb.
  intros Hin%list_elem_of_In%Hb%seatByte_plain. by destruct Hin.
Qed.

(** A response of the booking service is one line that is not a
    theater heading, an empty line, and the snapshot of the catalog
    that the call leaves; the line is a single line when the request
    is. *)
Lemma processBooking_response (msg : cstring) (shows : list Shows) :
  exists line,
    message (processBooking msg shows).1
    = line ++ blank_line ++ formatCinemaData (processBooking msg shows).2
    /\ starts_with Client.THEATER_PREFIX line = false
    /\ ((newline ∉ msg) -> newline ∉ line).
Proof.
  pose proof (processBooking_path msg shows) as Hpath.
  assert (forall item,
             item ∈ getlines comma msg -> (newline ∉ msg) ->
             newline ∉ item) as Hitem.
  { intros item Hin Hnl Hc. apply Hnl. by eapply getlines_bytes. }
  destruct Hpath
    as [ | t m good ns bad rest Hp Hgood Hbad | t m fields ns Hp Hne Hok
       | t m fields ns before sh after Hp Hne Hok Hsh Hb Ht Hm].
  - eexists. cbn. split; [done|]. split; [done|]. intros _. closed_notin.
  - assert (bad ∈ getlines comma msg) as Hin.
    { rewrite Hp. do 2 right. apply elem_of_app. right. left. }
    destruct (stoi bad); cbn.
    + exists (lit "ERROR: Invalid seat number " ++ bad
                ++ lit ". Must be 1-20.").
      split; [by rewrite <- !app_assoc|]. split; [done|]. intros Hnl.
      rewrite !not_elem_of_app. split_and!; try closed_notin. by apply Hitem.
    + exists (lit "ERROR: Invalid seat number format: " ++ bad).
      split; [by rewrite <- !app_assoc|]. split; [done|]. intros Hnl.
      rewrite !not_elem_of_app. split_and!; try closed_notin. by apply Hitem.
  - exists (lit "ERROR: Show not found - " ++ m ++ lit " at " ++ t). cbn.
    split; [by rewrite <- !app_assoc|]. split; [done|]. intros Hnl.
    rewrite !not_elem_of_app. split_and!; try closed_notin;
      apply Hitem; try done; rewrite Hp; [right; left | left].
  - destruct (bookSeats ns sh) as [[] sh'] eqn:Hbook; cbn.
    + exists (lit "SUCCESS: Booked seats " ++ seatList ns ++ lit " for "
                ++ m ++ lit " at " ++ t).
      split; [by rewrite <- !app_assoc|]. split; [done|]. intros Hnl.
      rewrite !not_elem_of_app. split_and!; try closed_notin;
        [by eapply seatList_plain | |];
        apply Hitem; try done; rewrite Hp; [right; left | left].
    + exists (lit "ERROR: One or more seats are already booked or invalid").
      split; [by rewrite (bookSeats_false _ _ _ Hbook), Hsh|].
      split; [done|]. intros _. closed_notin.
Qed.

(** Every response of the router ends with the snapshot of the catalog
    that the call leaves; the response to a request of one line is the
    snapshot, or one line that is not a theater heading, an empty line
    and the snapshot. *)
Lemma handleMessage_response (received : cstring) (shows : list Shows) :
  exists prefix,
    (handleMessage received shows).1.1
    = prefix ++ formatCinemaData (handleMessage received shows).2
    /\ ((newline ∉ received) ->
        prefix = []
        \/ exists line, prefix = line ++ blank_line /\ (newline ∉ line)
             /\ starts_with Client.THEATER_PREFIX line = false).
Proof.
  unfold handleMessage.
  destruct (bool_decide (received = lit "get_data")
            || bool_decide (received = lit "refresh")).
  { exists []. split; [done | by left]. }
  destruct (bool_decide (find [comma] received ≠ None)).
  2:{ exists (lit "Echo: " ++ received ++ blank_line). cbn [fst snd].
      split; [by rewrite <- !app_assoc|]. intros Hnl. right.
      exists (lit "Echo: " ++ received). split; [by rewrite <- app_assoc|].
      split; [|done]. rewrite not_elem_of_app. split; [closed_notin | done]. }
  destruct (processBooking_response received shows)
    as (line & Hmsg & Hquiet & Hline).
  destruct (processBooking received shows) as [r shows'] eqn:E.
  cbn [fst snd] in *.
  exists (line ++ blank_line). split; [by rewrite Hmsg, <- app_assoc|].
  intros Hnl. right. exists line. split; [done|]. split; [by apply Hline|].
  exact Hquiet.
Qed.

Lemma soldFrom_wellFormed (a b : Shows) :
  soldFrom a b -> wellFormed a -> wellFormed b.
Proof.
  intros (Hm & Hd & Ht & Hs) Hwf. unfold wellFormed in *.
  apply Forall2_length in Hs. by rewrite Hm, Hd, Ht, <- Hs.
Qed.

Lemma catalog_wellFormed (a b : list Shows) :
  Forall2 soldFrom a b -> Forall wellFormed a -> Forall wellFormed b.
Proof.
  induction 1 as [|x y a b Hxy _ IH]; [done|].
  intros [Hx Ha]%Forall_cons. constructor; [|by apply IH].
  by eapply soldFrom_wellFormed.
Qed.

(** C2, amended.  Each error path of [processBooking] (fewer than
    three fields, a bad seat field, no matching show, a reservation that
    [bookSeats] refuses) reports a failure; whenever a failure is
    reported the catalog is unchanged and [shouldBroadcast] is false;
    every response, of a success or of a failure, ends with the snapshot
    of the catalog as it is after the call, and the client recognises it
    as a data stream; and when the shows of the catalog are well formed
    and the request holds no line break, the snapshot parser reads the
    shows of that catalog off the response, theater by theater. *)
Theorem processBooking_error_paths (msg : cstring) (shows : list Shows) :
  let r := (processBooking msg shows).1 in
  let shows' := (processBooking msg shows).2 in
  ((length (getlines comma msg) < 3)%nat -> success r = false)
  /\ ((exists field, field ∈ drop 2 (getlines comma msg)
                     /\ badSeatField field) -> success r = false)
  /\ (forall t m fields,
        getlines comma msg = t :: m :: fields ->
        Forall (fun s => ~ (theater s = t /\ movie s = m)) shows ->
        success r = false)
  /\ (forall t m fields seatNums before sh after,
        getlines comma msg = t :: m :: fields ->
        Forall2 seatField fields seatNums ->
        shows = before ++ sh :: after ->
        Forall (fun s => ~ (theater s = t /\ movie s = m)) before ->
        theater sh = t -> movie sh = m ->
        (bookSeats seatNums sh).1 = false ->
        success r = false)
  /\ (success r = false -> shows' = shows /\ shouldBroadcast r = false)
  /\ formatCinemaData shows' `suffix_of` message r
  /\ Client.isCinemaDataStream (message r) = true
  /\ (Forall wellFormed shows -> (newline ∉ msg) ->
      Client.parseAndUpdateShows (message r) = groupedByTheater shows').
Proof.
  intros r shows'.
  destruct (processBooking_failures msg shows)
    as (Hfew & Hbad & Hnone & Hrefused & Hsame & Hsuffix & Hstream).
  do 7 (split; [assumption|]).
  intros Hwf Hnl. subst r shows'.
  assert (Forall wellFormed (processBooking msg shows).2) as Hwf'.
  { eapply catalog_wellFormed; [apply processBooking_soldFrom | done]. }
  destruct (processBooking_response msg shows)
    as (line & -> & Hquiet & Hline).
  apply parse_prefixed; [exact Hwf' | by apply Hline | exact Hquiet].
Qed.

Lemma processBooking_error_paths_witness :
  let shows := Main.shows in
  let r := (processBooking (lit "Odeon,Inception,1,2") shows).1 in
  let shows' := (processBooking (lit "Odeon,Inception,1,2") shows).2 in
  Forall wellFormed shows /\ (newline ∉ lit "Odeon,Inception,1,2")
  /\ success r = false
  /\ shows' = shows /\ shouldBroadcast r = false
  /\ Client.isCinemaDataStream (message r) = true
  /\ Client.parseAndUpdateShows (message r) = shows.
Proof.
  intros shows r shows'.
  assert (Forall wellFormed shows) as Hwf.
  { apply (bool_decide_unpack _). vm_compute. exact I. }
  assert (newline ∉ lit "Odeon,Inception,1,2") as Hnl by closed_notin.
  destruct (processBooking_error_paths (lit "Odeon,Inception,1,2") shows)
    as (_ & _ & _ & _ & Hsame & _ & Hstream & Hparse).
  split; [exact Hwf|]. split; [exact Hnl|].
  split; [reflexivity|]. split; [|split; [|split]].
  - apply Hsame. reflexivity.
  - apply Hsame. reflexivity.
  - exact Hstream.
  - unfold r. rewrite (Hparse Hwf Hnl). vm_compute. reflexivity.
Defined.

(** The parser does not read the catalog off every response: a request
    that holds line breaks has its fields repeated in the error line,
    and the parser takes the lines so made for a theater heading and a
    movie line, and returns a show that the catalog does not have; and
    on the catalog whose show has no date the movie line of the
    snapshot is skipped, and the parser returns no show. *)
Lemma response_not_parsed :
  ~ responseParses threeLineRequest Main.shows
  /\ ~ responseParses (lit "PVR,Inception,3,4") undatedShows.
Proof.
  unfold responseParses. split; intros H; apply Forall2_length in H.
  - assert (length (Client.parseAndUpdateShows
                      (message (processBooking threeLineRequest
                                  Main.shows).1))
            = S (length (groupedByTheater
                           (processBooking threeLineRequest Main.shows).2)))
      as Hlen by (vm_compute; reflexivity).
    rewrite Hlen in H. lia.
  - assert (Client.parseAndUpdateShows
              (message (processBooking (lit "PVR,Inception,3,4")
                          undatedShows).1) = []) as Hnone
      by (vm_compute; reflexivity).
    assert (length (groupedByTheater
                      (processBooking (lit "PVR,Inception,3,4")
                         undatedShows).2) = 1%nat) as Hone
      by (vm_compute; reflexivity).
    rewrite Hnone, Hone in H. discriminate H.
Qed.

(** X12.  Whatever single-line message the router is given, on a
    catalog of well-formed shows, the client parses its response into
    the shows of the catalog as the call has left it, theater by
    theater: the line that precedes the snapshot in the response to a
    booking, to a refused request or to an unknown message does not
    disturb the parser.  The client takes every response for a data
    stream, replaces its list of shows and prints nothing. *)
Theorem response_round_trip (received : cstring) (shows : list Shows)
    (st : CinemaClient.State) :
  Forall wellFormed shows -> (newline ∉ received) ->
  Client.parseAndUpdateShows (handleMessage received shows).1.1
  = groupedByTheater (handleMessage received shows).2
  /\ CinemaClient.getShows
       (CinemaClient.received (handleMessage received shows).1.1 st)
     = groupedByTheater (handleMessage received shows).2
  /\ CinemaClient.console
       (CinemaClient.received (handleMessage received shows).1.1 st)
     = CinemaClient.console st.
Proof.
  intros Hwf Hnl.
  assert (Forall wellFormed (handleMessage received shows).2) as Hwf'.
  { eapply catalog_wellFormed; [apply handleMessage_soldFrom | done]. }
  destruct (handleMessage_response received shows) as (prefix & Hresp & Hone).
  assert (Client.parseAndUpdateShows (handleMessage received shows).1.1
          = groupedByTheater (handleMessage received shows).2) as Hparse.
  { rewrite Hresp.
    destruct (Hone Hnl) as [-> | (line & -> & Hline & Hquiet)].
    - by apply parse_formatCinemaData.
    - rewrite <- app_assoc. by apply parse_prefixed. }
  destruct (received_stream (handleMessage received shows).1.1 st)
    as (Hshows & _ & Hconsole).
  { rewrite Hresp. apply formatCinemaData_is_stream. }
  split; [exact Hparse|]. split; [|exact Hconsole].
  unfold CinemaClient.getShows. by rewrite Hshows.
Qed.

Lemma response_round_trip_witness :
  Forall wellFormed Main.shows
  /\ (newline ∉ lit "PVR,Inception,3,4")
  /\ Client.parseAndUpdateShows
       (handleMessage (lit "PVR,Inception,3,4") Main.shows).1.1
     = (handleMessage (lit "PVR,Inception,3,4") Main.shows).2.
Proof.
  assert (Forall wellFormed Main.shows) as Hwf.
  { apply (bool_decide_unpack _). vm_compute. exact I. }
  assert (newline ∉ lit "PVR,Inception,3,4") as Hnl by closed_notin.
  split; [exact Hwf|]. split; [exact Hnl|].
  destruct (response_round_trip (lit "PVR,Inception,3,4") Main.shows
              (CinemaClient.mkState [] [] [] []) Hwf Hnl) as (-> & _).
  vm_compute. reflexivity.
Defined.

(** ** Catalogs listed theater by theater *)

(** One step of the loop that collects the theater names. *)
Local Abbreviation collect :=
  (fun (theaters : list cstring) (show : Shows) =>
     if bool_decide (theater show ∈ theaters) then theaters
     else theaters ++ [theater show]).

Lemma collect_extends (shows : list Shows) (ts : list cstring) :
  exists new,
    foldl collect ts shows = ts ++ new /\ forall t, t ∈ new -> t ∉ ts.
Proof.
  revert ts. induction shows as [|x shows IH]; intros ts; cbn [foldl].
  - exists []. split; [by rewrite app_nil_r | by intros t ?%elem_of_nil].
  - case_bool_decide as Hin; [apply IH|].
    destruct (IH (ts ++ [theater x])) as (new & -> & Hnew).
    exists (theater x :: new). split; [by rewrite <- app_assoc|].
    intros t [->|Ht]%elem_of_cons; [done|].
    intros Hts. apply (Hnew t Ht), elem_of_app. by left.
Qed.

(** A theater that has been left has no further show. *)
Lemma blocks_left (shows : list Shows) (ts : list cstring) (t : cstring) :
  blocksFrom ts shows = true -> t ∈ ts -> last ts <> Some t ->
  filter (fun show => theater show = t) shows = [].
Proof.
  revert ts. induction shows as [|x shows IH]; intros ts Hb Ht Hlast;
    [done|].
  cbn [blocksFrom] in Hb. rewrite filter_cons.
  case_bool_decide as Hin.
  - apply andb_true_iff in Hb as [Hx%bool_decide_eq_true Hb].
    rewrite decide_False by congruence. by eapply IH.
  - rewrite decide_False by congruence.
    apply (IH (ts ++ [theater x])); [done | by apply elem_of_app; left |].
    rewrite last_snoc. congruence.
Qed.

Lemma flat_map_nil {A B} (f : A -> list B) (l : list A) :
  (forall x, x ∈ l -> f x = []) -> flat_map f l = [].
Proof.
  induction l as [|x l IH]; intros H; [done|].
  cbn [flat_map]. rewrite (H x) by left. apply IH.
  intros y Hy. apply H. by right.
Qed.

Lemma flat_map_eq {A B} (f g : A -> list B) (l : list A) :
  (forall x, x ∈ l -> f x = g x) -> flat_map f l = flat_map g l.
Proof.
  induction l as [|x l IH]; intros H; [done|].
  cbn [flat_map]. rewrite (H x) by left. f_equal. apply IH.
  intros y Hy. apply H. by right.
Qed.

(** A show in the theater collected last comes first in the regrouped
    list of the shows that follow it. *)
Lemma blocks_grouped_cons (x : Shows) (shows : list Shows)
    (ts : list cstring) :
  NoDup ts -> last ts = Some (theater x) -> blocksFrom ts shows = true ->
  flat_map (fun t => filter (fun show => theater show = t) shows)
           (foldl collect ts shows) = shows ->
  flat_map (fun t => filter (fun show => theater show = t) (x :: shows))
           (foldl collect ts shows) = x :: shows.
Proof.
  intros Hts Hlast Hb IH.
  destruct (collect_extends shows ts) as (new & Hfold & Hnew).
  rewrite Hfold in IH |- *.
  apply last_Some in Hlast as [ts0 ->].
  apply NoDup_app in Hts as (_ & Hts0 & _).
  rewrite <- !app_assoc, !flat_map_app in IH |- *.
  cbn [flat_map app] in IH |- *. rewrite !app_nil_r in IH |- *.
  assert (forall shows',
             (shows' = shows \/ shows' = x :: shows) ->
             flat_map (fun t => filter (fun show => theater show = t) shows')
                      ts0 = []) as Hleft.
  { intros shows' Hshows'. apply flat_map_nil. intros t Ht.
    assert (filter (fun show => theater show = t) shows = []) as Hrest.
    { apply (blocks_left shows (ts0 ++ [theater x])); [done | |].
      - apply elem_of_app. by left.
      - rewrite last_snoc. intros [= Heq].
        apply (Hts0 t Ht). rewrite Heq. left. }
    destruct Hshows' as [-> | ->]; [done|].
    rewrite filter_cons, decide_False; [done|].
    intros Heq. apply (Hts0 t Ht). rewrite <- Heq. left. }
  rewrite (Hleft shows) in IH by (by left).
  rewrite (Hleft (x :: shows)) by (by right).
  cbn [app] in IH |- *.
  rewrite filter_cons, decide_True by done.
  rewrite <- app_comm_cons. f_equal.
  etrans; [|exact IH]. f_equal. apply flat_map_eq. intros t Ht.
  rewrite filter_cons, decide_False; [done|].
  intros Heq. apply (Hnew t Ht). rewrite <- Heq.
  apply elem_of_app. right. left.
Qed.

(** On a catalog that never comes back to a theater, the regrouping by
    theater changes nothing. *)
Lemma blocks_grouped (shows : list Shows) (ts : list cstring) :
  NoDup ts -> blocksFrom ts shows = true ->
  flat_map (fun t => filter (fun show => theater show = t) shows)
           (foldl collect ts shows)
  = shows.
Proof.
  revert ts. induction shows as [|x shows IH]; intros ts Hts Hb.
  - by apply flat_map_nil.
  - cbn [foldl]. cbn [blocksFrom] in Hb.
    assert (NoDup (collect ts x)
            /\ last (collect ts x) = Some (theater x)
            /\ blocksFrom (collect ts x) shows = true) as (Hts' & Hlast & Hb').
    { cbv beta. case_bool_decide as Hin.
      - by apply andb_true_iff in Hb as [Hx%bool_decide_eq_true Hb].
      - split_and!; [|by rewrite last_snoc | done].
        apply NoDup_app. split_and!; [done | | apply NoDup_singleton].
        by intros t Ht ->%list_elem_of_singleton. }
    apply blocks_grouped_cons; try done. by apply IH.
Qed.

Lemma listed_grouped (shows : list Shows) :
  listedByTheater shows -> groupedByTheater shows = shows.
Proof.
  intros H. unfold groupedByTheater, theatersInOrder.
  apply blocks_grouped; [apply NoDup_nil_2 | exact H].
Qed.

(** X13.  On a catalog of well-formed shows that is listed theater by
    theater, the snapshot and the broadcast text carry the catalog
    itself: the client parses either into the list of the server's
    shows, in the server's order. *)
Theorem listed_round_trip (shows : list Shows) :
  Forall wellFormed shows -> listedByTheater shows ->
  Client.parseAndUpdateShows (formatCinemaData shows) = shows
  /\ Client.parseAndUpdateShows (formatUpdateData shows) = shows.
Proof.
  intros Hwf Hlisted.
  rewrite parse_formatCinemaData, parse_formatUpdateData by done.
  by rewrite listed_grouped.
Qed.

Lemma listed_round_trip_witness :
  Forall wellFormed Main.shows /\ listedByTheater Main.shows
  /\ Client.parseAndUpdateShows (formatUpdateData Main.shows) = Main.shows.
Proof.
  assert (Forall wellFormed Main.shows) as Hwf.
  { apply (bool_decide_unpack _). vm_compute. exact I. }
  assert (listedByTheater Main.shows) as Hlisted by reflexivity.
  split; [exact Hwf|]. split; [exact Hlisted|].
  apply (listed_round_trip Main.shows Hwf Hlisted).
Defined.

(** ** The client's view of the server *)

Lemma soldFrom_blocks (a b : list Shows) (ts : list cstring) :
  Forall2 soldFrom a b -> blocksFrom ts b = blocksFrom ts a.
Proof.
  intros H. revert ts.
  induction H as [|x y a b (_ & _ & Ht & _) _ IH]; intros ts; [done|].
  cbn [blocksFrom]. by rewrite Ht, !IH.
Qed.

(** X14.  The cinema server started on a catalog of well-formed shows
    listed theater by theater, as the catalog of main.cpp is, keeps its
    clients exact: in every state that it reaches, the initial data,
    the broadcast text and the response to any single-line message are
    parsed by the client into the list of the server's shows as the
    message leaves it, in the server's order. *)
Theorem client_view_is_catalog (a : list Shows) (srv : Hub.Server)
    (received : cstring) :
  Forall wellFormed a -> listedByTheater a -> Hub.cinemaReachable a srv ->
  Client.parseAndUpdateShows (formatCinemaData (Hub.app srv)) = Hub.app srv
  /\ Client.parseAndUpdateShows (formatUpdateData (Hub.app srv)) = Hub.app srv
  /\ ((newline ∉ received) ->
      Client.parseAndUpdateShows (handleMessage received (Hub.app srv)).1.1
      = (handleMessage received (Hub.app srv)).2).
Proof.
  intros Hwf Hlisted Hreach.
  assert (Forall2 soldFrom a (Hub.app srv)) as Hsold.
  { revert Hreach.
    apply (HubRuns.reachable_app handleMessage formatCinemaData
             formatUpdateData (fun x => Forall2 soldFrom a x)).
    - apply catalog_soldFrom_refl.
    - intros msg x Hx. by apply handleMessage_sells. }
  assert (forall x, Forall2 soldFrom a x ->
                    Forall wellFormed x /\ groupedByTheater x = x) as Hexact.
  { intros x Hx. split; [by eapply catalog_wellFormed|].
    apply listed_grouped. unfold listedByTheater.
    by rewrite (soldFrom_blocks a x). }
  destruct (Hexact _ Hsold) as [Hwf' Hsame].
  split; [by rewrite parse_formatCinemaData, Hsame|].
  split; [by rewrite parse_formatUpdateData, Hsame|].
  intros Hnl.
  destruct (Hexact _ (handleMessage_sells a _ received Hsold))
    as [Hwf'' Hsame''].
  destruct (handleMessage_response received (Hub.app srv))
    as (prefix & -> & Hone).
  destruct (Hone Hnl) as [-> | (line & -> & Hline & Hquiet)].
  - by rewrite app_nil_l, parse_formatCinemaData, Hsame''.
  - by rewrite <- app_assoc, parse_prefixed, Hsame''.
Qed.

Lemma client_view_is_catalog_witness :
  Forall wellFormed Main.shows /\ listedByTheater Main.shows
  /\ Hub.cinemaReachable Main.shows Hub.demoServer
  /\ Hub.app Hub.demoServer <> Main.shows
  /\ Client.parseAndUpdateShows (formatUpdateData (Hub.app Hub.demoServer))
     = Hub.app Hub.demoServer.
Proof.
  assert (Forall wellFormed Main.shows) as Hwf.
  { apply (bool_decide_unpack _). vm_compute. exact I. }
  assert (listedByTheater Main.shows) as Hlisted by reflexivity.
  split; [exact Hwf|]. split; [exact Hlisted|].
  split; [exact HubFacts.demoServer_reachable|]. split.
  - apply (bool_decide_unpack _). vm_compute. exact I.
  - destruct (client_view_is_catalog Main.shows Hub.demoServer [] Hwf
                Hlisted HubFacts.demoServer_reachable) as (_ & Hupdate & _).
    exact Hupdate.
Defined.

(** X15.  Every message that the cinema server gives to a session, in
    any state that it reaches from any catalog, is a cinema data
    stream for the client: on receiving it the client replaces its
    list of shows by what its parser makes of the message, and never
    prints it as a server update. *)
Theorem server_sends_data_streams (a : list Shows) (srv : Hub.Server)
    (id : nat) (s : Hub.Session) (msg : cstring) (st : CinemaClient.State) :
  Hub.cinemaReachable a srv -> Hub.heap srv !! id = Some s ->
  msg ∈ Hub.enqueued s ->
  Client.isCinemaDataStream msg = true
  /\ CinemaClient.getShows (CinemaClient.received msg st)
     = Client.parseAndUpdateShows msg
  /\ CinemaClient.console (CinemaClient.received msg st)
     = CinemaClient.console st.
Proof.
  intros Hreach Hs Hmsg.
  assert (Client.isCinemaDataStream msg = true) as Hstream.
  { assert (Forall (fun m => Client.isCinemaDataStream m = true)
                   (Hub.enqueued s)) as Hsent.
    { assert (forall received x,
                 Client.isCinemaDataStream (handleMessage received x).1.1
                 = true) as Hresponse.
      { intros received x.
        destruct (handleMessage_response received x) as (prefix & -> & _).
        apply formatCinemaData_is_stream. }
      exact (HubRuns.reachable_sessions handleMessage formatCinemaData
               formatUpdateData
               (sent_all (fun m => Client.isCinemaDataStream m = true))
               (fun m => Client.isCinemaDataStream m = true)
               (HubRuns.sent_all_invariant _)
               (fun x => formatCinemaData_is_stream [] x)
               (fun x => proj1 (formatUpdateData_is_stream x))
               Hresponse a srv id s Hreach Hs). }
    rewrite Forall_forall in Hsent. by apply Hsent. }
  destruct (received_stream msg st Hstream) as (Hshows & _ & Hconsole).
  by split_and!.
Qed.

Lemma server_sends_data_streams_witness :
  Hub.cinemaReachable Main.shows Hub.demoServer
  /\ Hub.heap Hub.demoServer !! 1%nat
     = Some (Hub.send_message (formatUpdateData (Hub.app Hub.demoServer))
               (Hub.async_accept Hub.newSession))
  /\ Client.isCinemaDataStream (formatUpdateData (Hub.app Hub.demoServer))
     = true.
Proof.
  assert (Hub.heap Hub.demoServer !! 1%nat
          = Some (Hub.send_message (formatUpdateData (Hub.app Hub.demoServer))
                    (Hub.async_accept Hub.newSession))) as Hs
    by (vm_compute; reflexivity).
  split; [exact HubFacts.demoServer_reachable|]. split; [exact Hs|].
  apply (server_sends_data_streams Main.shows Hub.demoServer 1%nat _ _
           (CinemaClient.mkState [] [] [] [])
           HubFacts.demoServer_reachable Hs).
  left.
Defined.

(** ** Concurrent reservations: termination and disjoint requests *)

Lemma existsb_eq {A} (f g : A -> bool) (l : list A) :
  (forall x, x ∈ l -> f x = g x) -> existsb f l = existsb g l.
Proof.
  induction l as [|x l IH]; intros H; [done|].
  cbn [existsb]. rewrite (H x) by left. f_equal. apply IH.
  intros y Hy. apply H. by right.
Qed.

(** Booking the seats of [la] does not change what is answered for a
    seat that is not in [la]. *)
Lemma seatRejected_other (la : list Z) (s : list bool) (seat : Z) :
  existsb (seatRejected s) la = false -> seat ∉ la ->
  seatRejected (foldl markBooked s la) seat = seatRejected s seat.
Proof.
  intros Hla Hseat. apply existsb_seatRejected_false in Hla.
  unfold seatRejected. rewrite length_foldl_markBooked.
  destruct (seat <? 1) eqn:Hlow; [done|]. apply Z.ltb_ge in Hlow.
  rewrite lookup_foldl_markBooked
    by (eapply Forall_impl; [exact Hla | simpl; lia]).
  replace (Z.of_nat (Z.to_nat (seat - 1)) + 1) with seat by lia.
  by rewrite bool_decide_eq_false_2.
Qed.

Lemma markBooked_commute (la lb : list Z) (s : list bool) :
  Forall (fun seat => 1 <= seat) la -> Forall (fun seat => 1 <= seat) lb ->
  foldl markBooked (foldl markBooked s la) lb
  = foldl markBooked (foldl markBooked s lb) la.
Proof.
  intros Hla Hlb. apply list_eq. intros i.
  rewrite !lookup_foldl_markBooked by done.
  destruct (s !! i); by repeat case_bool_decide.
Qed.

(** Two calls that name no common seat give the same results and the
    same bitmap in either order. *)
Lemma bookSeatsOn_disjoint (la lb : list Z) (s : list bool) :
  (forall seat, seat ∈ la -> seat ∉ lb) ->
  fst (bookSeatsOn lb (snd (bookSeatsOn la s))) = fst (bookSeatsOn lb s)
  /\ snd (bookSeatsOn lb (snd (bookSeatsOn la s)))
     = snd (bookSeatsOn la (snd (bookSeatsOn lb s))).
Proof.
  intros Hdisj.
  assert (forall seat, seat ∈ lb -> seat ∉ la) as Hdisj'.
  { intros seat Hb Ha. by apply (Hdisj seat). }
  assert (forall l l', (forall seat, seat ∈ l -> seat ∉ l') ->
            existsb (seatRejected s) l' = false ->
            existsb (seatRejected (foldl markBooked s l')) l
            = existsb (seatRejected s) l) as Hsame.
  { intros l l' Hll' Hl'. apply existsb_eq. intros seat Hseat.
    apply seatRejected_other; [done | by apply Hll']. }
  unfold bookSeatsOn.
  destruct (existsb (seatRejected s) la) eqn:Ha;
    destruct (existsb (seatRejected s) lb) eqn:Hb; cbn [fst snd].
  - by rewrite Ha, Hb.
  - rewrite Hb. cbn [fst snd]. by rewrite (Hsame la lb Hdisj Hb), Ha.
  - by rewrite (Hsame lb la Hdisj' Ha), Hb, Ha.
  - rewrite (Hsame lb la Hdisj' Ha), (Hsame la lb Hdisj Hb), Ha, Hb.
    cbn [fst snd]. split; [done|].
    apply existsb_seatRejected_false in Ha, Hb.
    apply markBooked_commute; (eapply Forall_impl; [eassumption|]);
      simpl; lia.
Qed.

Module ConcurrentRuns.
Import Concurrent.

Section Calls.
Variable seatNumbers : Tid -> list Z.
Variable seats0 : list bool.

Local Abbreviation thread_step := (thread_step seatNumbers).
Local Abbreviation Run := (Run seatNumbers).
Local Abbreviation exec := (exec seatNumbers).
Local Abbreviation serialized := (serialized seatNumbers seats0).
Local Abbreviation total_remaining := (total_remaining seatNumbers).

(** From a state in which the calls are serialized, some schedule of
    at most [n] statements brings both calls to their return, when at
    most [n] statements are left. *)
Lemma finish (n : nat) : forall c,
  serialized c -> (total_remaining c <= n)%nat ->
  exists schedule c' r1 r2,
    exec schedule c = Some c' /\ (length schedule <= n)%nat
    /\ pc1 c' = Returned r1 /\ pc2 c' = Returned r2.
Proof.
  induction n as [|n IH]; intros c Hser Hn.
  - destruct (ConcurrentFacts.no_deadlock seatNumbers seats0 c Hser)
      as [(r1 & r2 & H1 & H2) | (t & c1 & Hstep)].
    + by exists [], c, r1, r2.
    + pose proof (ConcurrentFacts.step_decreases seatNumbers t c c1 Hstep).
      lia.
  - destruct (ConcurrentFacts.no_deadlock seatNumbers seats0 c Hser)
      as [(r1 & r2 & H1 & H2) | (t & c1 & Hstep)].
    + exists [], c, r1, r2. simpl. split_and!; try done. lia.
    + pose proof (ConcurrentFacts.step_decreases seatNumbers t c c1 Hstep).
      destruct (IH c1) as (schedule & c' & r1 & r2 & Hexec & Hlen & H1 & H2).
      { by eapply ConcurrentFacts.serialized_step. }
      { lia. }
      exists (t :: schedule), c', r1, r2. simpl. rewrite Hstep.
      split_and!; try done. lia.
Qed.

(** X16.  Two concurrent calls of [bookSeats] on one show can always
    come to an end: from every state that they reach, some schedule
    runs both calls to their return, in at most as many statements as
    [total_remaining] counts (for a call that has not started, twice
    the number of seats it names and three more). *)
Theorem both_calls_return c :
  Run (initial seats0) c ->
  exists schedule c' r1 r2,
    exec schedule c = Some c'
    /\ (length schedule <= total_remaining c)%nat
    /\ Run (initial seats0) c'
    /\ pc1 c' = Returned r1 /\ pc2 c' = Returned r2.
Proof.
  intros Hrun.
  destruct (finish (total_remaining c) c)
    as (schedule & c' & r1 & r2 & Hexec & Hlen & H1 & H2); [|done|].
  { by apply ConcurrentFacts.run_serialized. }
  exists schedule, c', r1, r2. split_and!; try done.
  by eapply ConcurrentFacts.exec_Run.
Qed.

(** X17.  Two concurrent calls of [bookSeats] that name no common seat
    do not disturb each other: however their statements interleave,
    each call returns what it would have returned alone on the initial
    bitmap, and the final bitmap is the one that the two calls leave
    when run one after the other, in either order. *)
Theorem disjoint_calls_commute c r1 r2 :
  (forall seat, seat ∈ seatNumbers T1 -> seat ∉ seatNumbers T2) ->
  Run (initial seats0) c ->
  pc1 c = Returned r1 -> pc2 c = Returned r2 ->
  r1 = fst (bookSeatsOn (seatNumbers T1) seats0)
  /\ r2 = fst (bookSeatsOn (seatNumbers T2) seats0)
  /\ ledger c
     = snd (bookSeatsOn (seatNumbers T2)
              (snd (bookSeatsOn (seatNumbers T1) seats0)))
  /\ ledger c
     = snd (bookSeatsOn (seatNumbers T1)
              (snd (bookSeatsOn (seatNumbers T2) seats0))).
Proof.
  intros Hdisj Hrun H1 H2.
  assert (forall seat, seat ∈ seatNumbers T2 -> seat ∉ seatNumbers T1)
    as Hdisj'.
  { intros seat Hb Ha. by apply (Hdisj seat). }
  destruct (bookSeatsOn_disjoint (seatNumbers T1) (seatNumbers T2) seats0
              Hdisj) as [Hr12 Hs12].
  destruct (bookSeatsOn_disjoint (seatNumbers T2) (seatNumbers T1) seats0
              Hdisj') as [Hr21 Hs21].
  destruct (ConcurrentFacts.run_serialized seatNumbers seats0 c Hrun)
    as (first & s1 & Hu & Hv & _).
  destruct first; simpl in Hu, Hv;
    rewrite ?H1, ?H2 in Hu; rewrite ?H1, ?H2 in Hv; simpl in Hu, Hv.
  - rewrite Hu in Hr12, Hs12. simpl in Hr12, Hs12.
    rewrite Hv in Hr12, Hs12. simpl in Hr12, Hs12.
    rewrite Hu. simpl. rewrite Hv. simpl. by split_and!.
  - rewrite Hu in Hr21, Hs21. simpl in Hr21, Hs21.
    rewrite Hv in Hr21, Hs21. simpl in Hr21, Hs21.
    rewrite Hu. simpl. rewrite Hv. simpl. by split_and!.
Qed.

End Calls.

Lemma both_calls_return_witness :
  Concurrent.Run askAdjacent (initial (replicate 20 false))
    (initial (replicate 20 false))
  /\ exists schedule c',
       Concurrent.exec askAdjacent schedule (initial (replicate 20 false))
       = Some c'
       /\ (length schedule <= 18)%nat
       /\ exists r1 r2, pc1 c' = Returned r1 /\ pc2 c' = Returned r2.
Proof.
  assert (Concurrent.Run askAdjacent (initial (replicate 20 false))
            (initial (replicate 20 false))) as Hrun by apply run_refl.
  split; [exact Hrun|].
  destruct (both_calls_return askAdjacent (replicate 20 false) _ Hrun)
    as (schedule & c' & r1 & r2 & Hexec & Hlen & _ & H1 & H2).
  exists schedule, c'. split; [exact Hexec|]. split; [exact Hlen|].
  by exists r1, r2.
Defined.

Lemma disjoint_calls_commute_witness :
  (forall seat, seat ∈ askApart T1 -> seat ∉ askApart T2)
  /\ Concurrent.Run askApart (initial (replicate 20 false)) afterApart
  /\ pc1 afterApart = Returned true /\ pc2 afterApart = Returned true
  /\ ledger afterApart
     = snd (bookSeatsOn [3; 4] (snd (bookSeatsOn [1; 2] (replicate 20 false)))).
Proof.
  assert (forall seat, seat ∈ askApart T1 -> seat ∉ askApart T2) as Hdisj.
  { intros seat H1 H2. simpl in H1, H2.
    rewrite !elem_of_cons, !elem_of_nil in H1, H2. lia. }
  assert (Concurrent.Run askApart (initial (replicate 20 false)) afterApart)
    as Hrun.
  { apply (ConcurrentFacts.exec_Run askApart
             (replicate 7 T2 ++ replicate 7 T1) _
             (initial (replicate 20 false)));
      [apply run_refl | vm_compute; reflexivity]. }
  split; [exact Hdisj|]. split; [exact Hrun|].
  split; [reflexivity|]. split; [reflexivity|].
  apply (disjoint_calls_commute askApart (replicate 20 false) afterApart
           true true Hdisj Hrun); reflexivity.
Defined.

End ConcurrentRuns.

(** ** The client's booking dialogue *)

Import CinemaUI.

Lemma parseSeatTokens_range (toks : list cstring) :
  forall acc seats,
    parseSeatTokens acc toks = Some seats ->
    exists new,
      seats = acc ++ new /\ Forall (fun seat => 1 <= seat <= 20) new.
Proof.
  induction toks as [|tok toks IH]; intros acc seats; cbn [parseSeatTokens].
  - intros [= <-]. exists []. by rewrite app_nil_r.
  - destruct (stoi tok) as [seat|]; [|done].
    destruct ((MIN_SEAT_NUMBER <=? seat) && (seat <=? MAX_SEAT_NUMBER))
      eqn:E; [|done].
    apply andb_true_iff in E as [E1%Z.leb_le E2%Z.leb_le].
    unfold MIN_SEAT_NUMBER, MAX_SEAT_NUMBER in *.
    intros (new & -> & Hnew)%IH. exists (to_uint8 seat :: new).
    split; [by rewrite <- app_assoc|]. constructor; [|done].
    unfold to_uint8. rewrite Z.mod_small; lia.
Qed.

Lemma selectSeats_range_available (input : cstring) (sh : Shows) :
  Forall (fun seat => 1 <= seat <= 20) (selectSeats input sh)
  /\ Forall (fun seat => seat ∈ getAvailableSeats sh) (selectSeats input sh).
Proof.
  unfold selectSeats.
  destruct (bool_decide (input = []) || bool_decide (input = lit "0"));
    [by split|].
  destruct (parseSeatTokens [] _) as [selected|] eqn:Hparse; [|by split].
  case_bool_decide; [by split|].
  destruct (forallb _ selected) eqn:Havail; [|by split].
  apply parseSeatTokens_range in Hparse as (new & -> & Hrange).
  split; [done|].
  rewrite forallb_forall in Havail. apply Forall_forall. intros seat Hseat.
  eapply bool_decide_eq_true_1, Havail. by apply list_elem_of_In.
Qed.

(** X18.  Whatever line the user enters, [selectSeats] returns only
    seat numbers between 1 and 20 that the selected show lists as
    available; so [bookSeats] with the selection succeeds on that
    show.  One token that is no number, one number outside 1..20 or
    one seat that is not available empties the whole selection. *)
Theorem selectSeats_sound (input : cstring) (sh : Shows) :
  Forall (fun seat => 1 <= seat <= 20 /\ seat ∈ getAvailableSeats sh)
         (selectSeats input sh)
  /\ ((length (seats sh) <= 255)%nat ->
      (bookSeats (selectSeats input sh) sh).1 = true).
Proof.
  destruct (selectSeats_range_available input sh) as [Hrange Havail].
  split.
  - rewrite Forall_forall in Hrange, Havail |- *. intros seat Hseat.
    split; [by apply Hrange | by apply Havail].
  - intros Hlen. by apply bookSeats_accepts_available.
Qed.

Lemma selectSeats_sound_witness :
  let sh := set_seats (newShows (lit "Tenet") (lit "2025-09-11 19:30")
                                (lit "IMAX")) Main.pattern3 in
  selectSeats (lit "9, 2") sh = [9; 2]
  /\ selectSeats (lit "9 3") sh = []
  /\ (length (seats sh) <= 255)%nat
  /\ (bookSeats (selectSeats (lit "9, 2") sh) sh).1 = true.
Proof.
  intros sh.
  assert (length (seats sh) <= 255)%nat as Hlen by (simpl; lia).
  split; [reflexivity|]. split; [reflexivity|]. split; [exact Hlen|].
  by apply (selectSeats_sound (lit "9, 2") sh).
Defined.

Lemma selectShow_in (choice : Z) (t : cstring) (shows : list Shows) :
  theater (selectShow choice t shows) <> [] ->
  selectShow choice t shows ∈ shows
  /\ theater (selectShow choice t shows) = t.
Proof.
  unfold selectShow. destruct (choice =? 0); [done|].
  destruct ((1 <=? choice) && _); [|done].
  destruct (filter _ shows !! Z.to_nat (choice - 1)) as [sh|] eqn:E;
    [|done].
  intros _. simpl.
  apply list_elem_of_lookup_2, list_elem_of_filter in E. by destruct E.
Qed.

(** X19.  The two menus select from the catalog, and anything else
    cancels: [selectTheater] returns the theater of some show of the
    catalog or the empty string, and [selectShow] returns a show of the
    catalog that plays in the theater asked for, or the show without
    names; the choice 0, a negative choice (the -1 of an input that is
    no number included) and a choice beyond the end of the menu give
    the empty string and the show without names. *)
Theorem menus_select_from_catalog (theaterChoice showChoice : Z)
    (theaterName : cstring) (shows : list Shows) :
  (selectTheater theaterChoice shows <> [] ->
   exists sh, sh ∈ shows /\ theater sh = selectTheater theaterChoice shows)
  /\ (theater (selectShow showChoice theaterName shows) <> [] ->
      selectShow showChoice theaterName shows ∈ shows
      /\ theater (selectShow showChoice theaterName shows) = theaterName)
  /\ (theaterChoice <= 0
      \/ Z.of_nat (length (theatersInOrder shows)) < theaterChoice ->
      selectTheater theaterChoice shows = [])
  /\ (showChoice <= 0
      \/ Z.of_nat (length (filter (fun show => theater show = theaterName)
                                  shows)) < showChoice ->
      selectShow showChoice theaterName shows = newShows [] [] []).
Proof.
  split_and!.
  - unfold selectTheater. destruct (theaterChoice =? 0); [done|].
    destruct ((1 <=? theaterChoice) && _); [|done].
    destruct (theatersInOrder shows !! Z.to_nat (theaterChoice - 1))
      as [t|] eqn:E; [|done].
    intros _. simpl.
    apply list_elem_of_lookup_2, elem_of_theatersInOrder in E. exact E.
  - apply selectShow_in.
  - intros Hout. unfold selectTheater.
    destruct (theaterChoice =? 0) eqn:E0; [done|].
    apply Z.eqb_neq in E0.
    assert ((1 <=? theaterChoice)
            && (theaterChoice <=? Z.of_nat (length (theatersInOrder shows)))
            = false) as ->; [|done].
    apply andb_false_iff. destruct Hout;
      [left; apply Z.leb_gt | right; apply Z.leb_gt]; lia.
  - intros Hout. unfold selectShow.
    destruct (showChoice =? 0) eqn:E0; [done|].
    apply Z.eqb_neq in E0.
    assert ((1 <=? showChoice)
            && (showChoice <=? Z.of_nat
                  (length (filter (fun show => theater show = theaterName)
                                  shows)))
            = false) as ->; [|done].
    apply andb_false_iff. destruct Hout;
      [left; apply Z.leb_gt | right; apply Z.leb_gt]; lia.
Qed.

Lemma menus_select_from_catalog_witness :
  selectTheater 2 Main.shows = lit "IMAX"
  /\ theater (selectShow 3 (lit "IMAX") Main.shows) <> []
  /\ selectShow 3 (lit "IMAX") Main.shows ∈ Main.shows
  /\ movie (selectShow 3 (lit "IMAX") Main.shows) = lit "Tenet"
  /\ selectShow 4 (lit "IMAX") Main.shows = newShows [] [] [].
Proof.
  assert (theater (selectShow 3 (lit "IMAX") Main.shows) <> []) as Hne
    by done.
  split; [reflexivity|]. split; [exact Hne|].
  destruct (menus_select_from_catalog 2 3 (lit "IMAX") Main.shows)
    as (_ & Hshow & _ & _).
  split; [by apply Hshow|]. split; reflexivity.
Defined.

(** ** From the dialogue to the server *)

Lemma getlines_item (delim : ascii) (item rest : cstring) :
  delim ∉ item ->
  getlines delim (item ++ delim :: rest) = item :: getlines delim rest.
Proof.
  induction item as [|c item IH]; intros Hitem.
  - cbn [app getlines]. by rewrite Ascii.eqb_refl.
  - apply not_elem_of_cons in Hitem as [Hc Hitem].
    cbn [app getlines]. rewrite IH by done.
    destruct (Ascii.eqb c delim) eqn:E; [|done].
    by apply Ascii.eqb_eq in E.
Qed.

Lemma getlines_last (delim : ascii) (item : cstring) :
  item <> [] -> delim ∉ item -> getlines delim item = [item].
Proof.
  induction item as [|c item IH]; intros Hne Hitem; [done|].
  apply not_elem_of_cons in Hitem as [Hc Hitem]. cbn [getlines].
  destruct (Ascii.eqb c delim) eqn:E; [by apply Ascii.eqb_eq in E|].
  destruct item as [|d item]; [done|]. by rewrite IH.
Qed.

Lemma isdigit_not_comma (c : ascii) : isdigit c = true -> c <> comma.
Proof. by destruct c as [[] [] [] [] [] [] [] []]. Qed.

Lemma decimal_no_comma (x : Z) : 0 <= x <= 20 -> comma ∉ to_string x.
Proof.
  intros Hx. destruct (decimal_word x Hx) as (_ & _ & Hd & _).
  rewrite forallb_forall in Hd.
  intros Hin%list_elem_of_In%Hd%isdigit_not_comma. done.
Qed.

(** The fields of the request that the dialogue builds. *)
Lemma getlines_booking (item : cstring) (selectedSeats : list Z) :
  (comma ∉ item) -> (selectedSeats = [] -> item <> []) ->
  Forall (fun x => 1 <= x <= 20) selectedSeats ->
  getlines comma
    (item ++ flat_map (fun seat => lit "," ++ to_string seat) selectedSeats)
  = item :: map to_string selectedSeats.
Proof.
  intros Hitem Hne Hrange. revert item Hitem Hne.
  induction Hrange as [|x l Hx Hl IH]; intros item Hitem Hne.
  - cbn [flat_map map]. rewrite app_nil_r. apply getlines_last; auto.
  - cbn [flat_map map].
    change (item ++ (lit "," ++ to_string x) ++ ?rest)
      with (item ++ comma :: (to_string x ++ rest)).
    rewrite getlines_item by done. f_equal. apply IH.
    + apply decimal_no_comma. lia.
    + intros _. destruct (decimal_word x) as (Hw & _); [lia | done].
Qed.

Lemma seatField_decimal (l : list Z) :
  Forall (fun x => 1 <= x <= 20) l -> Forall2 seatField (map to_string l) l.
Proof.
  induction 1 as [|x l Hx Hl IH]; constructor; [|done].
  destruct (decimal_word x) as (_ & _ & _ & Hstoi & _); [lia|].
  by split.
Qed.

(** In a catalog where no two shows have the same theater and title,
    every show is the first that has its theater and title. *)
Lemma first_of_its_name (shows : list Shows) (sh : Shows) :
  NoDup (map (fun s => (theater s, movie s)) shows) -> sh ∈ shows ->
  exists before after,
    shows = before ++ sh :: after
    /\ Forall (fun s => ~ (theater s = theater sh /\ movie s = movie sh))
              before.
Proof.
  intros Hnodup Hin.
  apply list_elem_of_split in Hin as (before & after & ->).
  exists before, after. split; [done|].
  rewrite map_app in Hnodup. apply NoDup_app in Hnodup as (_ & Hdisj & _).
  apply Forall_forall. intros s Hs [Ht Hm].
  apply (Hdisj (theater s, movie s)).
  - apply list_elem_of_In, in_map_iff. exists s.
    split; [done | by apply list_elem_of_In].
  - rewrite Ht, Hm. left.
Qed.

(** What [processBooking] does with the request of a dialogue that
    was not cancelled. *)
Lemma performBooking_processed (answers : Answers) (shows : list Shows) :
  Forall (fun s => (comma ∉ theater s) /\ (comma ∉ movie s)
                   /\ (length (seats s) <= 255)%nat) shows ->
  NoDup (map (fun s => (theater s, movie s)) shows) ->
  performBooking answers shows <> [] ->
  let sh :=
    selectShow (showChoice answers)
               (selectTheater (theaterChoice answers) shows) shows in
  let selected := selectSeats (seatInput answers) sh in
  performBooking answers shows = booking sh selected
  /\ sh ∈ shows /\ selected <> []
  /\ Forall2 seatField (map to_string selected) selected
  /\ (bookSeats selected sh).1 = true
  /\ exists before after,
       shows = before ++ sh :: after
       /\ processBooking (booking sh selected) shows
          = (mkBookingResult true
               (lit "SUCCESS: Booked seats " ++ seatList selected
                  ++ lit " for " ++ movie sh ++ lit " at " ++ theater sh
                  ++ blank_line
                  ++ formatCinemaData
                       (before ++ (bookSeats selected sh).2 :: after))
               true,
             before ++ (bookSeats selected sh).2 :: after).
Proof.
  intros Hplain Hnodup Hsent sh selected.
  assert (performBooking answers shows = booking sh selected
          /\ theater sh <> [] /\ selected <> []) as (Hreq & Hsh & Hsel).
  { unfold performBooking in Hsent |- *. fold sh in Hsent |- *.
    fold selected in Hsent |- *.
    repeat case_bool_decide; try done.
    by destruct (confirmBooking (confirm answers)). }
  destruct (selectShow_in _ _ _ Hsh) as [Hin _]. fold sh in Hin.
  destruct (first_of_its_name shows sh Hnodup Hin)
    as (before & after & Hshows & Hbefore).
  rewrite Forall_forall in Hplain.
  destruct (Hplain sh Hin) as (Hct & Hcm & Hlen).
  destruct (selectSeats_range_available (seatInput answers) sh)
    as [Hrange Havail].
  fold selected in Hrange, Havail.
  pose proof (seatField_decimal selected Hrange) as Hfields.
  assert ((bookSeats selected sh).1 = true) as Hbook.
  { by apply bookSeats_accepts_available. }
  do 5 (split; [done|]). exists before, after. split; [done|].
  assert (getlines comma (booking sh selected)
          = theater sh :: movie sh :: map to_string selected) as Hparts.
  { unfold booking.
    change (theater sh ++ lit "," ++ ?rest)
      with (theater sh ++ comma :: rest).
    rewrite getlines_item by done. f_equal.
    by apply getlines_booking. }
  unfold processBooking. rewrite Hparts.
  destruct selected as [|seat rest]; [done|].
  cbn [map] in Hfields |- *.
  rewrite (parseSeatFields_ok _ (seat :: rest) [] Hfields). cbn [app].
  rewrite Hshows, (bookFirstMatch_first _ _ _ _ _ _ Hbefore eq_refl eq_refl).
  by rewrite Hbook.
Qed.

(** X20.  The request that the dialogue builds is accepted by a server
    whose catalog is the list of shows that the dialogue was given:
    when no theater name or title holds a comma, no two shows have
    the same theater and title, and no show has more than 255 seats,
    a dialogue that is not cancelled returns the request
    "theater,title,seat,..." for the selected show and seats, and
    [processBooking] answers it with a success that books exactly
    these seats of that show. *)
Theorem performBooking_accepted (answers : Answers) (shows : list Shows) :
  Forall (fun s => (comma ∉ theater s) /\ (comma ∉ movie s)
                   /\ (length (seats s) <= 255)%nat) shows ->
  NoDup (map (fun s => (theater s, movie s)) shows) ->
  performBooking answers shows <> [] ->
  let selectedShow :=
    selectShow (showChoice answers)
               (selectTheater (theaterChoice answers) shows) shows in
  let selectedSeats := selectSeats (seatInput answers) selectedShow in
  performBooking answers shows = booking selectedShow selectedSeats
  /\ success (processBooking (performBooking answers shows) shows).1 = true
  /\ exists before after,
       shows = before ++ selectedShow :: after
       /\ (processBooking (performBooking answers shows) shows).2
          = before ++ (bookSeats selectedSeats selectedShow).2 :: after.
Proof.
  intros Hplain Hnodup Hsent sh selected.
  destruct (performBooking_processed answers shows Hplain Hnodup Hsent)
    as (Hreq & _ & _ & _ & _ & before & after & Hshows & Hdone).
  fold sh selected in Hreq, Hshows, Hdone.
  rewrite Hreq, Hdone. split; [done|]. split; [done|].
  by exists before, after.
Qed.

Lemma performBooking_accepted_witness :
  let answers := mkAnswers 1 1 (lit "3 4") "y" in
  performBooking answers Main.shows = lit "PVR,Inception,3,4"
  /\ success (processBooking (performBooking answers Main.shows)
                Main.shows).1 = true.
Proof.
  intros answers.
  assert (performBooking answers Main.shows = lit "PVR,Inception,3,4")
    as Hreq by reflexivity.
  split; [exact Hreq|].
  apply (performBooking_accepted answers Main.shows).
  - apply (bool_decide_unpack _). vm_compute. exact I.
  - apply (bool_decide_unpack _). vm_compute. exact I.
  - rewrite Hreq. discriminate.
Defined.

(** *** The whole round *)

Lemma handleMessage_booking (received : cstring) (shows : list Shows) :
  comma ∈ received ->
  handleMessage received shows
  = (message (processBooking received shows).1,
     shouldBroadcast (processBooking received shows).1,
     (processBooking received shows).2).
Proof.
  intros Hc. unfold handleMessage.
  rewrite (bool_decide_eq_false_2 (received = lit "get_data")).
  2:{ intros ->. revert Hc. closed_notin. }
  rewrite (bool_decide_eq_false_2 (received = lit "refresh")).
  2:{ intros ->. revert Hc. closed_notin. }
  cbn [orb]. rewrite bool_decide_eq_true_2 by (by apply find_char).
  by destruct (processBooking received shows).
Qed.

(** X21.  One whole booking, from the dialogue to the client's list of
    shows.  The client holds the server's catalog, of well-formed shows
    listed theater by theater, no name with a comma and no two shows
    with the same theater and title.  When the dialogue is not
    cancelled, the router passes its request to the booking service and
    asks for a broadcast; the client takes the response for a data
    stream, records it as its last booking response, which its main
    loop reports as a success, and its list of shows becomes the
    server's new catalog: the old one with the selected seats of the
    selected show booked, none of them available any more. *)
Theorem booking_round (answers : Answers) (shows : list Shows)
    (st : CinemaClient.State) :
  Forall wellFormed shows -> listedByTheater shows ->
  Forall (fun s => (comma ∉ theater s) /\ (comma ∉ movie s)) shows ->
  NoDup (map (fun s => (theater s, movie s)) shows) ->
  performBooking answers shows <> [] ->
  let selectedShow :=
    selectShow (showChoice answers)
               (selectTheater (theaterChoice answers) shows) shows in
  let selectedSeats := selectSeats (seatInput answers) selectedShow in
  let request := performBooking answers shows in
  let response := (handleMessage request shows).1.1 in
  let st' := CinemaClient.received response st in
  (handleMessage request shows).1.2 = true
  /\ CinemaClient.getShows st' = (handleMessage request shows).2
  /\ CinemaClient.lastBookingResponse_ st' = response
  /\ ClientMain.success response = true
  /\ (exists before after,
        shows = before ++ selectedShow :: after
        /\ (handleMessage request shows).2
           = before ++ (bookSeats selectedSeats selectedShow).2 :: after)
  /\ Forall (fun seat =>
               seat ∉ getAvailableSeats
                        (bookSeats selectedSeats selectedShow).2)
            selectedSeats.
Proof.
  intros Hwf Hlisted Hnames Hnodup Hsent. cbv zeta.
  assert (Forall (fun s => (comma ∉ theater s) /\ (comma ∉ movie s)
                           /\ (length (seats s) <= 255)%nat) shows)
    as Hplain.
  { rewrite Forall_forall in Hwf, Hnames |- *. intros s Hs.
    destruct (Hnames s Hs) as [? ?].
    destruct (Hwf s Hs) as (_ & _ & _ & _ & _ & _ & _ & _ & H20).
    split_and!; try done. lia. }
  destruct (performBooking_processed answers shows Hplain Hnodup Hsent)
    as (Hreq & Hin & Hsel & Hfields & Hbook & before & after & Hshows & Hdone).
  set (sh := selectShow _ _ shows) in *.
  set (selected := selectSeats _ sh) in *.
  clearbody selected. clearbody sh.
  assert (comma ∈ booking sh selected) as Hcomma.
  { unfold booking. apply elem_of_app. right. left. }
  rewrite Hreq, (handleMessage_booking _ shows Hcomma), Hdone.
  cbn [fst snd message shouldBroadcast].
  set (shows' := before ++ (bookSeats selected sh).2 :: after) in *.
  set (line := lit "SUCCESS: Booked seats " ++ seatList selected
                 ++ lit " for " ++ movie sh ++ lit " at " ++ theater sh).
  assert (lit "SUCCESS: Booked seats " ++ seatList selected ++ lit " for "
            ++ movie sh ++ lit " at " ++ theater sh ++ blank_line
            ++ formatCinemaData shows'
          = line ++ blank_line ++ formatCinemaData shows') as ->.
  { unfold line. by rewrite <- !app_assoc. }
  assert (Forall2 soldFrom shows shows') as Hsold.
  { rewrite Hshows. apply Forall2_app; [apply catalog_soldFrom_refl|].
    constructor; [apply bookSeats_soldFrom | apply catalog_soldFrom_refl]. }
  assert (Client.parseAndUpdateShows
            (line ++ blank_line ++ formatCinemaData shows') = shows')
    as Hparse.
  { rewrite parse_prefixed.
    - apply listed_grouped. unfold listedByTheater.
      by rewrite (soldFrom_blocks shows shows').
    - by eapply catalog_wellFormed.
    - rewrite Forall_forall in Hwf.
      destruct (Hwf sh Hin) as (_ & Ht & Hm & _).
      unfold line. rewrite !not_elem_of_app.
      split_and!; try done; try (by eapply seatList_plain); closed_notin.
    - reflexivity. }
  destruct (received_stream (line ++ blank_line ++ formatCinemaData shows')
              st) as (Hcache & _ & _).
  { rewrite app_assoc. apply formatCinemaData_is_stream. }
  assert (starts_with (lit "SUCCESS:")
            (line ++ blank_line ++ formatCinemaData shows') = true)
    as Hprefix by reflexivity.
  split; [done|].
  split; [unfold CinemaClient.getShows; by rewrite Hcache, Hparse|].
  split.
  { unfold CinemaClient.received, CinemaClient.processMessage.
    rewrite (contains_prefix _ _ Hprefix). cbn [orb].
    by destruct (Client.isCinemaDataStream _). }
  split.
  { unfold ClientMain.success. by rewrite (contains_prefix _ _ Hprefix). }
  split; [by exists before, after|].
  apply Forall_forall. intros seat Hseat Havail.
  destruct (bookSeats_booked selected sh seat Hbook Hseat) as [_ Hbooked].
  destruct (bookSeats_names selected sh) as (_ & _ & _ & Hlen).
  rewrite Forall_forall in Hplain.
  destruct (Hplain sh Hin) as (_ & _ & Hlen').
  apply elem_of_getAvailableSeats in Havail as [_ Hfree]; [|lia].
  congruence.
Qed.

Lemma booking_round_witness :
  let answers := mkAnswers 1 1 (lit "3 4") "y" in
  let response :=
    (handleMessage (performBooking answers Main.shows) Main.shows).1.1 in
  performBooking answers Main.shows = lit "PVR,Inception,3,4"
  /\ CinemaClient.getShows
       (CinemaClient.received response (CinemaClient.mkState [] [] [] []))
     = (handleMessage (lit "PVR,Inception,3,4") Main.shows).2.
Proof.
  intros answers response.
  assert (performBooking answers Main.shows = lit "PVR,Inception,3,4")
    as Hreq by reflexivity.
  split; [exact Hreq|].
  destruct (booking_round answers Main.shows
              (CinemaClient.mkState [] [] [] [])) as (_ & Hshows & _).
  - apply (bool_decide_unpack _). vm_compute. exact I.
  - reflexivity.
  - apply (bool_decide_unpack _). vm_compute. exact I.
  - apply (bool_decide_unpack _). vm_compute. exact I.
  - rewrite Hreq. discriminate.
  - exact Hshows.
Defined.

(** ** The parser on any text *)

Lemma length_seatStatusOf (seatsLine : cstring) :
  length (Client.seatStatusOf seatsLine) = 20%nat.
Proof.
  unfold Client.seatStatusOf.
  assert (forall toks st,
             length (foldl Client.markAvailable st toks) = length st) as H.
  { induction toks as [|tok toks IH]; intros st; cbn [foldl]; [done|].
    rewrite IH. unfold Client.markAvailable.
    destruct (stoi _) as [n|]; [|done].
    destruct ((1 <=? n) && (n <=? 20)); [|done]. apply length_insert. }
  by rewrite H, length_replicate.
Qed.

Lemma parser_ok_add (st : Client.Parser) (m dt t : cstring) :
  parser_ok st ->
  parser_ok (Client.mkParser (Client.shows_ st ++ [newShows m dt t]) t
               (Some (length (Client.shows_ st)))).
Proof.
  intros [H20 _]. split; simpl.
  - apply Forall_app. split; [done|]. constructor; [|done].
    apply length_replicate.
  - rewrite length_app. simpl. lia.
Qed.

Lemma parseLine_ok (st : Client.Parser) (line : cstring) :
  parser_ok st -> parser_ok (Client.parseLine st line).
Proof.
  intros Hok. pose proof Hok as [H20 Hcur]. unfold Client.parseLine.
  case_bool_decide; [by split|].
  destruct (bool_decide _ && negb _).
  - destruct (find (lit " (") _) as [datePos|]; [|done].
    destruct (find (lit ")") _) as [endDate|].
    + case_bool_decide; [|done]. by apply parser_ok_add.
    + by apply parser_ok_add.
  - case_bool_decide; [|done].
    destruct (Client.currentShow st) as [i|] eqn:Hi; [|done].
    split; simpl.
    + apply Forall_alter; [done|]. intros old Hold Hlen.
      unfold Client.updateSeatAvailability.
      case_bool_decide; [|done]. simpl. by rewrite length_seatStatusOf.
    + by rewrite length_alter.
Qed.

(** X22.  Whatever text the parser is given, line after line, every
    show in its list has 20 seats, and [currentShow] is null or points
    to the last element of the list: the pointer that the seats line
    writes through is never one that [emplace_back] has left behind.
    So every show that [parseAndUpdateShows] stores has 20 seats. *)
Theorem parser_keeps_shows_whole (lines : list cstring) (response : cstring) :
  parser_ok (foldl Client.parseLine (Client.mkParser [] [] None) lines)
  /\ Forall (fun sh => length (seats sh) = 20%nat)
            (Client.parseAndUpdateShows response).
Proof.
  assert (forall text st,
             parser_ok st -> parser_ok (foldl Client.parseLine st text))
    as Hfold.
  { induction text as [|line rest IH]; intros st Hst; cbn [foldl];
      [done|].
    by apply IH, parseLine_ok. }
  assert (parser_ok (Client.mkParser [] [] None)) as Hinit by (by split).
  split; [by apply Hfold|].
  unfold Client.parseAndUpdateShows. by apply Hfold.
Qed.

(** ** The seat list as the user may type it *)

(** [std::replace(.., ',', ' ')]. *)
Local Abbreviation blanked :=
  (map (fun c : ascii => if Ascii.eqb c comma then " "%char else c)).

Lemma tokens_single (w : cstring) :
  w <> [] -> forallb (fun c => negb (isspace c)) w = true -> tokens w = [w].
Proof.
  induction w as [|c w IH]; intros Hne Hw; [done|].
  cbn [forallb] in Hw. apply andb_true_iff in Hw as [Hc Hw].
  apply negb_true_iff in Hc.
  destruct w as [|d w].
  - cbn [tokens]. by rewrite Hc.
  - pose proof Hw as Hd. cbn [forallb] in Hd.
    apply andb_true_iff in Hd as [Hd _]. apply negb_true_iff in Hd.
    change (tokens (c :: d :: w))
      with (if isspace c then tokens (d :: w)
            else if isspace d then [c] :: tokens (d :: w)
                 else match tokens (d :: w) with
                      | [] => [[c]]
                      | t :: ts => (c :: t) :: ts
                      end).
    by rewrite Hc, Hd, IH.
Qed.

Lemma blanked_decimal (x : Z) :
  0 <= x <= 20 -> blanked (to_string x) = to_string x.
Proof.
  intros Hx. destruct (decimal_word x Hx) as (_ & _ & Hd & _).
  rewrite forallb_forall in Hd.
  induction (to_string x) as [|c w IH]; [done|].
  cbn [map]. rewrite IH by (intros d Hd'; apply Hd; by right).
  assert (Ascii.eqb c comma = false) as ->; [|done].
  apply Ascii.eqb_neq, isdigit_not_comma, Hd. by left.
Qed.

(** The tokens of a printed seat list. *)
Lemma tokens_seatList (l : list Z) :
  Forall (fun x => 1 <= x <= 20) l ->
  tokens (blanked (seatList l)) = map to_string l.
Proof.
  induction 1 as [|x l Hx Hl IH]; [done|].
  destruct (decimal_word x) as (Hw & Hsp & _); [lia|].
  destruct l as [|y l].
  - cbn [seatList map]. rewrite blanked_decimal by lia.
    by apply tokens_single.
  - rewrite seatList_cons, !map_app, blanked_decimal by lia.
    change (blanked (lit ", ")) with [" "%char; " "%char].
    change (to_string x ++ [" "%char; " "%char] ++ ?rest)
      with (to_string x ++ " "%char :: (" "%char :: rest)).
    rewrite tokens_word by done.
    change (tokens (" "%char :: ?rest)) with (tokens rest).
    by rewrite IH.
Qed.

Lemma parseSeatTokens_decimal (l acc : list Z) :
  Forall (fun x => 1 <= x <= 20) l ->
  parseSeatTokens acc (map to_string l) = Some (acc ++ l).
Proof.
  intros Hl. revert acc.
  induction Hl as [|x l Hx Hl IH]; intros acc; cbn [map parseSeatTokens].
  - by rewrite app_nil_r.
  - destruct (decimal_word x) as (_ & _ & _ & -> & _); [lia|].
    unfold MIN_SEAT_NUMBER, MAX_SEAT_NUMBER.
    assert ((1 <=? x) && (x <=? 20) = true) as ->.
    { apply andb_true_intro. split; apply Z.leb_le; lia. }
    rewrite IH, <- app_assoc. unfold to_uint8.
    by rewrite Z.mod_small by lia.
Qed.

Lemma seatList_typed (l : list Z) :
  l <> [] -> Forall (fun x => 1 <= x <= 20) l ->
  seatList l <> [] /\ seatList l <> lit "0".
Proof.
  intros Hne Hl. destruct Hl as [|x l Hx Hl]; [done|].
  destruct (decimal_word x) as (Hw & _ & _ & Hstoi & _); [lia|].
  destruct l as [|y l].
  - cbn [seatList]. split; [done|]. intros H0. rewrite H0 in Hstoi.
    vm_compute in Hstoi. injection Hstoi as <-. lia.
  - rewrite seatList_cons. split.
    + by destruct (to_string x).
    + intros H0. assert (comma ∈ lit "0") as Hc; [|revert Hc; closed_notin].
      rewrite <- H0. apply elem_of_app. right. left.
Qed.

(** X23.  The user may type the seats as the snapshot prints them: for
    a non-empty list of seats that the selected show, of at most 20
    seats, lists as available, the text "a, b, c" that
    [formatCinemaData] writes for the list is read back by
    [selectSeats] as the list itself. *)
Theorem selectSeats_reads_seat_list (l : list Z) (sh : Shows) :
  (length (seats sh) <= 20)%nat -> l <> [] ->
  Forall (fun seat => seat ∈ getAvailableSeats sh) l ->
  selectSeats (seatList l) sh = l.
Proof.
  intros Hlen Hne Havail.
  assert (Forall (fun x => 1 <= x <= 20) l) as Hrange.
  { eapply Forall_impl; [exact Havail|]. intros seat Hseat.
    apply elem_of_getAvailableSeats in Hseat as [? _]; lia. }
  destruct (seatList_typed l Hne Hrange) as [Hsome Hnot0].
  unfold selectSeats.
  rewrite (bool_decide_eq_false_2 (seatList l = [])) by done.
  rewrite (bool_decide_eq_false_2 (seatList l = lit "0")) by done.
  cbn [orb]. rewrite tokens_seatList, parseSeatTokens_decimal by done.
  cbn [app]. rewrite bool_decide_eq_false_2 by done.
  assert (forallb (fun seat => bool_decide (seat ∈ getAvailableSeats sh)) l
          = true) as ->; [|done].
  apply forallb_forall. intros seat Hseat. apply bool_decide_eq_true_2.
  rewrite Forall_forall in Havail. by apply Havail, list_elem_of_In.
Qed.

Lemma selectSeats_reads_seat_list_witness :
  let sh := set_seats (newShows (lit "Tenet") (lit "2025-09-11 19:30")
                                (lit "IMAX")) Main.pattern3 in
  seatList [6; 12; 17] = lit "6, 12, 17"
  /\ selectSeats (lit "6, 12, 17") sh = [6; 12; 17].
Proof.
  intros sh. split; [reflexivity|].
  apply (selectSeats_reads_seat_list [6; 12; 17] sh).
  - simpl. lia.
  - done.
  - apply (bool_decide_unpack _). vm_compute. exact I.
Defined.

